(** * TestsLoader quiz application: bank parser and quiz engine

    A shallow embedding of the logic of [src/App.jsx]: the block parser
    ([parseQuestionsFromHtml], from the point where the block list is
    available), the Fisher-Yates shuffle, per-question preparation, the
    sequential and random selection of [startQuiz], the submission state
    machine ([submitAnswer], [changeOption], navigation) and the
    wrong-answer log ([upsertWrongAnswer]).

    Conventions of the embedding.
    - A JavaScript string is the list of its UTF-16 code units, each an [N].
    - A JavaScript object used as a map from property names to values is an
      association list in property (insertion) order; all property names
      that occur here are letters or the word undefined, never array
      indices or names of [Object.prototype], so insertion order is the
      enumeration order and a lookup finds own properties only.
    - Objects keyed by a question index ([answersState],
      [draftSelections]) are finite maps over [nat].
    - Question numbers are JavaScript doubles holding the value of a decimal
      digit string; they are modelled by the exact natural number, which
      agrees with the double below 2^53. The numeric settings are integers.
    - [Math.random] is a stream of draws from the half-open unit interval,
      read through a call counter that the shuffling code threads.
    - The text of a validation message is abstracted to the message it is.
    - A handler runs to completion on the state of the last render: the
      state is a record and every handler a function on it. *)

From Stdlib Require Import NArith ZArith QArith Qround String Ascii.
From Stdlib Require Import Permutation Sorted.
From stdpp Require Import gmap list.

Close Scope Q_scope.
Open Scope N_scope.

(** ** Strings *)

Definition code_unit := N.
Definition jsstring := list code_unit.

(** A literal of the source, for text within ASCII. *)
Fixpoint js (s : string) : jsstring :=
  match s with
  | EmptyString => []
  | String c r => N_of_ascii c :: js r
  end.

Definition jsstring_eqb (a b : jsstring) : bool := bool_decide (a = b).

(** WhiteSpace and LineTerminator of ECMAScript: what [\s] matches and what
    [String.prototype.trim] strips. *)
Definition isLineTerminator (c : code_unit) : bool :=
  (c =? 10) || (c =? 13) || (c =? 0x2028) || (c =? 0x2029).

Definition isWhiteSpace (c : code_unit) : bool :=
  (c =? 9) || (c =? 11) || (c =? 12) || (c =? 32) || (c =? 0xA0)
  || (c =? 0x1680) || ((0x2000 <=? c) && (c <=? 0x200A))
  || (c =? 0x202F) || (c =? 0x205F) || (c =? 0x3000) || (c =? 0xFEFF)
  || isLineTerminator c.

(** [\d] *)
Definition isDigit (c : code_unit) : bool := (48 <=? c) && (c <=? 57).

(** The class [.,、] (full stop, comma, U+3001). *)
Definition isSeparator (c : code_unit) : bool :=
  (c =? 46) || (c =? 44) || (c =? 0x3001).

(** [A-F] *)
Definition isUpperAF (c : code_unit) : bool := (65 <=? c) && (c <=? 70).

(** [A-F] under the [i] flag: the code units whose canonical (upper-case)
    form lies in A-F. *)
Definition isLetterAF (c : code_unit) : bool :=
  isUpperAF c || ((97 <=? c) && (c <=? 102)).

(** [String.prototype.toUpperCase] on one code unit, for the Basic Latin
    letters; the source only applies it to text matched by [A-F] under the
    [i] flag. *)
Definition upperUnit (c : code_unit) : code_unit :=
  if (97 <=? c) && (c <=? 122) then c - 32 else c.

Definition toUpperCase (s : jsstring) : jsstring := map upperUnit s.

(** Longest prefix whose code units satisfy [p], and the remainder. *)
Fixpoint span (p : code_unit -> bool) (s : jsstring) : jsstring * jsstring :=
  match s with
  | c :: r => if p c then let '(a, b) := span p r in (c :: a, b) else ([], s)
  | [] => ([], [])
  end.

Definition trimStart (s : jsstring) : jsstring := snd (span isWhiteSpace s).
Definition trim (s : jsstring) : jsstring := rev (trimStart (rev (trimStart s))).

(** [text.replace(NBSP, SPACE)]: every U+00A0 becomes U+0020. *)
Definition replaceNbsp (s : jsstring) : jsstring :=
  map (fun c => if c =? 0xA0 then 32 else c) s.

(** [normalizeText] (the argument is always a string here). *)
Definition normalizeText (text : jsstring) : jsstring := trim (replaceNbsp text).

(** [Number(digits)] for a string of decimal digits: the natural number the
    digits denote. The double of the source holds exactly this value when it
    is below 2^53; from there on [Number] rounds, so what is stated of the
    value of a question number is stated below that bound
    ([exact_question_number]). *)
Definition Number_of_digits (ds : jsstring) : N :=
  fold_left (fun acc d => 10 * acc + (d - 48)) ds 0.

(** ** Regular expressions

    The patterns of the source are sequences of character classes, each
    matched once or under a greedy quantifier, between the two anchors. They
    are written with the combinators below, which follow the backtracking
    semantics of ECMAScript: a matcher reads a prefix of the input and hands
    what it read and the rest to its continuation; a greedy quantifier first
    tries to read one more code unit and falls back to the continuation when
    that attempt fails as a whole. The result is the capture groups. *)

Definition matcher (R : Type) : Type := jsstring -> option R.

(** One code unit of the class [p]. *)
Definition one {R} (p : code_unit -> bool) (k : code_unit -> matcher R) : matcher R :=
  fun s =>
    match s with
    | c :: r => if p c then k c r else None
    | [] => None
    end.

(** The class [p] under the greedy star; [k] receives the text matched. *)
Fixpoint star {R} (p : code_unit -> bool) (k : jsstring -> matcher R) (s : jsstring)
    : option R :=
  match s with
  | c :: r =>
      if p c then
        match star p (fun m => k (c :: m)) r with
        | Some res => Some res
        | None => k [] s
        end
      else k [] s
  | [] => k [] []
  end.

(** The class [p] under the greedy plus. *)
Definition plus {R} (p : code_unit -> bool) (k : jsstring -> matcher R) : matcher R :=
  one p (fun c => star p (fun m => k (c :: m))).

(** The anchor at the end of the input (no [m] flag). *)
Definition end_of_input {R} (res : R) : matcher R :=
  fun s =>
    match s with
    | [] => Some res
    | _ :: _ => None
    end.

(** A literal of Basic Latin letters under the [i] flag: a code unit matches
    a letter when both have the same upper-case form (no code unit of 128 or
    more is canonicalised to a Basic Latin letter). *)
Fixpoint literal_ci {R} (lit : jsstring) (k : matcher R) : matcher R :=
  match lit with
  | [] => k
  | l :: lit' => one (fun c => upperUnit c =? upperUnit l) (fun _ => literal_ci lit' k)
  end.

(** The dot: any code unit but a line terminator (no [s] flag). *)
Definition dot (c : code_unit) : bool := negb (isLineTerminator c).

(** The class of a colon or a white space character. *)
Definition colonOrSpace (c : code_unit) : bool := (c =? 58) || isWhiteSpace c.

(** [QUESTION_RE]: digits (group 1), a separator, white space, and any text
    up to the end of the input (group 2). *)
Definition QUESTION_RE : matcher (jsstring * jsstring) :=
  plus isDigit (fun digits =>
  one isSeparator (fun _ =>
  star isWhiteSpace (fun _ =>
  star dot (fun rest =>
  end_of_input (digits, rest))))).

(** [OPTION_RE]: a letter of A-F in either case (group 1), a separator, white
    space, and any text up to the end of the input (group 2). *)
Definition OPTION_RE : matcher (jsstring * jsstring) :=
  one isLetterAF (fun letter =>
  one isSeparator (fun _ =>
  star isWhiteSpace (fun _ =>
  star dot (fun rest =>
  end_of_input ([letter], rest))))).

(** [ANSWER_RE]: the word Answer in any case, colons or white space, and
    letters of A-F in either case (group 1) up to the end of the input. *)
Definition ANSWER_RE : matcher jsstring :=
  literal_ci (js "Answer") (
  plus colonOrSpace (fun _ =>
  plus isLetterAF (fun letters =>
  end_of_input letters))).

(** *** The greedy reading

    In each pattern a quantified class is disjoint from what may follow it,
    or the failure of what follows extends to every shorter repetition, so
    the first attempt of each quantifier decides the match. The functions
    below compute that attempt directly; they are proved equal to the
    patterns further down. *)

(** White space skipped, the rest returned if it is free of line
    terminators. *)
Definition match_rest (s : jsstring) : option jsstring :=
  let r := trimStart s in
  if forallb dot r then Some r else None.

Definition match_QUESTION_RE (s : jsstring) : option (jsstring * jsstring) :=
  match span isDigit s with
  | (d :: ds, c :: r) =>
      if isSeparator c then
        match match_rest r with
        | Some rest => Some (d :: ds, rest)
        | None => None
        end
      else None
  | _ => None
  end.

Definition match_OPTION_RE (s : jsstring) : option (jsstring * jsstring) :=
  match s with
  | l :: c :: r =>
      if isLetterAF l && isSeparator c then
        match match_rest r with
        | Some rest => Some ([l], rest)
        | None => None
        end
      else None
  | _ => None
  end.

Fixpoint match_literal_ci (lit s : jsstring) : option jsstring :=
  match lit, s with
  | [], _ => Some s
  | l :: lit', c :: s' =>
      if upperUnit c =? upperUnit l then match_literal_ci lit' s'
      else None
  | _ :: _, [] => None
  end.

Definition match_ANSWER_RE (s : jsstring) : option jsstring :=
  match match_literal_ci (js "Answer") s with
  | Some r =>
      match span colonOrSpace r with
      | (_ :: _, r') =>
          match span isLetterAF r' with
          | (l :: ls, []) => Some (l :: ls)
          | _ => None
          end
      | _ => None
      end
  | None => None
  end.

(** ** Objects as ordered maps *)

Definition obj (V : Type) := list (jsstring * V).

Fixpoint obj_get {V} (o : obj V) (k : jsstring) : option V :=
  match o with
  | [] => None
  | (k', v) :: o' => if jsstring_eqb k' k then Some v else obj_get o' k
  end.

(** [o[k] = v]: an existing property keeps its position. *)
Fixpoint obj_set {V} (o : obj V) (k : jsstring) (v : V) : obj V :=
  match o with
  | [] => [(k, v)]
  | (k', v') :: o' =>
      if jsstring_eqb k' k then (k, v) :: o' else (k', v') :: obj_set o' k v
  end.

Definition obj_keys {V} (o : obj V) : list jsstring := map fst o.

(** [s.split("")], [list.join("")] and [[...list].sort()] on strings: the
    default comparison is lexicographic on code units, and equal strings are
    identical, so any sorting algorithm computes the same array. *)
Definition split_units (s : jsstring) : list jsstring := map (fun c => [c]) s.

Definition join (l : list jsstring) : jsstring := concat l.

Fixpoint jsstring_leb (a b : jsstring) : bool :=
  match a, b with
  | [], _ => true
  | _ :: _, [] => false
  | x :: a', y :: b' => if x <? y then true else if y <? x then false else jsstring_leb a' b'
  end.

Fixpoint insert_sorted {A} (leb : A -> A -> bool) (x : A) (l : list A) : list A :=
  match l with
  | [] => [x]
  | y :: r => if leb x y then x :: l else y :: insert_sorted leb x r
  end.

(** Stable insertion sort: an element is placed before the first later element
    that is not smaller. *)
Definition sort_by {A} (leb : A -> A -> bool) (l : list A) : list A :=
  fold_right (insert_sorted leb) [] l.

(** [sortLetters] *)
Definition sortLetters (l : list jsstring) : list jsstring := sort_by jsstring_leb l.

(** ** The bank parser *)

Record block := { blk_text : jsstring; blk_images : list jsstring }.

Record question := {
  number : N;
  text : jsstring;
  options : obj jsstring;
  answer : jsstring;
  images : list jsstring
}.

(** [appendUniqueImages(target, images)] *)
Definition appendUniqueImages (target imgs : list jsstring) : list jsstring :=
  fold_left
    (fun tgt src =>
       if negb (jsstring_eqb src []) && negb (existsb (jsstring_eqb src) tgt)
       then tgt ++ [src] else tgt)
    imgs target.

Module Parser.

(** The accumulators of [parseQuestionsFromHtml]; [None] is [null]. *)
Record state := {
  questions : list question;
  currentText : jsstring;
  currentOptions : obj jsstring;
  currentImages : list jsstring;
  currentNumber : option N;
  currentAnswer : option jsstring
}.

Definition init : state :=
  {| questions := []; currentText := []; currentOptions := [];
     currentImages := []; currentNumber := None; currentAnswer := None |}.

(** [flushCurrentQuestion]: the guard is [currentNumber !== null], a
    non-empty key list and a truthy (non-empty) [currentAnswer]. *)
Definition flushCurrentQuestion (p : state) : state :=
  match currentNumber p, currentAnswer p with
  | Some n, Some (a :: a') =>
      if negb (Nat.eqb (length (obj_keys (currentOptions p))) 0) then
        {| questions := questions p ++
             [{| number := n;
                 text := trim (currentText p);
                 options := currentOptions p;
                 answer := join (sortLetters (split_units (toUpperCase (a :: a'))));
                 images := currentImages p |}];
           currentText := currentText p;
           currentOptions := currentOptions p;
           currentImages := currentImages p;
           currentNumber := currentNumber p;
           currentAnswer := currentAnswer p |}
      else p
  | _, _ => p
  end.

(** The body of the loop over the blocks. *)
Definition parse_block (p : state) (b : block) : state :=
  let text := normalizeText (blk_text b) in
  let images := blk_images b in
  match QUESTION_RE text with
  | Some (digits, rest) =>
      let p := flushCurrentQuestion p in
      {| questions := questions p;
         currentText := rest;
         currentOptions := [];
         currentImages := appendUniqueImages [] images;
         currentNumber := Some (Number_of_digits digits);
         currentAnswer := None |}
  | None =>
      match OPTION_RE text with
      | Some (letter, rest) =>
          {| questions := questions p;
             currentText := currentText p;
             currentOptions := obj_set (currentOptions p) (toUpperCase letter) rest;
             currentImages := appendUniqueImages (currentImages p) images;
             currentNumber := currentNumber p;
             currentAnswer := currentAnswer p |}
      | None =>
          match ANSWER_RE text with
          | Some letters =>
              {| questions := questions p;
                 currentText := currentText p;
                 currentOptions := currentOptions p;
                 currentImages := currentImages p;
                 currentNumber := currentNumber p;
                 currentAnswer := Some (toUpperCase letters) |}
          | None =>
              match currentNumber p with
              | Some _ =>
                  {| questions := questions p;
                     currentText :=
                       if negb (jsstring_eqb text [])
                          && Nat.eqb (length (obj_keys (currentOptions p))) 0
                       then
                         match currentText p with
                         | [] => text
                         | _ :: _ => currentText p ++ 10 :: text
                         end
                       else currentText p;
                     currentOptions := currentOptions p;
                     currentImages := appendUniqueImages (currentImages p) images;
                     currentNumber := currentNumber p;
                     currentAnswer := currentAnswer p |}
              | None => p
              end
          end
      end
  end.

End Parser.

(** [parseQuestionsFromHtml(html)], as a function of the block list
    [extractBlocksFromHtml(html)]. *)
Definition parseQuestionsFromHtml (blocks : list block) : list question :=
  Parser.questions
    (Parser.flushCurrentQuestion (fold_left Parser.parse_block blocks Parser.init)).

Definition textBlock (s : string) : block := {| blk_text := js s; blk_images := [] |}.

(** ** The random source *)

(** A value returned by [Math.random]: a number in the half-open unit
    interval. The double is taken as the rational it denotes. *)
Record draw := {
  draw_value : Q;
  draw_range : (0 <= draw_value)%Q /\ (draw_value < 1)%Q
}.

(** A computation that calls [Math.random]: it reads the stream of draws from
    the position it is given and returns the position it reached. *)
Definition Rand (A : Type) : Type := (nat -> draw) -> nat -> A * nat.

Definition ret {A} (a : A) : Rand A := fun _ n => (a, n).

Definition bind {A B} (c : Rand A) (k : A -> Rand B) : Rand B :=
  fun rnd n => let '(a, n') := c rnd n in k a rnd n'.

Notation "'let*' x ':=' c 'in' k" := (bind c (fun x => k))
  (at level 10, x name, c at level 100, k at level 200).

Definition Math_random : Rand draw := fun rnd n => (rnd n, S n).

(** [array.map(f)] for an [f] that draws. *)
Fixpoint mapM {A B} (f : A -> Rand B) (l : list A) : Rand (list B) :=
  match l with
  | [] => ret []
  | a :: r => let* b := f a in let* bs := mapM f r in ret (b :: bs)
  end.

(** [Math.floor(r * (i + 1))] *)
Definition random_index (r : draw) (i : nat) : nat :=
  Z.to_nat (Qfloor (draw_value r * inject_Z (Z.of_nat (i + 1)))).

(** [[copy[i], copy[j]] = [copy[j], copy[i]]]. Both indices are within the
    array whenever the loop of [shuffleArray] runs. *)
Definition swap {A} (copy : list A) (i j : nat) : list A :=
  match copy !! i, copy !! j with
  | Some x, Some y => <[j:=x]> (<[i:=y]> copy)
  | _, _ => copy
  end.

(** The loop of [shuffleArray], from index [i] down to 1. *)
Fixpoint shuffle_from {A} (i : nat) (copy : list A) : Rand (list A) :=
  match i with
  | O => ret copy
  | S i' =>
      let* r := Math_random in
      shuffle_from i' (swap copy i (random_index r i))
  end.

(** [shuffleArray] *)
Definition shuffleArray {A} (array : list A) : Rand (list A) :=
  shuffle_from (length array - 1) array.

(** ** Preparation of a question *)

Definition LETTERS : list jsstring :=
  [js "A"; js "B"; js "C"; js "D"; js "E"; js "F"].

(** A value used as a property name: [undefined] becomes the word. *)
Definition property_name (k : option jsstring) : jsstring :=
  match k with
  | Some s => s
  | None => js "undefined"
  end.

(** The three objects filled by the [forEach] of [prepareQuestion]. A value of
    [reverseMapping] is [None] when the letter stored is [undefined]. *)
Record mappings := {
  m_shuffledOptions : obj jsstring;
  m_optionMapping : obj jsstring;
  m_reverseMapping : obj (option jsstring)
}.

Definition assign_letter (newLetters : list jsstring) (m : mappings)
    (index : nat) (item : jsstring * jsstring) : mappings :=
  let '(originalLetter, optionText) := item in
  let newLetter := newLetters !! index in
  {| m_shuffledOptions := obj_set (m_shuffledOptions m) (property_name newLetter) optionText;
     m_optionMapping := obj_set (m_optionMapping m) (property_name newLetter) originalLetter;
     m_reverseMapping := obj_set (m_reverseMapping m) originalLetter newLetter |}.

(** [shuffledItems.forEach(...)], from position [index] on. *)
Fixpoint assign_letters (newLetters : list jsstring) (items : list (jsstring * jsstring))
    (index : nat) (m : mappings) : mappings :=
  match items with
  | [] => m
  | item :: rest =>
      assign_letters newLetters rest (S index) (assign_letter newLetters m index item)
  end.

(** [reverseMapping[letter]] as a value: [None] is [undefined]. *)
Definition lookup_reverse (reverseMapping : obj (option jsstring)) (letter : jsstring)
    : option jsstring :=
  match obj_get reverseMapping letter with
  | Some v => v
  | None => None
  end.

(** [filter(Boolean)] on values that are strings or [undefined]. *)
Fixpoint filter_Boolean (l : list (option jsstring)) : list jsstring :=
  match l with
  | [] => []
  | Some (c :: s) :: r => (c :: s) :: filter_Boolean r
  | _ :: r => filter_Boolean r
  end.

(** A prepared question: [source] holds the fields copied from the question
    by the spread, the others are the five fields [prepareQuestion] adds. *)
Record prepared := {
  source : question;
  isMultipleChoice : bool;
  shuffledOptions : obj jsstring;
  optionMapping : obj jsstring;
  reverseMapping : obj (option jsstring);
  shuffledAnswer : jsstring
}.

(** [prepareQuestion] *)
Definition prepareQuestion (q : question) : Rand prepared :=
  let optionItems := options q in
  let* shuffledItems := shuffleArray optionItems in
  let newLetters := take (length shuffledItems) LETTERS in
  let m := assign_letters newLetters shuffledItems 0
             {| m_shuffledOptions := []; m_optionMapping := []; m_reverseMapping := [] |} in
  let shuffledAnswer :=
    join (sortLetters
            (filter_Boolean
               (map (lookup_reverse (m_reverseMapping m)) (split_units (answer q))))) in
  ret {| source := q;
         isMultipleChoice := Nat.ltb 1 (length (answer q));
         shuffledOptions := m_shuffledOptions m;
         optionMapping := m_optionMapping m;
         reverseMapping := m_reverseMapping m;
         shuffledAnswer := shuffledAnswer |}.

(** [sampleQuestions] *)
Definition sampleQuestions (questions : list question) (count : Z) : Rand (list question) :=
  let* shuffled := shuffleArray questions in
  ret (take (Z.to_nat count) shuffled).

(** ** Run configuration and selection *)

Inductive mode := ModeRandom | ModeSequential.

(** The numeric settings hold integers (the data model's positive integers;
    the code re-clamps them, so zero and negative values are allowed). *)
Record settings := {
  s_mode : mode;
  numQuestions : Z;
  startQuestion : Z
}.

(** [clamp] *)
Definition clamp (num min max : Z) : Z := Z.min max (Z.max min num).

(** [Number(v) || 1] for an integer [v]. *)
Definition or_one (v : Z) : Z := if (v =? 0)%Z then 1%Z else v.

(** [[...questions].sort((a, b) => a.number - b.number)]; the sort is
    stable. *)
Definition sortedQuestions (questions : list question) : list question :=
  sort_by (fun a b => number a <=? number b) questions.

(** [maxQuestionNumber] *)
Definition maxQuestionNumber (questions : list question) : N :=
  match last (sortedQuestions questions) with
  | Some q => number q
  | None => 0
  end.

(** The search loop shared by [startQuiz] and [computeSequentialMaxCount]:
    the first index from [i] on whose number reaches [start], and 0 when the
    loop ends without a [break]. *)
Fixpoint find_startIdx (sorted : list question) (start : Z) (i : nat) : nat :=
  match sorted with
  | [] => 0
  | q :: rest =>
      if (start <=? Z.of_N (number q))%Z then i else find_startIdx rest start (S i)
  end.

(** [computeSequentialMaxCount] *)
Definition computeSequentialMaxCount (sorted : list question) (startNumber : Z) : Z :=
  match sorted with
  | [] => 1%Z
  | _ :: _ =>
      let startIdx := find_startIdx sorted startNumber 0 in
      Z.max 1 (Z.of_nat (length sorted) - Z.of_nat startIdx)
  end.

(** The constant [startQuestion] of [startQuiz]: the setting after
    [Number(...) || 1] and the clamp to [1, max(1, maxQuestionNumber)]. *)
Definition effective_startQuestion (questions : list question) (s : settings) : Z :=
  clamp (or_one (startQuestion s)) 1 (Z.max 1 (Z.of_N (maxQuestionNumber questions))).

(** The sequential branch of [startQuiz]. *)
Definition select_sequential (questions : list question) (s : settings) : list question :=
  let sorted := sortedQuestions questions in
  let startIdx := find_startIdx sorted (effective_startQuestion questions s) 0 in
  let maxCount := Z.max 1 (Z.of_nat (length sorted) - Z.of_nat startIdx) in
  let count := clamp (or_one (numQuestions s)) 1 maxCount in
  take (Z.to_nat count) (drop startIdx sorted).

(** The random branch of [startQuiz]. *)
Definition select_random (questions : list question) (s : settings) : Rand (list question) :=
  let count := clamp (or_one (numQuestions s)) 1 (Z.of_nat (length questions)) in
  sampleQuestions questions count.

Definition selectQuestions (questions : list question) (s : settings) : Rand (list question) :=
  match s_mode s with
  | ModeSequential => ret (select_sequential questions s)
  | ModeRandom => select_random questions s
  end.

(** ** The quiz state *)

Record answerRecord := {
  selected : list jsstring;
  isCorrect : bool;
  userAnswerShuffled : jsstring;
  userAnswerOriginal : jsstring
}.

Record wrongAnswer := {
  original_number : N;
  question_text : jsstring;
  wa_options : obj jsstring;
  correct_answer : jsstring;
  user_answer : jsstring;
  is_multiple_choice : bool;
  timestamp : jsstring
}.

(** The values [warning] takes: the empty string and the two validation
    messages of [submitAnswer], the second with the two counts it prints. *)
Inductive warningText :=
  | NoWarning
  | SelectAnswerFirst
  | WrongSelectionCount (required chosen : nat).

(** The state of [App] that the quiz logic reads and writes, with the pending
    auto-advance timer ([Some len] when a timer is scheduled whose callback
    captured a run of [len] questions) and the number of calls of
    [Math.random] made so far. *)
Record app := {
  questions : list question;
  quizQuestions : list prepared;
  currentIndex : nat;
  score : nat;
  answersState : gmap nat answerRecord;
  draftSelections : gmap nat (list jsstring);
  warning : warningText;
  wrongAnswers : list wrongAnswer;
  appSettings : settings;
  showSettings : bool;
  autoNextTimer : option nat;
  randomCalls : nat
}.

(** The state after the first render, with the log read from storage. *)
Definition initial (stored : list wrongAnswer) : app :=
  {| questions := []; quizQuestions := []; currentIndex := 0; score := 0;
     answersState := ∅; draftSelections := ∅; warning := NoWarning;
     wrongAnswers := stored;
     appSettings := {| s_mode := ModeRandom; numQuestions := 100; startQuestion := 1 |};
     showSettings := false; autoNextTimer := None; randomCalls := 0 |}.

(** [resetRunState] *)
Definition resetRunState (st : app) : app :=
  {| questions := questions st; quizQuestions := quizQuestions st;
     currentIndex := 0; score := 0; answersState := ∅; draftSelections := ∅;
     warning := NoWarning;
     wrongAnswers := wrongAnswers st; appSettings := appSettings st;
     showSettings := showSettings st; autoNextTimer := autoNextTimer st;
     randomCalls := randomCalls st |}.

(** [prev.findIndex((item) => item.original_number === n)] *)
Fixpoint findIndex_number (prev : list wrongAnswer) (n : N) (i : nat) : option nat :=
  match prev with
  | [] => None
  | item :: rest =>
      if original_number item =? n then Some i else findIndex_number rest n (S i)
  end.

(** The updater passed to [setWrongAnswers] in [upsertWrongAnswer]. *)
Definition upsert (prev : list wrongAnswer) (record : wrongAnswer) : list wrongAnswer :=
  match findIndex_number prev (original_number record) 0 with
  | Some index => <[index := record]> prev
  | None => prev ++ [record]
  end.

(** [upsertWrongAnswer(question, userAnswerOriginal)]; [now] is
    [new Date().toISOString()]. *)
Definition upsertWrongAnswer (now : jsstring) (question : prepared)
    (userAnswerOriginal : jsstring) (prev : list wrongAnswer) : list wrongAnswer :=
  upsert prev
    {| original_number := number (source question);
       question_text := text (source question);
       wa_options := options (source question);
       correct_answer := answer (source question);
       user_answer := userAnswerOriginal;
       is_multiple_choice := isMultipleChoice question;
       timestamp := now |}.

(** [currentQuestion.optionMapping[letter] || letter] *)
Definition toOriginal (q : prepared) (letter : jsstring) : jsstring :=
  match obj_get (optionMapping q) letter with
  | Some (c :: s) => c :: s
  | _ => letter
  end.

(** [startQuiz] *)
Definition startQuiz (rnd : nat -> draw) (st : app) : app :=
  match questions st with
  | [] => st
  | _ :: _ =>
      let '(prepared, n) :=
        (let* selectedQuestions := selectQuestions (questions st) (appSettings st) in
         mapM prepareQuestion selectedQuestions) rnd (randomCalls st) in
      let st' := resetRunState st in
      {| questions := questions st'; quizQuestions := prepared;
         currentIndex := currentIndex st'; score := score st';
         answersState := answersState st'; draftSelections := draftSelections st';
         warning := warning st'; wrongAnswers := wrongAnswers st';
         appSettings := appSettings st'; showSettings := false;
         autoNextTimer := autoNextTimer st'; randomCalls := n |}
  end.

(** [Array.from(new Set(l))]: first occurrences, in order. *)
Fixpoint dedupe (seen l : list jsstring) : list jsstring :=
  match l with
  | [] => []
  | x :: r =>
      if existsb (jsstring_eqb x) seen then dedupe seen r
      else x :: dedupe (x :: seen) r
  end.

(** [changeOption(letter, checked)] *)
Definition changeOption (letter : jsstring) (checked : bool) (st : app) : app :=
  match quizQuestions st !! currentIndex st, answersState st !! currentIndex st with
  | Some currentQuestion, None =>
      let existing := default [] (draftSelections st !! currentIndex st) in
      let next :=
        if isMultipleChoice currentQuestion then
          if checked then sortLetters (dedupe [] (existing ++ [letter]))
          else filter (fun item => item <> letter) existing
        else if checked then [letter] else [] in
      {| questions := questions st; quizQuestions := quizQuestions st;
         currentIndex := currentIndex st; score := score st;
         answersState := answersState st;
         draftSelections := <[currentIndex st := next]> (draftSelections st);
         warning := NoWarning;
         wrongAnswers := wrongAnswers st; appSettings := appSettings st;
         showSettings := showSettings st; autoNextTimer := autoNextTimer st;
         randomCalls := randomCalls st |}
  | _, _ => st
  end.

Definition set_warning (w : warningText) (st : app) : app :=
  {| questions := questions st; quizQuestions := quizQuestions st;
     currentIndex := currentIndex st; score := score st;
     answersState := answersState st; draftSelections := draftSelections st;
     warning := w;
     wrongAnswers := wrongAnswers st; appSettings := appSettings st;
     showSettings := showSettings st; autoNextTimer := autoNextTimer st;
     randomCalls := randomCalls st |}.

(** [submitAnswer]; [now] is the time stamp a miss would be logged with. *)
Definition submitAnswer (now : jsstring) (st : app) : app :=
  match quizQuestions st !! currentIndex st, answersState st !! currentIndex st with
  | Some currentQuestion, None =>
      let selected := sortLetters (default [] (draftSelections st !! currentIndex st)) in
      if Nat.eqb (length selected) 0 then set_warning SelectAnswerFirst st
      else if isMultipleChoice currentQuestion
              && negb (Nat.eqb (length selected) (length (answer (source currentQuestion))))
      then set_warning
             (WrongSelectionCount (length (answer (source currentQuestion))) (length selected)) st
      else
        let userAnswerShuffled := join selected in
        let userAnswerOriginal := join (sortLetters (map (toOriginal currentQuestion) selected)) in
        let isCorrect := jsstring_eqb userAnswerShuffled (shuffledAnswer currentQuestion) in
        {| questions := questions st; quizQuestions := quizQuestions st;
           currentIndex := currentIndex st;
           score := if isCorrect then score st + 1 else score st;
           answersState :=
             <[currentIndex st :=
                 {| selected := selected; isCorrect := isCorrect;
                    userAnswerShuffled := userAnswerShuffled;
                    userAnswerOriginal := userAnswerOriginal |}]> (answersState st);
           draftSelections := draftSelections st;
           warning := NoWarning;
           wrongAnswers :=
             if isCorrect then wrongAnswers st
             else upsertWrongAnswer now currentQuestion userAnswerOriginal (wrongAnswers st);
           appSettings := appSettings st; showSettings := showSettings st;
           autoNextTimer :=
             if isCorrect && Nat.ltb (currentIndex st) (length (quizQuestions st) - 1)
             then Some (length (quizQuestions st)) else autoNextTimer st;
           randomCalls := randomCalls st |}
  | _, _ => st
  end.

Definition set_currentIndex (i : nat) (st : app) : app :=
  {| questions := questions st; quizQuestions := quizQuestions st;
     currentIndex := i; score := score st;
     answersState := answersState st; draftSelections := draftSelections st;
     warning := warning st;
     wrongAnswers := wrongAnswers st; appSettings := appSettings st;
     showSettings := showSettings st; autoNextTimer := autoNextTimer st;
     randomCalls := randomCalls st |}.

(** The question card is rendered when the run is non-empty and the current
    index denotes one of its questions. *)
Definition card_rendered (st : app) : bool :=
  bool_decide (is_Some (quizQuestions st !! currentIndex st)).

(** The button to the previous question: enabled when [currentIndex > 0]. *)
Definition previousQuestion (st : app) : app :=
  if card_rendered st && Nat.ltb 0 (currentIndex st)
  then set_warning NoWarning (set_currentIndex (Nat.max (currentIndex st - 1) 0) st)
  else st.

(** The button to the next question: enabled when
    [currentIndex < quizQuestions.length - 1]. *)
Definition nextQuestion (st : app) : app :=
  if card_rendered st && Nat.ltb (currentIndex st) (length (quizQuestions st) - 1)
  then set_warning NoWarning
         (set_currentIndex (Nat.min (currentIndex st + 1) (length (quizQuestions st) - 1)) st)
  else st.

(** The callback of the auto-advance timer: it moves to
    [min(prev + 1, len - 1)] for the run length [len] it captured. *)
Definition autoNext (st : app) : app :=
  match autoNextTimer st with
  | Some len =>
      let st' := set_currentIndex (Nat.min (currentIndex st + 1) (len - 1)) st in
      {| questions := questions st'; quizQuestions := quizQuestions st';
         currentIndex := currentIndex st'; score := score st';
         answersState := answersState st'; draftSelections := draftSelections st';
         warning := warning st'; wrongAnswers := wrongAnswers st';
         appSettings := appSettings st'; showSettings := showSettings st';
         autoNextTimer := None; randomCalls := randomCalls st' |}
  | None => st
  end.

(** The success path of [loadDocxFile] for a bank that parsed to
    [parsedQuestions]; an empty result is the error path, which leaves the
    quiz state alone. *)
Definition loadBank (parsedQuestions : list question) (st : app) : app :=
  match parsedQuestions with
  | [] => st
  | _ :: _ =>
      let st' := resetRunState st in
      {| questions := parsedQuestions; quizQuestions := [];
         currentIndex := currentIndex st'; score := score st';
         answersState := answersState st'; draftSelections := draftSelections st';
         warning := warning st'; wrongAnswers := wrongAnswers st';
         appSettings :=
           {| s_mode := ModeRandom;
              numQuestions := Z.min 100 (Z.of_nat (length parsedQuestions));
              startQuestion := 1 |};
         showSettings := true;
         autoNextTimer := autoNextTimer st'; randomCalls := randomCalls st' |}
  end.

(** Any update of the settings dialog. *)
Definition setSettings (s : settings) (st : app) : app :=
  {| questions := questions st; quizQuestions := quizQuestions st;
     currentIndex := currentIndex st; score := score st;
     answersState := answersState st; draftSelections := draftSelections st;
     warning := warning st; wrongAnswers := wrongAnswers st;
     appSettings := s; showSettings := showSettings st;
     autoNextTimer := autoNextTimer st; randomCalls := randomCalls st |}.

(** [clearWrongAnswers], once the user has confirmed. *)
Definition clearWrongAnswers (st : app) : app :=
  {| questions := questions st; quizQuestions := quizQuestions st;
     currentIndex := currentIndex st; score := score st;
     answersState := answersState st; draftSelections := draftSelections st;
     warning := warning st; wrongAnswers := [];
     appSettings := appSettings st; showSettings := showSettings st;
     autoNextTimer := autoNextTimer st; randomCalls := randomCalls st |}.

(** What can happen to the application. The first five events belong to the
    run in progress; the others start a run, replace the bank or touch state
    outside the run. *)
Inductive event :=
  | ChangeOption (letter : jsstring) (checked : bool)
  | SubmitAnswer (now : jsstring)
  | PreviousQuestion
  | NextQuestion
  | AutoNextFires
  | StartQuiz
  | LoadBank (parsedQuestions : list question)
  | SetSettings (s : settings)
  | ClearWrongAnswers.

Definition within_run (e : event) : bool :=
  match e with
  | ChangeOption _ _ | SubmitAnswer _ | PreviousQuestion | NextQuestion
  | AutoNextFires => true
  | _ => false
  end.

Definition step (rnd : nat -> draw) (st : app) (e : event) : app :=
  match e with
  | ChangeOption letter checked => changeOption letter checked st
  | SubmitAnswer now => submitAnswer now st
  | PreviousQuestion => previousQuestion st
  | NextQuestion => nextQuestion st
  | AutoNextFires => autoNext st
  | StartQuiz => startQuiz rnd st
  | LoadBank parsedQuestions => loadBank parsedQuestions st
  | SetSettings s => setSettings s st
  | ClearWrongAnswers => clearWrongAnswers st
  end.

Definition run (rnd : nat -> draw) (st : app) (events : list event) : app :=
  fold_left (step rnd) events st.

(** The number of answer records marked correct. *)
Definition correctCount (answers : gmap nat answerRecord) : nat :=
  size (filter (fun kv => isCorrect (snd kv) = true) answers).

(** ** Properties named by the specification *)

(** A question has at least one option and a non-empty answer. *)
Definition has_option_and_answer (q : question) : Prop :=
  options q <> [] /\ answer q <> [].

(** Every letter of the answer is a key of the options. *)
Definition answer_within_options (q : question) : Prop :=
  forall c, c ∈ answer q -> [c] ∈ obj_keys (options q).

(** The keys of an options object as the parser builds it: distinct letters
    of A-F. *)
Definition letter_keys {V} (o : obj V) : Prop :=
  NoDup (obj_keys o) /\ forall k, k ∈ obj_keys o -> k ∈ LETTERS.

(** The failure of a continuation extends to every shorter repetition. *)
Definition failure_extends {R} (p : code_unit -> bool) (k : jsstring -> matcher R) : Prop :=
  forall m c r, p c = true -> k (m ++ [c]) r = None -> k m (c :: r) = None.

(** What the parser guarantees of an emitted question. *)
Definition emitted_ok (q : question) : Prop :=
  has_option_and_answer q
  /\ Forall (fun c => isUpperAF c = true) (answer q)
  /\ letter_keys (options q).

(** The invariant of the scan. *)
Definition parser_ok (p : Parser.state) : Prop :=
  Forall emitted_ok (Parser.questions p)
  /\ letter_keys (Parser.currentOptions p)
  /\ forall a, Parser.currentAnswer p = Some a -> Forall (fun c => isUpperAF c = true) a.

(** The four blocks of the scenario, and the question they denote. *)
Definition scenario_blocks : list block :=
  [textBlock "1. What is 2+2?"; textBlock "A. 3"; textBlock "B. 4";
   textBlock "Answer: B"].

Definition scenario_question : question :=
  {| number := 1; text := js "What is 2+2?";
     options := [(js "A", js "3"); (js "B", js "4")];
     answer := js "B"; images := [] |}.

(** A bank whose only question names an answer letter it has no option
    for. *)
Definition stray_answer_blocks : list block :=
  [textBlock "1. Q"; textBlock "A. x"; textBlock "Answer: B"].

(** The invariant of the [forEach] of [prepareQuestion]: the shuffled options
    and the forward mapping have the same keys, the reverse mapping sends the
    original letter of every new letter back to it, and the forward mapping
    sends the new letter of every original letter back to it. *)
Definition mappings_ok (m : mappings) : Prop :=
  (forall k, k ∈ obj_keys (m_shuffledOptions m) <-> is_Some (obj_get (m_optionMapping m) k))
  /\ (forall k o, obj_get (m_optionMapping m) k = Some o ->
        obj_get (m_reverseMapping m) o = Some (Some k))
  /\ forall o v, obj_get (m_reverseMapping m) o = Some v ->
       exists k, v = Some k /\ obj_get (m_optionMapping m) k = Some o.

(** A draw in the middle of the interval, and the stream that repeats it. *)
Definition half : draw.
Proof. refine {| draw_value := 1 # 2 |}. split; [discriminate|reflexivity]. Defined.

Definition always_half : nat -> draw := fun _ => half.

(** A question's number reaches the start number. *)
Definition reaches (start : Z) (q : question) : Prop := (start <= Z.of_N (number q))%Z.

(** [idx] is the first index of [sorted] whose number reaches [start], or 0
    when no number does (the wrap to the start). *)
Definition is_startIdx (sorted : list question) (start : Z) (idx : nat) : Prop :=
  (exists q, sorted !! idx = Some q /\ reaches start q
             /\ forall j q', (j < idx)%nat -> sorted !! j = Some q' -> ~ reaches start q')
  \/ (idx = 0%nat /\ forall q, q ∈ sorted -> ~ reaches start q).

Definition ascending (a b : question) : Prop := number a <= number b.

(** A string of one code unit. *)
Definition unit_string (s : jsstring) : Prop := length s = 1%nat.

(** ** Concrete banks and states *)

(** A question whose answer AB names the letter B, for which it has no
    option. *)
Definition stray_question : question :=
  {| number := 2; text := js "Q";
     options := [(js "A", js "x"); (js "C", js "y")];
     answer := js "AB"; images := [] |}.

(** The application after loading [bank] and choosing [m] and a run of two
    questions from number 1. *)
Definition loaded (bank : list question) (m : mode) : app :=
  setSettings {| s_mode := m; numQuestions := 2; startQuestion := 1 |}
    (loadBank bank (initial [])).

(** A run on the scenario question, before any selection. *)
Definition fresh_run : app := startQuiz always_half (loaded [scenario_question] ModeRandom).

(** The same run after selecting the wrong option A and submitting. *)
Definition answered_run : app :=
  run always_half fresh_run [ChangeOption (js "A") true; SubmitAnswer (js "t0")].

Definition answered_record : answerRecord :=
  {| selected := [js "A"]; isCorrect := false;
     userAnswerShuffled := js "A"; userAnswerOriginal := js "A" |}.

(** A run on [stray_question] with both displayed options selected. *)
Definition stray_run : app :=
  run always_half (startQuiz always_half (loaded [stray_question] ModeRandom))
    [ChangeOption (js "A") true; ChangeOption (js "B") true].

Definition miss (n : N) (given : string) : wrongAnswer :=
  {| original_number := n; question_text := js "Q"; wa_options := [(js "A", js "x")];
     correct_answer := js "A"; user_answer := js given;
     is_multiple_choice := false; timestamp := js "t" |}.

(** A bank that uses the other separators, lower-case letters, a stem of
    two paragraphs and a stray line after the options. *)
Definition mixed_blocks : list block :=
  [textBlock "intro";
   {| blk_text := 51 :: 0x3001 :: js " Pick two"; blk_images := [js "i1"] |};
   {| blk_text := js "of these"; blk_images := [js "i1"; js "i2"] |};
   textBlock "a, first"; textBlock "B.second"; textBlock "note";
   textBlock "c. third"; textBlock "ANSWER : ca"].

(** ** Further properties: bank parser *)

(** A string that does not start with white space. *)
Definition starts_clean (s : jsstring) : Prop :=
  match s with
  | c :: _ => isWhiteSpace c = false
  | [] => True
  end.

(** The block is a question line: its normalised text matches
    [QUESTION_RE]. *)
Definition is_question_line (b : block) : bool :=
  match QUESTION_RE (normalizeText (blk_text b)) with
  | Some _ => true
  | None => false
  end.

(** The number written on the block, when it is a question line, is below
    2^53, where every natural number is a double and [Number] returns the
    number written. A block that is no question line passes. *)
Definition exact_question_number (b : block) : bool :=
  match QUESTION_RE (normalizeText (blk_text b)) with
  | Some (digits, _) => Number_of_digits digits <? 2 ^ 53
  | None => true
  end.

(** One when a question is in progress, zero otherwise. *)
Definition in_progress (p : Parser.state) : nat :=
  match Parser.currentNumber p with
  | Some _ => 1%nat
  | None => 0%nat
  end.

(** The scan state with [qs] emitted before its own questions. *)
Definition emitted_before (qs : list question) (p : Parser.state) : Parser.state :=
  {| Parser.questions := qs ++ Parser.questions p;
     Parser.currentText := Parser.currentText p;
     Parser.currentOptions := Parser.currentOptions p;
     Parser.currentImages := Parser.currentImages p;
     Parser.currentNumber := Parser.currentNumber p;
     Parser.currentAnswer := Parser.currentAnswer p |}.

(** An image list without repetition or empty reference, all of whose
    references satisfy [P]. *)
Definition images_ok (P : jsstring -> Prop) (imgs : list jsstring) : Prop :=
  NoDup imgs /\ Forall (fun src => src <> [] /\ P src) imgs.

(** ** The converted document

    [extractBlocksFromHtml] walks the document that [DOMParser] builds from
    the converted HTML. The model starts from that document: its argument is
    the list of child nodes of the body. *)

(** A node: a text node, an element with its lower-cased tag name, its [src]
    attribute ([None] when it has none) and its child nodes, or a node of
    another kind (a comment), which the walk skips and whose text is not part
    of [textContent]. *)
#[warnings="-register-all"]
Inductive node :=
  | TextNode (data : jsstring)
  | Element (tag : jsstring) (src : option jsstring) (childNodes : list node)
  | OtherNode.

(** [node.textContent] *)
Fixpoint textContent (n : node) : jsstring :=
  match n with
  | TextNode data => data
  | Element _ _ childNodes => concat (map textContent childNodes)
  | OtherNode => []
  end.

(** [getAttribute("src") || ""] when it is truthy: the non-empty source. *)
Definition truthy_src (src : option jsstring) : list jsstring :=
  match src with
  | Some (c :: s) => [c :: s]
  | _ => []
  end.

(** The truthy sources of the [img] elements of a subtree, in document
    order. *)
Fixpoint img_sources (n : node) : list jsstring :=
  match n with
  | Element tag src childNodes =>
      (if jsstring_eqb tag (js "img") then truthy_src src else [])
      ++ flat_map img_sources childNodes
  | _ => []
  end.

Definition blockTags : list jsstring :=
  [js "p"; js "li"; js "h1"; js "h2"; js "h3"; js "h4"; js "h5"; js "h6"].

Definition is_element (n : node) : bool :=
  match n with
  | Element _ _ _ => true
  | _ => false
  end.

(** A block with text only, when the text is not empty. *)
Definition text_block (text : jsstring) : list block :=
  if jsstring_eqb text [] then [] else [{| blk_text := text; blk_images := [] |}].

(** [walkElement]: the blocks it pushes. Its argument is an element;
    [element.children] holds the child elements only, so the other child
    nodes contribute nothing to the final loop. *)
Fixpoint walkElement (element : node) : list block :=
  match element with
  | Element tag src childNodes =>
      if jsstring_eqb tag (js "img") then
        match truthy_src src with
        | s :: _ => [{| blk_text := []; blk_images := [s] |}]
        | [] => []
        end
      else if existsb (jsstring_eqb tag) blockTags then
        let text := normalizeText (concat (map textContent childNodes)) in
        let images := flat_map img_sources childNodes in
        if negb (jsstring_eqb text []) || Nat.ltb 0 (length images)
        then [{| blk_text := text; blk_images := images |}]
        else []
      else if forallb (fun n => negb (is_element n)) childNodes then
        text_block (normalizeText (concat (map textContent childNodes)))
      else flat_map walkElement childNodes
  | _ => []
  end.

(** The body of the loop over [doc.body.childNodes]. *)
Definition extract_node (n : node) : list block :=
  match n with
  | TextNode data => text_block (normalizeText data)
  | Element _ _ _ => walkElement n
  | OtherNode => []
  end.

(** [extractBlocksFromHtml], given the child nodes of the body. *)
Definition extractBlocksFromHtml (body : list node) : list block :=
  flat_map extract_node body.

(** What every extracted block satisfies. *)
Definition block_ok (b : block) : Prop :=
  (blk_text b <> [] \/ blk_images b <> [])
  /\ normalizeText (blk_text b) = blk_text b
  /\ Forall (fun src => src <> []) (blk_images b).

(** A paragraph of plain text. *)
Definition paragraph (s : string) : node := Element (js "p") None [TextNode (js s)].

(** A run on the scenario question with its right option B selected. *)
Definition right_draft_run : app :=
  run always_half fresh_run [ChangeOption (js "B") true].

(** ** The settings dialog *)

(** [safeTotal] of [SettingsModal]. *)
Definition safeTotal (st : app) : Z := Z.max 1 (Z.of_nat (length (questions st))).

(** The upper bound the dialog uses for [numQuestions] in the given mode and
    for the given start number. *)
Definition dialog_maxCount (st : app) (m : mode) (start : Z) : Z :=
  match m with
  | ModeSequential => computeSequentialMaxCount (sortedQuestions (questions st)) start
  | ModeRandom => safeTotal st
  end.

(** [updateMode] *)
Definition updateMode (m : mode) (st : app) : app :=
  let prev := appSettings st in
  let maxCount := dialog_maxCount st m (startQuestion prev) in
  setSettings
    {| s_mode := m;
       numQuestions := clamp (numQuestions prev) 1 maxCount;
       startQuestion := startQuestion prev |} st.

(** [updateNumQuestions], for a value that denotes an integer. *)
Definition updateNumQuestions (value : Z) (st : app) : app :=
  let prev := appSettings st in
  let maxCount := dialog_maxCount st (s_mode prev) (startQuestion prev) in
  setSettings
    {| s_mode := s_mode prev;
       numQuestions := clamp (or_one value) 1 maxCount;
       startQuestion := startQuestion prev |} st.

(** [updateStartQuestion], for a value that denotes an integer. *)
Definition updateStartQuestion (value : Z) (st : app) : app :=
  let prev := appSettings st in
  let nextStart :=
    clamp (or_one value) 1 (Z.max 1 (Z.of_N (maxQuestionNumber (questions st)))) in
  let maxCount := computeSequentialMaxCount (sortedQuestions (questions st)) nextStart in
  setSettings
    {| s_mode := s_mode prev;
       numQuestions := clamp (numQuestions prev) 1 maxCount;
       startQuestion := nextStart |} st.

Inductive dialog_event :=
  | UpdateMode (m : mode)
  | UpdateNumQuestions (value : Z)
  | UpdateStartQuestion (value : Z).

Definition dialog_step (st : app) (e : dialog_event) : app :=
  match e with
  | UpdateMode m => updateMode m st
  | UpdateNumQuestions value => updateNumQuestions value st
  | UpdateStartQuestion value => updateStartQuestion value st
  end.

(** The settings are within the bounds the dialog enforces. *)
Definition settings_valid (st : app) : Prop :=
  let s := appSettings st in
  (1 <= numQuestions s <= dialog_maxCount st (s_mode s) (startQuestion s))%Z
  /\ (1 <= startQuestion s <= Z.max 1 (Z.of_N (maxQuestionNumber (questions st))))%Z.

(** ** Invariants of the run *)

(** A pending timer was scheduled for a run no longer than the present
    one. *)
Definition timer_fits (st : app) : Prop :=
  forall len, autoNextTimer st = Some len -> (len <= length (quizQuestions st))%nat.

(** Every answer record belongs to a question of the run. *)
Definition answers_in_run (st : app) : Prop :=
  forall i r, answersState st !! i = Some r -> (i < length (quizQuestions st))%nat.

(** Every draft selection is in ascending order without repetition, and has
    at most one letter when its question is single choice. *)
Definition drafts_ok (st : app) : Prop :=
  forall i sel,
    draftSelections st !! i = Some sel ->
    NoDup sel
    /\ StronglySorted (fun a b => jsstring_leb a b = true) sel
    /\ forall q, quizQuestions st !! i = Some q -> isMultipleChoice q = false ->
                 (length sel <= 1)%nat.

(** A run of two questions in which the first was answered correctly, so
    that an auto-advance timer is pending, followed by the start of a run of
    one question. *)
Definition stale_timer_run : app :=
  let two :=
    run always_half (loaded [scenario_question; stray_question] ModeSequential)
      [StartQuiz; ChangeOption (js "B") true; SubmitAnswer (js "t0")] in
  run always_half two [SetSettings {| s_mode := ModeSequential; numQuestions := 1;
                                      startQuestion := 1 |};
                       StartQuiz; AutoNextFires].

#[global] Instance reaches_dec (start : Z) (q : question) : Decision (reaches start q).
Proof. unfold reaches. apply _. Defined.

(** * Theorems *)

(** ** Strings and sorting *)

(** Boolean tests on code units, read as arithmetic facts. *)
Ltac unbool :=
  repeat
    (rewrite ?andb_true_iff, ?orb_true_iff, ?negb_true_iff, ?andb_false_iff,
       ?orb_false_iff, ?negb_false_iff, ?N.leb_le, ?N.leb_gt, ?N.eqb_eq,
       ?N.eqb_neq, ?N.ltb_lt, ?N.ltb_ge in *).

Lemma span_app p s : fst (span p s) ++ snd (span p s) = s.
Proof.
  induction s as [|c r IH]; simpl; [done|].
  destruct (p c); [|done]. destruct (span p r) as [a b]; simpl in *. by rewrite IH.
Qed.

Lemma span_fst_Forall p s : Forall (fun c => p c = true) (fst (span p s)).
Proof.
  induction s as [|c r IH]; simpl; [constructor|].
  destruct (p c) eqn:E; [|constructor].
  destruct (span p r) as [a b]; simpl in *. by constructor.
Qed.

Lemma span_all p s : forallb p s = true -> span p s = (s, []).
Proof.
  induction s as [|c r IH]; simpl; [done|].
  destruct (p c); [|done]. simpl. intros H. by rewrite (IH H).
Qed.

Lemma span_not_all p s : forallb p s = false -> snd (span p s) <> [].
Proof.
  induction s as [|c r IH]; simpl; [done|].
  destruct (p c); [|done]. simpl. intros H. specialize (IH H).
  by destruct (span p r).
Qed.

Lemma jsstring_eqb_true a b : jsstring_eqb a b = true <-> a = b.
Proof. unfold jsstring_eqb. apply bool_decide_eq_true. Qed.

Lemma jsstring_eqb_false a b : jsstring_eqb a b = false <-> a <> b.
Proof. unfold jsstring_eqb. apply bool_decide_eq_false. Qed.

Lemma insert_sorted_Permutation {A} (leb : A -> A -> bool) x l :
  insert_sorted leb x l ≡ₚ x :: l.
Proof.
  induction l as [|y r IH]; simpl; [done|].
  destruct (leb x y); [done|]. rewrite IH. apply perm_swap.
Qed.

Lemma sort_by_Permutation {A} (leb : A -> A -> bool) l : sort_by leb l ≡ₚ l.
Proof.
  induction l as [|x r IH]; simpl; [done|].
  rewrite insert_sorted_Permutation. by rewrite IH.
Qed.

Lemma sort_by_length {A} (leb : A -> A -> bool) l : length (sort_by leb l) = length l.
Proof. by rewrite sort_by_Permutation. Qed.

Lemma join_Forall (P : code_unit -> Prop) l : Forall (Forall P) l -> Forall P (join l).
Proof.
  unfold join. induction 1; simpl; [constructor|]. by apply Forall_app.
Qed.

Lemma split_units_Forall (P : code_unit -> Prop) s :
  Forall P s -> Forall (Forall P) (split_units s).
Proof. unfold split_units. induction 1; simpl; constructor; auto. Qed.

(** Sorting the letters of a string keeps every property of its units and
    its length. *)
Lemma sorted_units_Forall (P : code_unit -> Prop) s :
  Forall P s -> Forall P (join (sortLetters (split_units s))).
Proof.
  intros H. apply join_Forall. unfold sortLetters.
  rewrite sort_by_Permutation. by apply split_units_Forall.
Qed.

Lemma join_units_length l :
  Forall (fun s : jsstring => length s = 1%nat) l -> length (join l) = length l.
Proof.
  unfold join. induction 1 as [|s l Hs _ IH]; simpl; [done|].
  rewrite length_app, Hs, IH. done.
Qed.

Lemma split_units_unit s : Forall (fun u : jsstring => length u = 1%nat) (split_units s).
Proof. unfold split_units. induction s; simpl; constructor; auto. Qed.

Lemma sorted_units_length s : length (join (sortLetters (split_units s))) = length s.
Proof.
  rewrite join_units_length.
  - unfold sortLetters, split_units. by rewrite sort_by_length, length_map.
  - unfold sortLetters. rewrite sort_by_Permutation. apply split_units_unit.
Qed.

Lemma upper_of_letterAF c : isLetterAF c = true -> isUpperAF (upperUnit c) = true.
Proof.
  unfold isLetterAF, isUpperAF, upperUnit. intros H.
  destruct ((97 <=? c) && (c <=? 122)) eqn:E; unbool; lia.
Qed.

Lemma upperAF_in_LETTERS c : isUpperAF c = true -> [c] ∈ LETTERS.
Proof.
  unfold isUpperAF. intros H. unbool.
  assert (c = 65 \/ c = 66 \/ c = 67 \/ c = 68 \/ c = 69 \/ c = 70) as Hc by lia.
  unfold LETTERS; cbn. rewrite !elem_of_cons.
  repeat (destruct Hc as [->|Hc]; [tauto|]). subst. tauto.
Qed.

(** ** Objects *)

Lemma obj_keys_set {V} (o : obj V) k v k' :
  k' ∈ obj_keys (obj_set o k v) <-> k' ∈ obj_keys o \/ k' = k.
Proof.
  unfold obj_keys. induction o as [|[k0 v0] o IH]; simpl.
  - rewrite list_elem_of_singleton, elem_of_nil. tauto.
  - destruct (jsstring_eqb k0 k) eqn:E; simpl.
    + apply jsstring_eqb_true in E. subst. rewrite !elem_of_cons. tauto.
    + rewrite !elem_of_cons, IH. tauto.
Qed.

Lemma obj_set_NoDup {V} (o : obj V) k v :
  NoDup (obj_keys o) -> NoDup (obj_keys (obj_set o k v)).
Proof.
  unfold obj_keys. induction o as [|[k0 v0] o IH]; simpl; intros H.
  - apply NoDup_singleton.
  - apply NoDup_cons in H as [Hn Hd].
    destruct (jsstring_eqb k0 k) eqn:E; simpl.
    + apply jsstring_eqb_true in E. subst. by apply NoDup_cons.
    + apply jsstring_eqb_false in E. apply NoDup_cons. split; [|auto].
      intros Hin. apply (obj_keys_set o k v k0) in Hin. destruct Hin; [done|congruence].
Qed.

Lemma letter_keys_nil {V} : letter_keys (@nil (jsstring * V)).
Proof.
  split; [apply NoDup_nil_2|]. intros k Hk. by apply elem_of_nil in Hk.
Qed.

Lemma letter_keys_set {V} (o : obj V) k v :
  letter_keys o -> k ∈ LETTERS -> letter_keys (obj_set o k v).
Proof.
  intros [Hd Hk] Hin. split; [by apply obj_set_NoDup|].
  intros k' H. apply obj_keys_set in H as [H| ->]; auto.
Qed.

(** ** The patterns and their greedy reading *)

Lemma failure_extends_all {R} p (k : jsstring -> matcher R) m1 m2 r :
  failure_extends p k -> Forall (fun c => p c = true) m2 ->
  k (m1 ++ m2) r = None -> k m1 (m2 ++ r) = None.
Proof.
  intros Hk. revert r. induction m2 as [|c m2 IH] using rev_ind; intros r Hp H.
  - by rewrite app_nil_r in H.
  - apply Forall_app in Hp as [Hp Hc]. apply (proj1 (Forall_singleton _ _)) in Hc.
    rewrite <- app_assoc. simpl. apply IH; [done|].
    apply Hk; [done|]. by rewrite <- app_assoc.
Qed.

(** Under that condition the star is decided by its longest repetition. *)
Lemma star_longest {R} p (k : jsstring -> matcher R) s :
  failure_extends p k -> star p k s = k (fst (span p s)) (snd (span p s)).
Proof.
  revert k. induction s as [|c r IH]; intros k Hk; simpl; [done|].
  destruct (p c) eqn:Ec; [|done].
  rewrite IH.
  - pose proof (span_app p r) as Happ. pose proof (span_fst_Forall p r) as Hall.
    destruct (span p r) as [a b]. simpl in *.
    destruct (k (c :: a) b) eqn:E; [done|]. subst r.
    apply (failure_extends_all p k [] (c :: a) b Hk); [by constructor|done].
  - intros m c' r' Hc' H. by apply (Hk (c :: m)).
Qed.

Lemma end_of_input_extends {R} p (f : jsstring -> R) :
  failure_extends p (fun m => end_of_input (f m)).
Proof. by intros m c r _ _. Qed.

Lemma star_dot_end {R} (f : jsstring -> R) s :
  star dot (fun rest => end_of_input (f rest)) s
  = if forallb dot s then Some (f s) else None.
Proof.
  rewrite star_longest by apply end_of_input_extends.
  destruct (forallb dot s) eqn:E.
  - by rewrite (span_all _ _ E).
  - apply span_not_all in E. by destruct (snd (span dot s)).
Qed.

Lemma tail_greedy {R} (f : jsstring -> R) s :
  star isWhiteSpace (fun _ => star dot (fun rest => end_of_input (f rest))) s
  = match match_rest s with
    | Some rest => Some (f rest)
    | None => None
    end.
Proof.
  rewrite star_longest.
  - rewrite star_dot_end. unfold match_rest, trimStart. by destruct (forallb dot _).
  - intros m c r _. rewrite !star_dot_end. simpl.
    destruct (forallb dot r); [done|]. by rewrite andb_false_r.
Qed.

Lemma QUESTION_RE_greedy s : QUESTION_RE s = match_QUESTION_RE s.
Proof.
  unfold QUESTION_RE, match_QUESTION_RE, plus, one.
  destruct s as [|c r]; simpl; [done|]. destruct (isDigit c) eqn:Ec; [|done].
  rewrite star_longest.
  - destruct (span isDigit r) as [a [|c' b]]; simpl; [done|].
    destruct (isSeparator c'); [|done]. apply tail_greedy.
  - intros m c' r' Hc' _. simpl.
    assert (isSeparator c' = false) as ->; [|done].
    unfold isDigit, isSeparator in *. unbool. lia.
Qed.

Lemma OPTION_RE_greedy s : OPTION_RE s = match_OPTION_RE s.
Proof.
  unfold OPTION_RE, match_OPTION_RE, one.
  destruct s as [|l [|c r]]; simpl; [done|by destruct (isLetterAF l)|].
  destruct (isLetterAF l); [|done]. simpl. destruct (isSeparator c); [|done].
  apply tail_greedy.
Qed.

Lemma literal_ci_greedy {R} lit (k : matcher R) s :
  literal_ci lit k s
  = match match_literal_ci lit s with
    | Some r => k r
    | None => None
    end.
Proof.
  revert s. induction lit as [|l lit IH]; intros s; simpl; [done|].
  unfold one. destruct s as [|c r]; [done|]. destruct (upperUnit c =? upperUnit l); [|done].
  apply IH.
Qed.

Lemma plus_greedy {R} p (k : jsstring -> matcher R) s :
  (forall m c r, p c = true -> k m (c :: r) = None) ->
  plus p k s
  = match span p s with
    | (c :: m, r) => k (c :: m) r
    | ([], _) => None
    end.
Proof.
  intros Hk. unfold plus, one. destruct s as [|c r]; simpl; [done|].
  destruct (p c); [|done]. rewrite star_longest.
  - by destruct (span p r).
  - intros m c' r' Hc' _. by apply Hk.
Qed.

Lemma ANSWER_RE_greedy s : ANSWER_RE s = match_ANSWER_RE s.
Proof.
  unfold ANSWER_RE, match_ANSWER_RE. rewrite literal_ci_greedy.
  destruct (match_literal_ci (js "Answer") s) as [r|]; [|done].
  rewrite plus_greedy.
  - destruct (span colonOrSpace r) as [[|w ws] r']; [done|].
    rewrite plus_greedy by done.
    by destruct (span isLetterAF r') as [[|l ls] [|x xs]].
  - intros m c r' Hc. unfold plus, one.
    assert (isLetterAF c = false) as ->; [|done].
    unfold colonOrSpace, isLetterAF, isUpperAF, isWhiteSpace, isLineTerminator in *.
    unbool. lia.
Qed.

(** ** The parser *)

Lemma match_ANSWER_RE_letters s l :
  match_ANSWER_RE s = Some l -> Forall (fun c => isLetterAF c = true) l.
Proof.
  unfold match_ANSWER_RE. intros H.
  destruct (match_literal_ci _ s) as [r|]; [|done].
  destruct (span _ r) as [[|w ws] r']; [done|].
  pose proof (span_fst_Forall isLetterAF r') as HF.
  destruct (span isLetterAF r') as [[|x xs] [|y ys]]; try done.
  by injection H as <-.
Qed.

Lemma match_OPTION_RE_letter s letter rest :
  match_OPTION_RE s = Some (letter, rest) ->
  exists l, letter = [l] /\ isLetterAF l = true.
Proof.
  unfold match_OPTION_RE. destruct s as [|l [|c r]]; try done.
  destruct (isLetterAF l) eqn:E; simpl; [|done].
  destruct (isSeparator c); [|done]. destruct (match_rest r); [|done].
  intros [= <- _]. eauto.
Qed.

Lemma toUpperCase_letters l :
  Forall (fun c => isLetterAF c = true) l ->
  Forall (fun c => isUpperAF c = true) (toUpperCase l).
Proof.
  unfold toUpperCase. induction 1; simpl; constructor; auto using upper_of_letterAF.
Qed.

Lemma upperAF_letterAF c : isUpperAF c = true -> isLetterAF c = true.
Proof. unfold isLetterAF. intros ->. done. Qed.

Lemma parser_ok_init : parser_ok Parser.init.
Proof.
  split; [constructor|]. split; [apply letter_keys_nil|done].
Qed.

Lemma parser_ok_flush p : parser_ok p -> parser_ok (Parser.flushCurrentQuestion p).
Proof.
  intros H. pose proof H as (Hq & Hk & Ha). unfold Parser.flushCurrentQuestion.
  destruct (Parser.currentNumber p) as [n|]; [|exact H].
  destruct (Parser.currentAnswer p) as [[|a a']|] eqn:Ea; try exact H.
  destruct (negb _) eqn:Eo; [|exact H].
  split; [|split; [exact Hk|exact Ha]]. cbn [Parser.questions].
  apply Forall_app. split; [exact Hq|]. constructor; [|constructor].
  specialize (Ha _ eq_refl).
  split; [split|split]; cbn [options answer].
  - intros E. rewrite E in Eo. discriminate.
  - intros E. apply (f_equal length) in E.
    rewrite sorted_units_length in E. unfold toUpperCase in E.
    rewrite length_map in E. discriminate.
  - apply sorted_units_Forall. apply toUpperCase_letters.
    eapply Forall_impl; [exact Ha|]. apply upperAF_letterAF.
  - exact Hk.
Qed.

Lemma parser_ok_block p b : parser_ok p -> parser_ok (Parser.parse_block p b).
Proof.
  intros H. unfold Parser.parse_block.
  rewrite QUESTION_RE_greedy, OPTION_RE_greedy, ANSWER_RE_greedy.
  destruct (match_QUESTION_RE _) as [[digits rest]|].
  { apply parser_ok_flush in H as (Hq & _ & _).
    split; [exact Hq|]. split; [apply letter_keys_nil|done]. }
  destruct (match_OPTION_RE _) as [[letter rest]|] eqn:Eo.
  { destruct H as (Hq & Hk & Ha).
    apply match_OPTION_RE_letter in Eo as (l & -> & Hl).
    split; [exact Hq|]. split; [|exact Ha]. simpl.
    apply letter_keys_set; [exact Hk|]. by apply upperAF_in_LETTERS, upper_of_letterAF. }
  destruct (match_ANSWER_RE _) as [letters|] eqn:Ea.
  { destruct H as (Hq & Hk & _). split; [exact Hq|]. split; [exact Hk|]. simpl.
    intros a [= <-]. by apply toUpperCase_letters, (match_ANSWER_RE_letters _ _ Ea). }
  destruct (Parser.currentNumber p); [|exact H].
  destruct H as (Hq & Hk & Ha). split; [exact Hq|]. split; [exact Hk|exact Ha].
Qed.

Lemma parser_ok_scan blocks p :
  parser_ok p -> parser_ok (fold_left Parser.parse_block blocks p).
Proof.
  revert p. induction blocks as [|b r IH]; simpl; intros p H; [done|].
  by apply IH, parser_ok_block.
Qed.

(** Every question the parser emits has an option and an answer, answer
    letters among A-F, and distinct option keys among A to F. *)
Lemma parseQuestionsFromHtml_emitted_ok blocks :
  Forall emitted_ok (parseQuestionsFromHtml blocks).
Proof.
  unfold parseQuestionsFromHtml.
  apply (parser_ok_flush _ (parser_ok_scan blocks _ parser_ok_init)).
Qed.

(** C1, as stated, fails: the bank [1. Q / A. x / Answer: B] is parsed to one
    question whose answer letter B is not a key of its options. *)
Lemma parsed_answer_outside_options :
  ~ (forall q, q ∈ parseQuestionsFromHtml stray_answer_blocks ->
       has_option_and_answer q /\ answer_within_options q).
Proof.
  intros H.
  destruct (H {| number := 1; text := js "Q"; options := [(js "A", js "x")];
                 answer := js "B"; images := [] |}) as [_ Hsub].
  - vm_compute. apply list_elem_of_here.
  - specialize (Hsub 66). simpl in Hsub.
    assert (66 ∈ [66]) as Hin by apply list_elem_of_here.
    apply Hsub in Hin. apply list_elem_of_singleton in Hin. discriminate.
Qed.

(** C1 (amended): for every block sequence, every question the parser emits
    has at least one option and a non-empty answer, and every letter of its
    answer is one of the upper-case letters A to F; the letter need not be a
    key of the options. *)
Theorem parsed_question_has_option_and_answer (blocks : list block) (q : question) :
  q ∈ parseQuestionsFromHtml blocks ->
  has_option_and_answer q /\ Forall (fun c => isUpperAF c = true) (answer q).
Proof.
  intros Hin.
  pose proof (parseQuestionsFromHtml_emitted_ok blocks) as H.
  rewrite Forall_forall in H. destruct (H q Hin) as (H1 & H2 & _). done.
Qed.

Lemma parsed_question_has_option_and_answer_witness :
  has_option_and_answer scenario_question
  /\ Forall (fun c => isUpperAF c = true) (answer scenario_question).
Proof.
  apply (parsed_question_has_option_and_answer scenario_blocks).
  vm_compute. apply list_elem_of_here.
Defined.

(** C7: the four-block scenario is parsed to exactly one question, number 1,
    text [What is 2+2?], options A: 3 and B: 4, answer B, and whatever the
    shuffle draws its preparation is not multiple choice. *)
Theorem scenario_parses_to_single_question :
  parseQuestionsFromHtml scenario_blocks = [scenario_question]
  /\ forall rnd n, isMultipleChoice (fst (prepareQuestion scenario_question rnd n)) = false.
Proof.
  split; [vm_compute; reflexivity|].
  intros rnd n. unfold prepareQuestion, bind.
  destruct (shuffleArray _ rnd n) as [items n']. reflexivity.
Qed.

(** ** The shuffle *)

Lemma insert_head_Permutation {A} (l : list A) j y a :
  l !! j = Some y -> y :: <[j:=a]> l ≡ₚ a :: l.
Proof.
  revert j. induction l as [|b l IH]; intros [|j] H; simpl in *; try done.
  - injection H as ->. apply perm_swap.
  - rewrite (perm_swap b y). rewrite (IH j H). apply perm_swap.
Qed.

Lemma swap_Permutation {A} (copy : list A) i j : swap copy i j ≡ₚ copy.
Proof.
  unfold swap. destruct (copy !! i) as [x|] eqn:Ei; [|done].
  destruct (copy !! j) as [y|] eqn:Ej; [|done].
  revert i j Ei Ej. induction copy as [|a l IH]; intros [|i] [|j] Ei Ej; simpl in *; try done.
  - injection Ei as ->. injection Ej as ->. done.
  - injection Ei as ->. by apply insert_head_Permutation.
  - injection Ej as ->. by apply insert_head_Permutation.
  - apply perm_skip. by apply IH.
Qed.

Lemma shuffle_from_Permutation {A} i (copy : list A) rnd n :
  fst (shuffle_from i copy rnd n) ≡ₚ copy.
Proof.
  revert copy n. induction i as [|i IH]; intros copy n; simpl; [done|].
  unfold bind, Math_random. rewrite IH. apply swap_Permutation.
Qed.

Lemma shuffleArray_Permutation {A} (array : list A) rnd n :
  fst (shuffleArray array rnd n) ≡ₚ array.
Proof. apply shuffle_from_Permutation. Qed.

(** The index drawn for position [i] lies within [0, i]. *)
Lemma random_index_le r i : (random_index r i <= i)%nat.
Proof.
  unfold random_index. destruct r as [q [H0 H1]]; cbn [draw_value].
  assert (Qfloor (q * inject_Z (Z.of_nat (i + 1))) < Z.of_nat (i + 1))%Z as H.
  { rewrite Zlt_Qlt. eapply Qle_lt_trans; [apply Qfloor_le|].
    eapply Qlt_le_trans; [apply Qmult_lt_compat_r; [|exact H1]|].
    - change 0%Q with (inject_Z 0). rewrite <- Zlt_Qlt. lia.
    - rewrite Qmult_1_l. apply Qle_refl. }
  lia.
Qed.

Lemma mapM_prepareQuestion_source l rnd n :
  map source (fst (mapM prepareQuestion l rnd n)) = l.
Proof.
  revert n. induction l as [|q l IH]; intros n; simpl; [done|].
  unfold bind at 1. unfold prepareQuestion at 1. unfold bind at 1.
  destruct (shuffleArray (options q) rnd n) as [items n1]. unfold ret at 1.
  unfold bind at 1. specialize (IH n1).
  destruct (mapM prepareQuestion l rnd n1) as [ps n2]. simpl in *. by rewrite IH.
Qed.

Lemma clamp_or_one v hi : (1 <= hi)%Z -> clamp (or_one v) 1 hi = clamp v 1 hi.
Proof. unfold clamp, or_one. destruct (Z.eqb_spec v 0); lia. Qed.

Lemma clamp_range v hi : (1 <= hi)%Z -> (1 <= clamp v 1 hi <= hi)%Z.
Proof. unfold clamp. lia. Qed.

(** The run of a quiz started in the given mode is the prepared form of the
    selected questions, in order. *)
Lemma startQuiz_sources rnd st :
  questions st <> [] ->
  map source (quizQuestions (startQuiz rnd st))
  = fst (selectQuestions (questions st) (appSettings st) rnd (randomCalls st)).
Proof.
  intros Hne. unfold startQuiz. destruct (questions st) as [|q0 qs] eqn:Eq; [done|].
  unfold bind.
  destruct (selectQuestions (q0 :: qs) (appSettings st) rnd (randomCalls st)) as [sel n1].
  pose proof (mapM_prepareQuestion_source sel rnd n1) as H.
  destruct (mapM prepareQuestion sel rnd n1) as [ps n2]. exact H.
Qed.

(** C8: in random mode, for every non-empty bank and every stream of draws,
    the run has exactly clamp(numQuestions, 1, total) questions and is a prefix
    of a permutation of the bank: the selected questions followed by some
    remainder are the bank rearranged, so each comes from the bank and none
    is taken twice. *)
Theorem random_run_is_prefix_of_permutation (rnd : nat -> draw) (st : app) :
  questions st <> [] ->
  s_mode (appSettings st) = ModeRandom ->
  let run := map source (quizQuestions (startQuiz rnd st)) in
  Z.of_nat (length run)
    = clamp (numQuestions (appSettings st)) 1 (Z.of_nat (length (questions st)))
  /\ exists rest, questions st ≡ₚ run ++ rest.
Proof.
  intros Hne Hmode run. subst run. rewrite startQuiz_sources by done.
  unfold selectQuestions. rewrite Hmode. unfold select_random, sampleQuestions, bind.
  pose proof (shuffleArray_Permutation (questions st) rnd (randomCalls st)) as HP.
  destruct (shuffleArray (questions st) rnd (randomCalls st)) as [shuffled n1].
  simpl in *.
  assert (1 <= Z.of_nat (length (questions st)))%Z as Hlen.
  { destruct (questions st); [done|]. simpl. lia. }
  rewrite clamp_or_one by done. pose proof (clamp_range (numQuestions (appSettings st)) _ Hlen).
  split.
  - rewrite length_take. apply Permutation_length in HP. lia.
  - exists (drop (Z.to_nat (clamp (numQuestions (appSettings st)) 1
                      (Z.of_nat (length (questions st))))) shuffled).
    rewrite take_drop. by symmetry.
Qed.

Lemma swap_in_range {A} (copy : list A) i j :
  (i < length copy)%nat -> (j <= i)%nat ->
  exists x y, copy !! i = Some x /\ copy !! j = Some y
              /\ swap copy i j = <[j:=x]> (<[i:=y]> copy).
Proof.
  intros Hi Hj. unfold swap.
  destruct (lookup_lt_is_Some_2 copy i Hi) as [x Hx].
  destruct (lookup_lt_is_Some_2 copy j ltac:(lia)) as [y Hy].
  exists x, y. by rewrite Hx, Hy.
Qed.

(** Every swap of the shuffle loop exchanges two elements of the array. *)
Lemma shuffle_swap_in_range {A} (copy : list A) i r :
  (i < length copy)%nat ->
  exists x y, copy !! i = Some x /\ copy !! random_index r i = Some y
              /\ swap copy i (random_index r i)
                 = <[random_index r i := x]> (<[i := y]> copy).
Proof. intros Hi. apply swap_in_range; [exact Hi|apply random_index_le]. Qed.

(** ** Preparation *)

Lemma obj_get_set {V} (o : obj V) k v k' :
  obj_get (obj_set o k v) k' = if jsstring_eqb k k' then Some v else obj_get o k'.
Proof.
  induction o as [|[k0 v0] o IH]; simpl; [done|].
  destruct (jsstring_eqb k0 k) eqn:E; simpl.
  - apply jsstring_eqb_true in E. subst. by destruct (jsstring_eqb k k').
  - rewrite IH. destruct (jsstring_eqb k0 k') eqn:E'; [|done].
    apply jsstring_eqb_true in E'. apply jsstring_eqb_false in E. subst.
    destruct (jsstring_eqb k k') eqn:E2; [|done].
    apply jsstring_eqb_true in E2. congruence.
Qed.

Lemma obj_get_keys {V} (o : obj V) k : is_Some (obj_get o k) <-> k ∈ obj_keys o.
Proof.
  unfold obj_keys. induction o as [|[k0 v0] o IH]; simpl.
  - rewrite elem_of_nil. split; [by intros [? ?]|done].
  - rewrite elem_of_cons. destruct (jsstring_eqb k0 k) eqn:E.
    + apply jsstring_eqb_true in E. subst. split; eauto.
    + apply jsstring_eqb_false in E. rewrite IH. split; [auto|]. intros [->|?]; done.
Qed.

Lemma mappings_ok_assign newLetters items index m :
  NoDup (map fst items) ->
  (forall o, o ∈ map fst items -> obj_get (m_reverseMapping m) o = None) ->
  NoDup newLetters ->
  (forall i L, (index <= i)%nat -> newLetters !! i = Some L ->
               obj_get (m_optionMapping m) L = None) ->
  (index + length items <= length newLetters)%nat ->
  mappings_ok m ->
  mappings_ok (assign_letters newLetters items index m).
Proof.
  intros Hd Hfresh Hnew. revert index m Hd Hfresh.
  induction items as [|[orig txt] items IH]; intros index m Hd Hfresh Hfree Hlen Hm;
    simpl in *; [done|].
  apply NoDup_cons in Hd as [Hnot Hd].
  destruct (lookup_lt_is_Some_2 newLetters index ltac:(lia)) as [L HL].
  apply IH; [done| | | lia |]; unfold assign_letter; rewrite HL; simpl.
  - intros o Ho. rewrite obj_get_set.
    destruct (jsstring_eqb orig o) eqn:E.
    + apply jsstring_eqb_true in E. by subst.
    + apply Hfresh. by right.
  - intros i L' Hi HL'. rewrite obj_get_set.
    destruct (jsstring_eqb L L') eqn:E; [|apply (Hfree i); [lia|done]].
    apply jsstring_eqb_true in E. subst L'.
    pose proof (NoDup_lookup _ _ _ _ Hnew HL HL'). lia.
  - destruct Hm as (Ha & Hb & Hc). split; [|split]; simpl.
    + intros k. rewrite obj_keys_set, obj_get_set, Ha.
      destruct (jsstring_eqb L k) eqn:E.
      * apply jsstring_eqb_true in E. subst. split; eauto.
      * apply jsstring_eqb_false in E. split; [intros [?|?]; [done|congruence]|auto].
    + intros k o. rewrite !obj_get_set.
      destruct (jsstring_eqb L k) eqn:E.
      * apply jsstring_eqb_true in E. subst. intros [= <-].
        by rewrite (proj2 (jsstring_eqb_true orig orig) eq_refl).
      * intros Hk. destruct (jsstring_eqb orig o) eqn:E'.
        -- apply jsstring_eqb_true in E'. subst.
           apply Hb in Hk. rewrite Hfresh in Hk by left. done.
        -- by apply Hb.
    + intros o v. rewrite obj_get_set.
      destruct (jsstring_eqb orig o) eqn:E.
      * apply jsstring_eqb_true in E. subst. intros [= <-]. exists L. split; [done|].
        rewrite obj_get_set. by rewrite (proj2 (jsstring_eqb_true L L) eq_refl).
      * intros H. apply Hc in H as (k & -> & Hk). exists k. split; [done|].
        rewrite obj_get_set. destruct (jsstring_eqb L k) eqn:E'; [|done].
        apply jsstring_eqb_true in E'. subst.
        rewrite (Hfree index k) in Hk; [done|lia|done].
Qed.

(** Every original letter that is processed gets an entry of the reverse
    mapping. *)
Lemma assign_reverse_defined newLetters items index m o :
  o ∈ map fst items \/ is_Some (obj_get (m_reverseMapping m) o) ->
  is_Some (obj_get (m_reverseMapping (assign_letters newLetters items index m)) o).
Proof.
  revert index m. induction items as [|[orig txt] items IH]; intros index m H; simpl in *.
  - destruct H as [H|H]; [by apply elem_of_nil in H|done].
  - apply IH. unfold assign_letter. simpl. rewrite obj_get_set.
    destruct (jsstring_eqb orig o) eqn:E; [right; eauto|].
    apply jsstring_eqb_false in E.
    destruct H as [H|H]; [|by right]. apply elem_of_cons in H as [->|H]; [done|by left].
Qed.

Lemma LETTERS_NoDup : NoDup LETTERS.
Proof.
  let letters := eval vm_compute in LETTERS in change LETTERS with letters.
  repeat (apply NoDup_cons; split;
          [rewrite ?elem_of_cons, elem_of_nil; intuition discriminate|]).
  apply NoDup_nil_2.
Qed.

Lemma letter_keys_length {V} (o : obj V) : letter_keys o -> (length o <= 6)%nat.
Proof.
  intros [Hd Hk]. change 6%nat with (length LETTERS).
  rewrite <- (length_map fst o). apply submseteq_length.
  apply NoDup_submseteq; [exact Hd|exact Hk].
Qed.

Lemma letter_keys_nonempty {V} (o : obj V) k : letter_keys o -> k ∈ obj_keys o -> k <> [].
Proof.
  intros [_ Hk] Hin. apply Hk in Hin. unfold LETTERS in Hin. cbn in Hin.
  rewrite !elem_of_cons, elem_of_nil in Hin. intros ->. intuition discriminate.
Qed.

(** The mappings of a prepared question satisfy the loop invariant when the
    question has distinct option keys among A to F. *)
Lemma prepareQuestion_mappings_ok q rnd n :
  letter_keys (options q) ->
  let p := fst (prepareQuestion q rnd n) in
  mappings_ok {| m_shuffledOptions := shuffledOptions p;
                 m_optionMapping := optionMapping p;
                 m_reverseMapping := reverseMapping p |}
  /\ (forall o, o ∈ obj_keys (options q) -> is_Some (obj_get (reverseMapping p) o))
  /\ forall k o, obj_get (optionMapping p) k = Some o -> o ∈ obj_keys (options q).
Proof.
  intros Hk. unfold prepareQuestion, bind.
  pose proof (shuffleArray_Permutation (options q) rnd n) as HP.
  destruct (shuffleArray (options q) rnd n) as [items n1]. simpl in *.
  pose proof (letter_keys_length _ Hk) as Hlen.
  assert (length items = length (options q)) as Hl by by rewrite HP.
  apply (Permutation_map fst) in HP.
  set (m0 := {| m_shuffledOptions := []; m_optionMapping := []; m_reverseMapping := [] |}).
  set (m := assign_letters _ items 0 m0).
  assert (mappings_ok m) as Hm.
  { apply mappings_ok_assign.
    - unfold obj_keys in Hk. rewrite HP. apply Hk.
    - done.
    - eapply sublist_NoDup; [apply LETTERS_NoDup|apply sublist_take].
    - done.
    - rewrite length_take. unfold LETTERS. simpl. lia.
    - split; [|split]; simpl; [|done..].
      intros k. rewrite elem_of_nil. split; [done|by intros [? ?]]. }
  split; [by destruct m|]. split.
  { intros o Ho. apply assign_reverse_defined. left. unfold obj_keys in Ho. by rewrite HP. }
  assert (forall its idx m1 k o,
    obj_get (m_optionMapping (assign_letters (take (length items) LETTERS) its idx m1)) k = Some o ->
    obj_get (m_optionMapping m1) k = Some o \/ o ∈ map fst its) as Himg.
  { induction its as [|[orig txt] its IH]; intros idx m1 k o; simpl; [auto|].
    intros H. apply IH in H as [H|H]; [|by right; right].
    unfold assign_letter in H. simpl in H. rewrite obj_get_set in H.
    destruct (jsstring_eqb _ k); [|by left]. injection H as <-. right. left. }
  intros k o H. apply Himg in H as [H|H]; [done|].
  unfold obj_keys. by rewrite <- HP.
Qed.

(** C2: for a prepared question (with distinct option keys among A to F, as
    the parser builds them) the two mappings are inverse to each other:
    [reverseMapping[optionMapping[letter]]] is [letter] for every key
    [letter] of [shuffledOptions], and every original option letter has a
    shuffled letter that [optionMapping] sends back to it. Hence
    translating a selection of shuffled letters to original letters, as
    [submitAnswer] does, and back through [reverseMapping], as
    [prepareQuestion] translates the answer, gives the selection back. *)
Theorem mappings_round_trip (q : question) (rnd : nat -> draw) (n : nat) :
  letter_keys (options q) ->
  let p := fst (prepareQuestion q rnd n) in
  (forall letter, letter ∈ obj_keys (shuffledOptions p) ->
     exists original,
       obj_get (optionMapping p) letter = Some original
       /\ lookup_reverse (reverseMapping p) original = Some letter)
  /\ (forall original, original ∈ obj_keys (options q) ->
        exists letter,
          lookup_reverse (reverseMapping p) original = Some letter
          /\ obj_get (optionMapping p) letter = Some original)
  /\ forall selection,
       Forall (fun letter => letter ∈ obj_keys (shuffledOptions p)) selection ->
       map (lookup_reverse (reverseMapping p)) (map (toOriginal p) selection)
       = map Some selection.
Proof.
  intros Hk p.
  destruct (prepareQuestion_mappings_ok q rnd n Hk) as ((Ha & Hb & Hc) & Hdef & Himg).
  fold p in Ha, Hb, Hc, Hdef, Himg. simpl in Ha, Hb, Hc.
  assert (forall letter, letter ∈ obj_keys (shuffledOptions p) ->
            exists original, obj_get (optionMapping p) letter = Some original
              /\ lookup_reverse (reverseMapping p) original = Some letter) as H1.
  { intros letter Hin. apply Ha in Hin as [o Ho]. exists o. split; [done|].
    unfold lookup_reverse. by rewrite (Hb _ _ Ho). }
  assert (forall original, original ∈ obj_keys (options q) ->
            exists letter, lookup_reverse (reverseMapping p) original = Some letter
              /\ obj_get (optionMapping p) letter = Some original) as H2.
  { intros o Ho. destruct (Hdef o Ho) as [v Hv].
    destruct (Hc o v Hv) as (k & -> & Hfwd). exists k. split; [|done].
    unfold lookup_reverse. by rewrite Hv. }
  split; [exact H1|]. split; [exact H2|].
  intros selection Hsel. induction Hsel as [|letter sel Hin _ IH]; simpl; [done|].
  rewrite IH. f_equal.
  destruct (H1 letter Hin) as (o & Ho & Hr). unfold toOriginal. rewrite Ho.
  assert (o <> []) as Hne by (eapply letter_keys_nonempty; eauto).
  destruct o; done.
Qed.

Lemma mappings_round_trip_witness :
  letter_keys (options scenario_question)
  /\ let p := fst (prepareQuestion scenario_question always_half 0%nat) in
     (forall letter, letter ∈ obj_keys (shuffledOptions p) ->
        exists original,
          obj_get (optionMapping p) letter = Some original
          /\ lookup_reverse (reverseMapping p) original = Some letter)
     /\ (forall original, original ∈ obj_keys (options scenario_question) ->
           exists letter,
             lookup_reverse (reverseMapping p) original = Some letter
             /\ obj_get (optionMapping p) letter = Some original)
     /\ forall selection,
          Forall (fun letter => letter ∈ obj_keys (shuffledOptions p)) selection ->
          map (lookup_reverse (reverseMapping p)) (map (toOriginal p) selection)
          = map Some selection.
Proof.
  assert (letter_keys (options scenario_question)) as H.
  { unfold letter_keys.
    let keys := eval vm_compute in (obj_keys (options scenario_question)) in
    change (obj_keys (options scenario_question)) with keys.
    let letters := eval vm_compute in LETTERS in change LETTERS with letters.
    split.
    - apply NoDup_cons. split; [|apply NoDup_singleton].
      rewrite list_elem_of_singleton. discriminate.
    - intros k. rewrite !elem_of_cons, !elem_of_nil. intuition. }
  split; [exact H|]. exact (mappings_round_trip scenario_question always_half 0%nat H).
Defined.

(** ** Answer letters without an option *)

Lemma LETTERS_unit : Forall unit_string LETTERS.
Proof. unfold LETTERS. repeat constructor. Qed.

Lemma assign_reverse_values newLetters items index m k v :
  Forall unit_string newLetters ->
  obj_get (m_reverseMapping (assign_letters newLetters items index m)) k = Some v ->
  obj_get (m_reverseMapping m) k = Some v
  \/ (k ∈ map fst items /\ forall L, v = Some L -> unit_string L).
Proof.
  intros HU. revert index m. induction items as [|[orig txt] items IH]; intros index m H;
    simpl in *; [by left|].
  apply IH in H as [H|[H1 H2]]; [|right; split; [by right|done]].
  unfold assign_letter in H. simpl in H. rewrite obj_get_set in H.
  destruct (jsstring_eqb orig k) eqn:E; [|by left].
  apply jsstring_eqb_true in E. subst. injection H as <-. right. split; [left|].
  intros L HL. rewrite Forall_forall in HU. apply HU. by eapply list_elem_of_lookup_2.
Qed.

Lemma property_name_nonempty newLetters index :
  Forall unit_string newLetters -> property_name (newLetters !! index) <> [].
Proof.
  intros HU. destruct (newLetters !! index) as [L|] eqn:E; simpl; [|done].
  rewrite Forall_forall in HU. apply list_elem_of_lookup_2, HU in E.
  unfold unit_string in E. by destruct L.
Qed.

Lemma assign_shuffled_keys newLetters items index m k :
  Forall unit_string newLetters ->
  k ∈ obj_keys (m_shuffledOptions (assign_letters newLetters items index m)) ->
  k ∈ obj_keys (m_shuffledOptions m) \/ k <> [].
Proof.
  intros HU. revert index m. induction items as [|[orig txt] items IH]; intros index m H;
    simpl in *; [by left|].
  apply IH in H as [H|H]; [|by right].
  unfold assign_letter in H. simpl in H. apply obj_keys_set in H as [H| ->]; [by left|].
  right. by apply property_name_nonempty.
Qed.

Lemma filter_Boolean_length_le l : (length (filter_Boolean l) <= length l)%nat.
Proof.
  induction l as [|[[|c s]|] l IH]; simpl; lia.
Qed.

Lemma filter_Boolean_length_lt l :
  None ∈ l -> (length (filter_Boolean l) < length l)%nat.
Proof.
  induction l as [|v l IH]; intros H; [by apply elem_of_nil in H|].
  apply elem_of_cons in H as [<-|H].
  - pose proof (filter_Boolean_length_le l). simpl. lia.
  - specialize (IH H). destruct v as [[|c s]|]; simpl; lia.
Qed.

Lemma filter_Boolean_elem l s : s ∈ filter_Boolean l -> Some s ∈ l.
Proof.
  induction l as [|[[|c r]|] l IH]; simpl; intros H;
    try (right; auto; fail); [by apply elem_of_nil in H|].
  apply elem_of_cons in H as [->|H]; [left|right; auto].
Qed.

Lemma join_length_ge l :
  Forall (fun s : jsstring => s <> []) l -> (length l <= length (join l))%nat.
Proof.
  unfold join. induction 1 as [|s l Hs _ IH]; simpl; [done|].
  rewrite length_app. destruct s; [done|]. simpl. lia.
Qed.

(** The shuffled answer of a prepared question: one code unit for each answer
    letter that the reverse mapping knows, none for the others. *)
Lemma shuffledAnswer_length q rnd n :
  (exists c, c ∈ answer q /\ [c] ∉ obj_keys (options q)) ->
  (length (shuffledAnswer (fst (prepareQuestion q rnd n))) < length (answer q))%nat.
Proof.
  intros (c & Hc & Hstray). unfold prepareQuestion, bind.
  pose proof (shuffleArray_Permutation (options q) rnd n) as HP.
  destruct (shuffleArray (options q) rnd n) as [items n1]. simpl in *.
  set (m0 := {| m_shuffledOptions := []; m_optionMapping := []; m_reverseMapping := [] |}).
  set (newLetters := take (length items) LETTERS).
  set (m := assign_letters newLetters items 0 m0).
  assert (Forall unit_string newLetters) as HU.
  { apply Forall_take, LETTERS_unit. }
  assert (forall k v, obj_get (m_reverseMapping m) k = Some v ->
            k ∈ obj_keys (options q) /\ forall L, v = Some L -> unit_string L) as Hrev.
  { intros k v H. apply assign_reverse_values in H as [H|[H1 H2]]; [done| |done].
    split; [|done]. unfold obj_keys. apply (Permutation_map fst) in HP. by rewrite <- HP. }
  set (mapped := map (lookup_reverse (m_reverseMapping m)) (split_units (answer q))).
  assert (length mapped = length (answer q)) as Hlen.
  { unfold mapped, split_units. by rewrite !length_map. }
  assert (None ∈ mapped) as Hnone.
  { unfold mapped, split_units. rewrite map_map. apply list_elem_of_In, in_map_iff.
    exists c. split; [|by apply list_elem_of_In].
    unfold lookup_reverse. destruct (obj_get (m_reverseMapping m) [c]) as [v|] eqn:E; [|done].
    apply Hrev in E as [E _]. done. }
  rewrite join_units_length.
  - unfold sortLetters. rewrite sort_by_length.
    apply filter_Boolean_length_lt in Hnone. lia.
  - unfold sortLetters. rewrite sort_by_Permutation. apply Forall_forall.
    intros s Hs. apply filter_Boolean_elem in Hs. unfold mapped in Hs.
    apply list_elem_of_In, in_map_iff in Hs as (u & Hu & _).
    unfold lookup_reverse in Hu.
    destruct (obj_get (m_reverseMapping m) u) as [v|] eqn:E; [|done]. subst v.
    apply Hrev in E as [_ E]. by apply E.
Qed.

Lemma shuffledOptions_keys_nonempty q rnd n k :
  k ∈ obj_keys (shuffledOptions (fst (prepareQuestion q rnd n))) -> k <> [].
Proof.
  unfold prepareQuestion, bind.
  destruct (shuffleArray (options q) rnd n) as [items n1]. simpl.
  intros H. apply assign_shuffled_keys in H as [H|H]; [by apply elem_of_nil in H|done|].
  apply Forall_take, LETTERS_unit.
Qed.

Lemma prepareQuestion_fields q rnd n :
  source (fst (prepareQuestion q rnd n)) = q
  /\ isMultipleChoice (fst (prepareQuestion q rnd n)) = Nat.ltb 1 (length (answer q)).
Proof.
  unfold prepareQuestion, bind. by destruct (shuffleArray (options q) rnd n).
Qed.

(** C9: a question whose answer has more than one letter, one of them not an
    option key, is prepared with a shuffled answer strictly shorter than its
    answer; and when it is the current question, still unanswered, and the
    draft selection consists of keys of its shuffled options, any submission
    that creates an answer record creates one marked incorrect. *)
Theorem stray_answer_letter_never_correct (q : question) (rnd : nat -> draw) (n : nat) :
  (1 < length (answer q))%nat ->
  (exists c, c ∈ answer q /\ [c] ∉ obj_keys (options q)) ->
  let p := fst (prepareQuestion q rnd n) in
  (length (shuffledAnswer p) < length (answer q))%nat
  /\ forall now st r,
       quizQuestions st !! currentIndex st = Some p ->
       answersState st !! currentIndex st = None ->
       (forall sel, draftSelections st !! currentIndex st = Some sel ->
                    Forall (fun letter => letter ∈ obj_keys (shuffledOptions p)) sel) ->
       answersState (submitAnswer now st) !! currentIndex st = Some r ->
       isCorrect r = false.
Proof.
  intros Hmulti Hstray p.
  pose proof (shuffledAnswer_length q rnd n Hstray) as Hshort. fold p in Hshort.
  split; [exact Hshort|].
  intros now st r Hq Hnone Hsel. unfold submitAnswer. rewrite Hq, Hnone.
  destruct (prepareQuestion_fields q rnd n) as [Hsrc Hmc]. fold p in Hsrc, Hmc.
  set (selected := sortLetters (default [] (draftSelections st !! currentIndex st))).
  destruct (Nat.eqb (length selected) 0); [simpl; by rewrite Hnone|].
  rewrite Hmc, Hsrc. apply Nat.ltb_lt in Hmulti. rewrite Hmulti. simpl.
  destruct (Nat.eqb_spec (length selected) (length (answer q))) as [Heq|Hne]; simpl;
    [|by rewrite Hnone].
  rewrite lookup_insert_eq. intros [= <-]. simpl.
  apply jsstring_eqb_false. intros E. apply (f_equal length) in E.
  assert (Forall (fun s : jsstring => s <> []) selected) as Hne.
  { unfold selected, sortLetters. rewrite sort_by_Permutation.
    destruct (draftSelections st !! currentIndex st) as [sel|] eqn:Ed; simpl; [|constructor].
    eapply Forall_impl; [exact (Hsel sel eq_refl)|].
    intros k Hk. exact (shuffledOptions_keys_nonempty q rnd n k Hk). }
  apply join_length_ge in Hne. lia.
Qed.

(** ** Sequential selection *)

Lemma insert_sorted_ascending x l :
  StronglySorted ascending l ->
  StronglySorted ascending (insert_sorted (fun a b => number a <=? number b) x l).
Proof.
  induction 1 as [|y r Hs IH Hy]; simpl; [repeat constructor|].
  destruct (N.leb_spec (number x) (number y)) as [Hle|Hgt].
  - constructor; [by constructor|]. constructor; [exact Hle|].
    eapply Forall_impl; [exact Hy|]. unfold ascending. intros z Hz. lia.
  - constructor; [exact IH|]. rewrite insert_sorted_Permutation.
    constructor; [unfold ascending; lia|exact Hy].
Qed.

Lemma sortedQuestions_ascending qs : StronglySorted ascending (sortedQuestions qs).
Proof.
  unfold sortedQuestions, sort_by. induction qs as [|q qs IH]; simpl; [constructor|].
  by apply insert_sorted_ascending.
Qed.

Lemma find_startIdx_spec l start i :
  (exists k q, l !! k = Some q /\ reaches start q
     /\ (forall j q', (j < k)%nat -> l !! j = Some q' -> ~ reaches start q')
     /\ find_startIdx l start i = (i + k)%nat)
  \/ ((forall q, q ∈ l -> ~ reaches start q) /\ find_startIdx l start i = 0%nat).
Proof.
  revert i. induction l as [|q l IH]; intros i; simpl.
  - right. split; [|done]. intros q Hq. by apply elem_of_nil in Hq.
  - destruct (Z.leb_spec start (Z.of_N (number q))) as [Hle|Hgt].
    + left. exists 0%nat, q. repeat split; [exact Hle| |lia]. intros j q' Hj. lia.
    + destruct (IH (S i)) as [(k & q1 & Hk & Hr & Hfirst & Hidx)|[Hnone Hidx]].
      * left. exists (S k), q1. repeat split; [exact Hk|exact Hr| |lia].
        intros [|j] q' Hj Hq'; simpl in Hq'.
        -- injection Hq' as <-. unfold reaches. lia.
        -- apply (Hfirst j); [lia|exact Hq'].
      * right. split; [|exact Hidx]. intros q' Hq'.
        apply elem_of_cons in Hq' as [->|Hq']; [unfold reaches; lia|by apply Hnone].
Qed.

(** The limit the settings dialog shows for a sequential run is the number of
    questions from the start index on. *)
Lemma computeSequentialMaxCount_remaining sorted startNumber :
  sorted <> [] ->
  computeSequentialMaxCount sorted startNumber
  = Z.of_nat (length sorted - find_startIdx sorted startNumber 0).
Proof.
  intros Hne. unfold computeSequentialMaxCount. destruct sorted as [|q l] eqn:E; [done|].
  rewrite <- E in *.
  destruct (find_startIdx_spec sorted startNumber 0) as [(k & q' & Hk & _ & _ & ->)|[_ ->]].
  - apply lookup_lt_Some in Hk. lia.
  - subst sorted. simpl. lia.
Qed.

Lemma find_startIdx_is_startIdx l start : is_startIdx l start (find_startIdx l start 0).
Proof.
  destruct (find_startIdx_spec l start 0) as [(k & q & Hk & Hr & Hfirst & ->)|[Hnone ->]].
  - left. exists q. done.
  - right. done.
Qed.

Lemma is_startIdx_lt l start idx : l <> [] -> is_startIdx l start idx -> (idx < length l)%nat.
Proof.
  intros Hne [(q & Hq & _)|[-> _]].
  - by eapply lookup_lt_Some.
  - destruct l; [done|simpl; lia].
Qed.


(** ** The wrong-answer log *)

Lemma findIndex_number_None prev n i :
  findIndex_number prev n i = None <-> n ∉ map original_number prev.
Proof.
  revert i. induction prev as [|e prev IH]; intros i; simpl.
  - split; [intros _ H; by apply elem_of_nil in H|done].
  - rewrite not_elem_of_cons. destruct (N.eqb_spec (original_number e) n) as [E|E].
    + split; [done|]. intros [H _]. congruence.
    + rewrite IH. split; [auto|tauto].
Qed.

Lemma findIndex_number_Some prev n i j :
  findIndex_number prev n i = Some j ->
  exists k e, j = (i + k)%nat /\ prev !! k = Some e /\ original_number e = n.
Proof.
  revert i. induction prev as [|e prev IH]; intros i; simpl; [done|].
  destruct (N.eqb_spec (original_number e) n) as [E|E].
  - intros [= <-]. exists 0%nat, e. split; [lia|done].
  - intros H. apply IH in H as (k & e' & -> & Hk & He). exists (S k), e'. split; [lia|done].
Qed.

Lemma map_number_insert prev k e record :
  prev !! k = Some e -> original_number e = original_number record ->
  map original_number (<[k := record]> prev) = map original_number prev.
Proof.
  revert k. induction prev as [|x prev IH]; intros [|k] Hk He; simpl in *; try done.
  - injection Hk as ->. by rewrite He.
  - by rewrite IH.
Qed.

Lemma upsert_numbers prev record :
  map original_number (upsert prev record) = map original_number prev
  \/ ((original_number record ∉ map original_number prev)
      /\ upsert prev record = prev ++ [record]).
Proof.
  unfold upsert. destruct (findIndex_number prev (original_number record) 0) as [j|] eqn:E.
  - left. apply findIndex_number_Some in E as (k & e & -> & Hk & He).
    by apply map_number_insert with e.
  - right. by apply findIndex_number_None in E.
Qed.

Lemma upsert_NoDup prev record :
  NoDup (map original_number prev) -> NoDup (map original_number (upsert prev record)).
Proof.
  intros Hd. destruct (upsert_numbers prev record) as [->|[Hnot ->]]; [done|].
  rewrite map_app. simpl. apply NoDup_app. split; [done|]. split; [|apply NoDup_singleton].
  intros n Hn Hn'. apply list_elem_of_singleton in Hn'. by subst.
Qed.

Lemma upsert_elem prev record : record ∈ upsert prev record.
Proof.
  unfold upsert. destruct (findIndex_number prev (original_number record) 0) as [j|] eqn:E.
  - apply findIndex_number_Some in E as (k & e & -> & Hk & He).
    apply list_elem_of_insert. by eapply lookup_lt_Some.
  - apply elem_of_app. right. apply list_elem_of_here.
Qed.

Lemma upsert_other prev record entry :
  entry ∈ prev -> original_number entry <> original_number record ->
  entry ∈ upsert prev record.
Proof.
  intros Hin Hne. unfold upsert.
  destruct (findIndex_number prev (original_number record) 0) as [j|] eqn:E.
  - apply findIndex_number_Some in E as (k & e & -> & Hk & He). simpl.
    apply list_elem_of_lookup in Hin as [i Hi].
    apply list_elem_of_lookup. exists i. rewrite list_lookup_insert_ne; [done|].
    intros ->. congruence.
  - apply elem_of_app. by left.
Qed.

Lemma upsert_in_place prev record i entry :
  NoDup (map original_number prev) ->
  prev !! i = Some entry -> original_number entry = original_number record ->
  upsert prev record = <[i := record]> prev.
Proof.
  intros Hd Hi He. unfold upsert.
  destruct (findIndex_number prev (original_number record) 0) as [j|] eqn:E.
  - apply findIndex_number_Some in E as (k & e & -> & Hk & Hn). simpl.
    assert (k = i) as ->; [|done].
    apply (NoDup_lookup _ k i (original_number record) Hd).
    + change (map original_number prev) with (original_number <$> prev).
      by rewrite list_lookup_fmap, Hk, <- Hn.
    + change (map original_number prev) with (original_number <$> prev).
      by rewrite list_lookup_fmap, Hi, <- He.
  - apply findIndex_number_None in E. exfalso. apply E.
    apply list_elem_of_In, in_map_iff. exists entry. split; [done|].
    apply list_elem_of_In. by eapply list_elem_of_lookup_2.
Qed.

Lemma upserts_keep prev records entry :
  entry ∈ prev ->
  Forall (fun later => original_number later <> original_number entry) records ->
  entry ∈ fold_left upsert records prev.
Proof.
  revert prev. induction records as [|r rs IH]; intros prev Hin Hf; simpl; [done|].
  apply Forall_cons in Hf as [Hr Hf]. apply IH; [|done].
  apply upsert_other; [done|congruence].
Qed.

Lemma upserts_NoDup prev records :
  NoDup (map original_number prev) ->
  NoDup (map original_number (fold_left upsert records prev)).
Proof.
  revert prev. induction records as [|r rs IH]; intros prev Hd; simpl; [done|].
  by apply IH, upsert_NoDup.
Qed.

(** C5: starting from a log with pairwise distinct numbers (the empty log
    included), after any sequence of upserts the numbers are still pairwise
    distinct and the list holds, for each number, the latest record upserted
    for it (or the entry it had when none was); an upsert for a number
    already present replaces the entry at its position, an upsert for a new
    number appends at the end. *)
Theorem wrong_log_one_entry_per_number (log records : list wrongAnswer) :
  NoDup (map original_number log) ->
  let final := fold_left upsert records log in
  NoDup (map original_number final)
  /\ (forall before record after,
        records = before ++ record :: after ->
        Forall (fun later => original_number later <> original_number record) after ->
        record ∈ final)
  /\ (forall entry,
        entry ∈ log ->
        Forall (fun later => original_number later <> original_number entry) records ->
        entry ∈ final)
  /\ forall record,
       (forall i entry, log !! i = Some entry ->
          original_number entry = original_number record ->
          upsert log record = <[i := record]> log)
       /\ (original_number record ∉ map original_number log ->
           upsert log record = log ++ [record]).
Proof.
  intros Hd final. split; [by apply upserts_NoDup|]. split; [|split].
  - intros before record after -> Hafter. unfold final.
    rewrite fold_left_app. simpl. apply upserts_keep; [apply upsert_elem|done].
  - intros entry Hin Hf. by apply upserts_keep.
  - intros record. split.
    + intros i entry. by apply upsert_in_place.
    + intros Hnot. unfold upsert.
      by rewrite (proj2 (findIndex_number_None log (original_number record) 0) Hnot).
Qed.

(** ** Submission *)

(** C4: when the current question has no answer record, submitting an empty
    selection, or for a multiple-choice question a selection whose size is
    not the number of answer letters, sets a warning and changes nothing
    else: no record is created, and the score and the wrong-answer log are
    as before. *)
Theorem rejected_submission_only_warns (now : jsstring) (st : app) (q : prepared) :
  quizQuestions st !! currentIndex st = Some q ->
  answersState st !! currentIndex st = None ->
  let selection := default [] (draftSelections st !! currentIndex st) in
  selection = []
  \/ (isMultipleChoice q = true /\ length selection <> length (answer (source q))) ->
  let st' := submitAnswer now st in
  warning st' <> NoWarning
  /\ st' = set_warning (warning st') st
  /\ answersState st' = answersState st
  /\ score st' = score st
  /\ wrongAnswers st' = wrongAnswers st.
Proof.
  intros Hq Hnone selection Hrej st'. subst st'. unfold submitAnswer.
  rewrite Hq, Hnone. fold selection.
  assert (length (sortLetters selection) = length selection) as Hlen
    by apply sort_by_length.
  rewrite Hlen.
  destruct (Nat.eqb_spec (length selection) 0) as [E0|E0]; [done|].
  destruct Hrej as [->|[Hmc Hne]]; [done|].
  rewrite Hmc. apply Nat.eqb_neq in Hne. rewrite Hne. done.
Qed.

Lemma submitAnswer_answered now st r :
  answersState st !! currentIndex st = Some r -> submitAnswer now st = st.
Proof.
  intros H. unfold submitAnswer. rewrite H. by destruct (quizQuestions st !! currentIndex st).
Qed.

(** Within a run, an existing answer record is never touched. *)
Lemma step_keeps_record rnd st e i r :
  within_run e = true ->
  answersState st !! i = Some r ->
  answersState (step rnd st e) !! i = Some r.
Proof.
  intros He Hr. destruct e; try done; simpl.
  - unfold changeOption.
    destruct (quizQuestions st !! currentIndex st); [|done].
    by destruct (answersState st !! currentIndex st).
  - unfold submitAnswer.
    destruct (quizQuestions st !! currentIndex st) as [q|]; [|done].
    destruct (answersState st !! currentIndex st) eqn:En; [done|].
    destruct (Nat.eqb _ 0); [done|]. destruct (_ && _); [done|]. simpl.
    rewrite lookup_insert_ne; [done|]. intros <-. congruence.
  - unfold previousQuestion. by destruct (_ && _).
  - unfold nextQuestion. by destruct (_ && _).
  - unfold autoNext. by destruct (autoNextTimer st).
Qed.

(** C6: once an answer record exists for an index, it is still there,
    unchanged, after any sequence of events of the run; and whenever that
    index is the current one, [submitAnswer] leaves the whole state as it
    is, in particular the record, the score and the wrong-answer log. *)
Theorem answer_record_is_write_once
    (rnd : nat -> draw) (st : app) (events : list event) (i : nat) (r : answerRecord)
    (now : jsstring) :
  answersState st !! i = Some r ->
  Forall (fun e => within_run e = true) events ->
  let st' := run rnd st events in
  answersState st' !! i = Some r
  /\ (currentIndex st' = i -> submitAnswer now st' = st').
Proof.
  intros Hr Hev st'.
  assert (answersState st' !! i = Some r) as H.
  { subst st'. unfold run. revert st Hr.
    induction Hev as [|e es He _ IH]; intros st Hr; simpl; [done|].
    by apply IH, step_keeps_record. }
  split; [exact H|]. intros <-. by eapply submitAnswer_answered.
Qed.

(** ** The score *)

Lemma correctCount_empty : correctCount ∅ = 0%nat.
Proof. unfold correctCount. by rewrite map_filter_empty, map_size_empty. Qed.

Lemma correctCount_insert answers i r :
  answers !! i = None ->
  correctCount (<[i := r]> answers)
  = (if isCorrect r then correctCount answers + 1 else correctCount answers)%nat.
Proof.
  intros Hi. unfold correctCount. destruct (isCorrect r) eqn:E.
  - rewrite map_filter_insert_True by done.
    rewrite map_size_insert_None; [lia|]. apply map_lookup_filter_None. by left.
  - rewrite map_filter_insert_False by (simpl; congruence). by rewrite delete_id.
Qed.

Lemma step_score rnd st e :
  score st = correctCount (answersState st) ->
  score (step rnd st e) = correctCount (answersState (step rnd st e)).
Proof.
  intros H. destruct e; simpl.
  - unfold changeOption.
    destruct (quizQuestions st !! currentIndex st); [|done].
    by destruct (answersState st !! currentIndex st).
  - unfold submitAnswer.
    destruct (quizQuestions st !! currentIndex st) as [q|]; [|done].
    destruct (answersState st !! currentIndex st) eqn:En; [done|].
    destruct (Nat.eqb _ 0); [done|]. destruct (_ && _); [done|]. simpl.
    rewrite correctCount_insert by done. simpl. rewrite H. by destruct (jsstring_eqb _ _).
  - unfold previousQuestion. by destruct (_ && _).
  - unfold nextQuestion. by destruct (_ && _).
  - unfold autoNext. by destruct (autoNextTimer st).
  - unfold startQuiz. destruct (questions st); [done|].
    destruct (bind _ _ _ _). simpl. by rewrite correctCount_empty.
  - unfold loadBank. destruct parsedQuestions; [done|]. simpl. by rewrite correctCount_empty.
  - done.
  - done.
Qed.

(** C10: in every state the application reaches, the score is the number of
    answer records marked correct; starting a run on a non-empty bank sets
    the score to zero and empties the records; a submission that passes the
    checks of [submitAnswer] (a current question without a record, a
    non-empty selection, and for a multiple-choice question as many letters
    as the answer has) adds one record at the current index, marked correct
    exactly when the sorted selection spells the shuffled answer, and
    increments the score exactly when that record is marked correct; the
    records change in no other way, and the score does not change when the
    records do not. *)
Theorem score_counts_correct_records :
  (forall rnd stored events,
     let st := run rnd (initial stored) events in
     score st = correctCount (answersState st))
  /\ (forall rnd st,
        questions st <> [] ->
        score (startQuiz rnd st) = 0%nat /\ answersState (startQuiz rnd st) = ∅)
  /\ (forall now st q,
        quizQuestions st !! currentIndex st = Some q ->
        answersState st !! currentIndex st = None ->
        let draft := default [] (draftSelections st !! currentIndex st) in
        draft <> [] ->
        (isMultipleChoice q = true -> length draft = length (answer (source q))) ->
        exists r,
          selected r = sortLetters draft
          /\ isCorrect r = jsstring_eqb (join (sortLetters draft)) (shuffledAnswer q)
          /\ answersState (submitAnswer now st) = <[currentIndex st := r]> (answersState st)
          /\ size (answersState (submitAnswer now st)) = S (size (answersState st))
          /\ score (submitAnswer now st)
             = (if isCorrect r then score st + 1 else score st)%nat)
  /\ (forall now st,
        answersState (submitAnswer now st) <> answersState st ->
        exists r,
          answersState st !! currentIndex st = None
          /\ answersState (submitAnswer now st) = <[currentIndex st := r]> (answersState st)
          /\ score (submitAnswer now st)
             = (if isCorrect r then score st + 1 else score st)%nat)
  /\ forall now st,
       answersState (submitAnswer now st) = answersState st ->
       score (submitAnswer now st) = score st.
Proof.
  split; [|split; [|split; [|split]]].
  - intros rnd stored events. unfold run.
    assert (forall st, score st = correctCount (answersState st) ->
              score (fold_left (step rnd) events st)
              = correctCount (answersState (fold_left (step rnd) events st))) as H.
    { induction events as [|e es IH]; intros st Hst; simpl; [done|].
      by apply IH, step_score. }
    apply H. simpl. by rewrite correctCount_empty.
  - intros rnd st Hne. unfold startQuiz. destruct (questions st); [done|].
    by destruct (bind _ _ _ _).
  - intros now st q Hq Hnone draft Hdraft Hcount.
    unfold submitAnswer. rewrite Hq, Hnone. fold draft.
    assert (length (sortLetters draft) = length draft) as Hlen by apply sort_by_length.
    rewrite Hlen.
    assert (Nat.eqb (length draft) 0 = false) as ->.
    { apply Nat.eqb_neq. by destruct draft. }
    assert (isMultipleChoice q
            && negb (Nat.eqb (length draft) (length (answer (source q)))) = false) as ->.
    { destruct (isMultipleChoice q); [|done]. simpl.
      rewrite Hcount by done. by rewrite Nat.eqb_refl. }
    exists {| selected := sortLetters draft;
              isCorrect := jsstring_eqb (join (sortLetters draft)) (shuffledAnswer q);
              userAnswerShuffled := join (sortLetters draft);
              userAnswerOriginal :=
                join (sortLetters (map (toOriginal q) (sortLetters draft))) |}.
    cbn [answersState score selected isCorrect].
    split; [done|]. split; [done|]. split; [done|]. split; [|done].
    by rewrite map_size_insert_None.
  - intros now st. unfold submitAnswer.
    destruct (quizQuestions st !! currentIndex st) as [q|]; [|done].
    destruct (answersState st !! currentIndex st) eqn:En; [done|].
    destruct (Nat.eqb _ 0); [done|]. destruct (_ && _); [done|]. simpl.
    intros _. eexists. split; [done|]. split; [done|]. simpl. done.
  - intros now st. unfold submitAnswer.
    destruct (quizQuestions st !! currentIndex st) as [q|]; [|done].
    destruct (answersState st !! currentIndex st) eqn:En; [done|].
    destruct (Nat.eqb _ 0); [done|]. destruct (_ && _); [done|]. simpl.
    intros H. exfalso.
    apply (f_equal (fun m => m !! currentIndex st)) in H.
    rewrite lookup_insert_eq, En in H. discriminate.
Qed.

(** ** The theorems on concrete banks *)

Lemma score_counts_correct_records_witness :
  let st := right_draft_run in
  let q := fst (prepareQuestion scenario_question always_half 0%nat) in
  let draft := default [] (draftSelections st !! currentIndex st) in
  quizQuestions st !! currentIndex st = Some q
  /\ answersState st !! currentIndex st = None
  /\ draft = [js "B"]
  /\ isMultipleChoice q = false
  /\ score st = 0%nat
  /\ score (submitAnswer (js "t0") st) = 1%nat
  /\ exists r,
       selected r = sortLetters draft
       /\ isCorrect r = jsstring_eqb (join (sortLetters draft)) (shuffledAnswer q)
       /\ answersState (submitAnswer (js "t0") st) = <[currentIndex st := r]> (answersState st)
       /\ size (answersState (submitAnswer (js "t0") st)) = S (size (answersState st))
       /\ score (submitAnswer (js "t0") st)
          = (if isCorrect r then score st + 1 else score st)%nat.
Proof.
  intros st q draft.
  assert (quizQuestions st !! currentIndex st = Some q) as Hq by (vm_compute; reflexivity).
  assert (answersState st !! currentIndex st = None) as Hnone by (vm_compute; reflexivity).
  assert (draft = [js "B"]) as Hdraft by (vm_compute; reflexivity).
  assert (isMultipleChoice q = false) as Hsingle by (vm_compute; reflexivity).
  split; [exact Hq|]. split; [exact Hnone|]. split; [exact Hdraft|].
  split; [exact Hsingle|]. split; [vm_compute; reflexivity|].
  split; [vm_compute; reflexivity|].
  apply (proj1 (proj2 (proj2 score_counts_correct_records)) (js "t0") st q Hq Hnone).
  - fold draft. rewrite Hdraft. discriminate.
  - rewrite Hsingle. discriminate.
Defined.

Lemma random_run_is_prefix_of_permutation_witness :
  let st := loaded [stray_question; scenario_question] ModeRandom in
  questions st <> []
  /\ s_mode (appSettings st) = ModeRandom
  /\ let run := map source (quizQuestions (startQuiz always_half st)) in
     Z.of_nat (length run)
       = clamp (numQuestions (appSettings st)) 1 (Z.of_nat (length (questions st)))
     /\ exists rest, questions st ≡ₚ run ++ rest.
Proof.
  intros st. split; [discriminate|]. split; [reflexivity|].
  apply (random_run_is_prefix_of_permutation always_half st); [discriminate|reflexivity].
Defined.


Lemma rejected_submission_only_warns_witness :
  let q := fst (prepareQuestion scenario_question always_half 0%nat) in
  quizQuestions fresh_run !! currentIndex fresh_run = Some q
  /\ answersState fresh_run !! currentIndex fresh_run = None
  /\ default [] (draftSelections fresh_run !! currentIndex fresh_run) = []
  /\ let st' := submitAnswer (js "t0") fresh_run in
     warning st' <> NoWarning
     /\ st' = set_warning (warning st') fresh_run
     /\ answersState st' = answersState fresh_run
     /\ score st' = score fresh_run
     /\ wrongAnswers st' = wrongAnswers fresh_run.
Proof.
  intros q.
  assert (quizQuestions fresh_run !! currentIndex fresh_run = Some q) as Hq
    by (vm_compute; reflexivity).
  assert (answersState fresh_run !! currentIndex fresh_run = None) as Hnone
    by (vm_compute; reflexivity).
  assert (default [] (draftSelections fresh_run !! currentIndex fresh_run) = []) as Hsel
    by (vm_compute; reflexivity).
  split; [exact Hq|]. split; [exact Hnone|]. split; [exact Hsel|].
  exact (rejected_submission_only_warns (js "t0") fresh_run q Hq Hnone (or_introl Hsel)).
Defined.

Lemma wrong_log_one_entry_per_number_witness :
  let log := [miss 7 "B"] in
  let records := [miss 3 "B"; miss 7 "C"; miss 3 "D"] in
  NoDup (map original_number log)
  /\ let final := fold_left upsert records log in
     NoDup (map original_number final)
     /\ (forall before record after,
           records = before ++ record :: after ->
           Forall (fun later => original_number later <> original_number record) after ->
           record ∈ final)
     /\ (forall entry,
           entry ∈ log ->
           Forall (fun later => original_number later <> original_number entry) records ->
           entry ∈ final)
     /\ forall record,
          (forall i entry, log !! i = Some entry ->
             original_number entry = original_number record ->
             upsert log record = <[i := record]> log)
          /\ (original_number record ∉ map original_number log ->
              upsert log record = log ++ [record]).
Proof.
  intros log records.
  assert (NoDup (map original_number log)) as H.
  { simpl. apply NoDup_singleton. }
  split; [exact H|]. exact (wrong_log_one_entry_per_number log records H).
Defined.

Example upsert_twice_keeps_position :
  fold_left upsert [miss 3 "B"; miss 7 "C"; miss 3 "D"] [miss 7 "B"]
  = [miss 7 "C"; miss 3 "D"].
Proof. vm_compute. reflexivity. Qed.

Lemma answer_record_is_write_once_witness :
  let events := [SubmitAnswer (js "t1"); ChangeOption (js "B") true; NextQuestion;
                 AutoNextFires; PreviousQuestion; SubmitAnswer (js "t2")] in
  answersState answered_run !! 0%nat = Some answered_record
  /\ Forall (fun e => within_run e = true) events
  /\ let st' := run always_half answered_run events in
     answersState st' !! 0%nat = Some answered_record
     /\ (currentIndex st' = 0%nat -> submitAnswer (js "t3") st' = st').
Proof.
  intros events.
  assert (answersState answered_run !! 0%nat = Some answered_record) as Hr
    by (vm_compute; reflexivity).
  assert (Forall (fun e => within_run e = true) events) as Hev
    by (repeat constructor).
  split; [exact Hr|]. split; [exact Hev|].
  exact (answer_record_is_write_once always_half answered_run events 0 answered_record
           (js "t3") Hr Hev).
Defined.

Lemma stray_answer_letter_never_correct_witness :
  let p := fst (prepareQuestion stray_question always_half 0%nat) in
  (1 < length (answer stray_question))%nat
  /\ (exists c, c ∈ answer stray_question /\ [c] ∉ obj_keys (options stray_question))
  /\ (length (shuffledAnswer p) < length (answer stray_question))%nat
  /\ exists r,
       answersState (submitAnswer (js "t0") stray_run) !! currentIndex stray_run = Some r
       /\ isCorrect r = false.
Proof.
  intros p.
  assert (1 < length (answer stray_question))%nat as Hlen by (simpl; lia).
  assert (exists c, c ∈ answer stray_question /\ [c] ∉ obj_keys (options stray_question))
    as Hstray.
  { exists 66. split; [vm_compute; apply list_elem_of_further, list_elem_of_here|].
    let keys := eval vm_compute in (obj_keys (options stray_question)) in
    change (obj_keys (options stray_question)) with keys.
    rewrite !elem_of_cons, elem_of_nil. intros [H|[H|H]]; [discriminate..|exact H]. }
  destruct (stray_answer_letter_never_correct stray_question always_half 0%nat Hlen Hstray)
    as [Hshort Hwrong].
  split; [exact Hlen|]. split; [exact Hstray|]. split; [exact Hshort|].
  destruct (answersState (submitAnswer (js "t0") stray_run) !! currentIndex stray_run)
    as [r|] eqn:Er; [|vm_compute in Er; discriminate].
  exists r. split; [reflexivity|].
  apply (Hwrong (js "t0") stray_run r); [vm_compute; reflexivity..| |exact Er].
  intros sel Hsel. vm_compute in Hsel. injection Hsel as <-.
  let keys := eval vm_compute in (obj_keys (shuffledOptions p)) in
  change (obj_keys (shuffledOptions p)) with keys.
  repeat constructor.
Defined.

(** ** Checks by evaluation *)

Example parse_mixed_blocks :
  parseQuestionsFromHtml mixed_blocks
  = [{| number := 3; text := js "Pick two" ++ 10 :: js "of these";
        options := [(js "A", js "first"); (js "B", js "second"); (js "C", js "third")];
        answer := js "AC"; images := [js "i1"; js "i2"] |}].
Proof. vm_compute. reflexivity. Qed.

(** A question line whose text holds a line feed is not a question line:
    the dot of the pattern stops there and the end anchor fails. *)
Example question_line_with_line_feed :
  QUESTION_RE (js "1. a" ++ 10 :: js "b") = None
  /\ QUESTION_RE (js "12.5 apples") = Some (js "12", js "5 apples").
Proof. split; vm_compute; reflexivity. Qed.

Example parse_without_answer :
  parseQuestionsFromHtml [textBlock "1. Q"; textBlock "A. x"] = [].
Proof. vm_compute. reflexivity. Qed.

Example shuffle_three :
  fst (shuffleArray [1; 2; 3] always_half 0%nat) = [1; 3; 2].
Proof. vm_compute. reflexivity. Qed.

Example sequential_run_of_two :
  map source
    (quizQuestions
       (startQuiz always_half (loaded [stray_question; scenario_question] ModeSequential)))
  = [scenario_question; stray_question].
Proof. vm_compute. reflexivity. Qed.

Example stray_question_prepared :
  shuffledAnswer (fst (prepareQuestion stray_question always_half 0%nat)) = js "A".
Proof. vm_compute. reflexivity. Qed.

Example answered_run_state :
  score answered_run = 0%nat
  /\ map user_answer (wrongAnswers answered_run) = [js "A"]
  /\ warning answered_run = NoWarning.
Proof. vm_compute. done. Qed.

(** * Further properties of the code *)

(** ** Sorting *)

Section SortBy.
Context {A : Type} (leb : A -> A -> bool).
Hypothesis leb_total : forall a b, leb a b = true \/ leb b a = true.
Hypothesis leb_trans : forall a b c, leb a b = true -> leb b c = true -> leb a c = true.
Hypothesis leb_antisym : forall a b, leb a b = true -> leb b a = true -> a = b.

Local Abbreviation ordered := (StronglySorted (fun a b => leb a b = true)).

Lemma insert_sorted_ordered x l : ordered l -> ordered (insert_sorted leb x l).
Proof.
  induction 1 as [|y r Hs IH Hy]; simpl; [repeat constructor|].
  destruct (leb x y) eqn:E.
  - constructor; [by constructor|]. constructor; [exact E|].
    eapply Forall_impl; [exact Hy|]. intros z Hz. by eapply leb_trans.
  - constructor; [exact IH|]. rewrite insert_sorted_Permutation.
    constructor; [|exact Hy]. destruct (leb_total x y); congruence.
Qed.

Lemma sort_by_ordered l : ordered (sort_by leb l).
Proof.
  unfold sort_by. induction l as [|x l IH]; simpl; [constructor|].
  by apply insert_sorted_ordered.
Qed.

Lemma ordered_Permutation_eq l l' : ordered l -> ordered l' -> l ≡ₚ l' -> l = l'.
Proof.
  intros Hl. revert l'. induction Hl as [|a r Hr IH Ha]; intros l' Hl' HP.
  - by apply Permutation_nil in HP.
  - destruct Hl' as [|b r' Hr' Hb]; [by apply Permutation_sym, Permutation_nil in HP|].
    assert (a = b) as ->.
    { assert (a ∈ b :: r') as Hin by (rewrite <- HP; left).
      assert (b ∈ a :: r) as Hin' by (rewrite HP; left).
      apply elem_of_cons in Hin as [->|Hin]; [done|].
      apply elem_of_cons in Hin' as [->|Hin']; [done|].
      rewrite Forall_forall in Ha, Hb. apply leb_antisym; auto. }
    f_equal. apply IH; [done|]. by apply Permutation_cons_inv in HP.
Qed.

Lemma sort_by_Permutation_eq l l' : l ≡ₚ l' -> sort_by leb l = sort_by leb l'.
Proof.
  intros HP. apply ordered_Permutation_eq; try apply sort_by_ordered.
  by rewrite !sort_by_Permutation.
Qed.

Lemma sort_by_ordered_id l : ordered l -> sort_by leb l = l.
Proof.
  intros Hl. apply ordered_Permutation_eq; [apply sort_by_ordered|exact Hl|].
  apply sort_by_Permutation.
Qed.
End SortBy.

Lemma jsstring_leb_total a b : jsstring_leb a b = true \/ jsstring_leb b a = true.
Proof.
  revert b. induction a as [|x a IH]; intros [|y b]; simpl; auto.
  destruct (N.ltb_spec x y), (N.ltb_spec y x); auto; lia.
Qed.

Lemma jsstring_leb_trans a b c :
  jsstring_leb a b = true -> jsstring_leb b c = true -> jsstring_leb a c = true.
Proof.
  revert b c. induction a as [|x a IH]; intros [|y b] [|z c]; simpl; try done.
  destruct (N.ltb_spec x y), (N.ltb_spec y x), (N.ltb_spec y z), (N.ltb_spec z y),
    (N.ltb_spec x z), (N.ltb_spec z x); try done; try lia.
  apply IH.
Qed.

Lemma jsstring_leb_antisym a b :
  jsstring_leb a b = true -> jsstring_leb b a = true -> a = b.
Proof.
  revert b. induction a as [|x a IH]; intros [|y b]; simpl; try done.
  destruct (N.ltb_spec x y), (N.ltb_spec y x); try done; try lia.
  intros H1 H2. f_equal; [lia|auto].
Qed.

Lemma sortLetters_Permutation_eq l l' : l ≡ₚ l' -> sortLetters l = sortLetters l'.
Proof.
  apply sort_by_Permutation_eq;
    [apply jsstring_leb_total|apply jsstring_leb_trans|apply jsstring_leb_antisym].
Qed.

Lemma sortLetters_ordered l :
  StronglySorted (fun a b => jsstring_leb a b = true) (sortLetters l).
Proof. apply sort_by_ordered; [apply jsstring_leb_total|apply jsstring_leb_trans]. Qed.

Lemma sortLetters_ordered_id l :
  StronglySorted (fun a b => jsstring_leb a b = true) l -> sortLetters l = l.
Proof.
  apply sort_by_ordered_id;
    [apply jsstring_leb_total|apply jsstring_leb_trans|apply jsstring_leb_antisym].
Qed.

Lemma join_split_units s : join (split_units s) = s.
Proof. unfold join, split_units. induction s; simpl; [done|]. by f_equal. Qed.

Lemma join_units_inj l l' :
  Forall unit_string l -> Forall unit_string l' -> join l = join l' -> l = l'.
Proof.
  unfold join. intros Hl. revert l'.
  induction Hl as [|u l Hu _ IH]; intros l' Hl' H; destruct Hl' as [|u' l' Hu' Hl'];
    simpl in *; try done.
  - destruct u' as [|? [|? ?]]; done.
  - destruct u as [|? [|? ?]]; done.
  - destruct u as [|c [|? ?]], u' as [|c' [|? ?]]; try done. simpl in H.
    injection H as -> H. f_equal. by apply IH.
Qed.


Lemma split_units_ordered s :
  StronglySorted N.le s ->
  StronglySorted (fun a b => jsstring_leb a b = true) (split_units s).
Proof.
  unfold split_units. induction 1 as [|c s Hs IH Hle]; simpl; constructor; [done|].
  clear IH Hs. induction Hle as [|d s Hcd _ IH]; simpl; constructor; [|done].
  simpl. destruct (N.ltb_spec c d), (N.ltb_spec d c); try done; lia.
Qed.

(** A string whose code units ascend is what sorting its letters gives. *)
Lemma sorted_units_id s :
  StronglySorted N.le s -> join (sortLetters (split_units s)) = s.
Proof.
  intros H. rewrite sortLetters_ordered_id by by apply split_units_ordered.
  apply join_split_units.
Qed.


(** ** Text normalisation *)

Lemma trimStart_clean s : starts_clean (trimStart s).
Proof.
  unfold trimStart. induction s as [|c r IH]; simpl; [done|].
  destruct (isWhiteSpace c) eqn:E; [|done]. by destruct (span isWhiteSpace r).
Qed.

Lemma trimStart_id s : starts_clean s -> trimStart s = s.
Proof. unfold trimStart. destruct s as [|c r]; simpl; [done|]. by intros ->. Qed.

Lemma trimStart_suffix s : exists w, s = w ++ trimStart s.
Proof. exists (fst (span isWhiteSpace s)). symmetry. apply span_app. Qed.

Lemma rev_trimStart_rev_clean t : starts_clean t -> starts_clean (rev (trimStart (rev t))).
Proof.
  intros Ht. destruct (trimStart_suffix (rev t)) as [w Hw].
  apply (f_equal (@rev _)) in Hw. rewrite rev_involutive, rev_app_distr in Hw.
  destruct (rev (trimStart (rev t))) as [|c u]; [done|]. subst t. exact Ht.
Qed.

Lemma trim_clean s : starts_clean (trim s) /\ starts_clean (rev (trim s)).
Proof.
  unfold trim. split.
  - apply rev_trimStart_rev_clean, trimStart_clean.
  - rewrite rev_involutive. apply trimStart_clean.
Qed.

Lemma trim_id s : starts_clean s -> starts_clean (rev s) -> trim s = s.
Proof.
  intros H1 H2. unfold trim. rewrite (trimStart_id s H1), (trimStart_id _ H2).
  apply rev_involutive.
Qed.

Lemma trim_idempotent s : trim (trim s) = trim s.
Proof. destruct (trim_clean s). by apply trim_id. Qed.

Lemma trim_Forall (P : code_unit -> Prop) s : Forall P s -> Forall P (trim s).
Proof.
  assert (forall t, Forall P t -> Forall P (trimStart t)) as Hstart.
  { intros t Ht. destruct (trimStart_suffix t) as [w Hw]. rewrite Hw in Ht.
    by apply Forall_app in Ht as [_ Ht]. }
  intros H. unfold trim. apply Forall_rev, Hstart, Forall_rev, Hstart, H.
Qed.

Lemma replaceNbsp_free s : Forall (fun c => c <> 0xA0) (replaceNbsp s).
Proof.
  unfold replaceNbsp. induction s as [|c s IH]; simpl; constructor; [|done].
  destruct (N.eqb_spec c 0xA0); [done|done].
Qed.

Lemma replaceNbsp_id s : Forall (fun c => c <> 0xA0) s -> replaceNbsp s = s.
Proof.
  unfold replaceNbsp. induction 1 as [|c s Hc _ IH]; simpl; [done|].
  rewrite IH. by destruct (N.eqb_spec c 0xA0).
Qed.

(** X1: [normalizeText] is idempotent, and its result has no white space at
    either end and no U+00A0 anywhere. *)
Theorem normalizeText_idempotent (t : jsstring) :
  normalizeText (normalizeText t) = normalizeText t
  /\ starts_clean (normalizeText t)
  /\ starts_clean (rev (normalizeText t))
  /\ Forall (fun c => c <> 0xA0) (normalizeText t).
Proof.
  assert (Forall (fun c => c <> 0xA0) (normalizeText t)) as Hfree
    by apply trim_Forall, replaceNbsp_free.
  split; [|split; [apply trim_clean|split; [apply trim_clean|exact Hfree]]].
  unfold normalizeText at 1. rewrite (replaceNbsp_id _ Hfree).
  unfold normalizeText. apply trim_idempotent.
Qed.

(** ** Images *)

Lemma existsb_jsstring_eqb src l : existsb (jsstring_eqb src) l = true <-> src ∈ l.
Proof.
  rewrite existsb_exists, list_elem_of_In. split.
  - intros (x & Hx & E). apply jsstring_eqb_true in E. by subst.
  - intros H. exists src. split; [done|]. by apply jsstring_eqb_true.
Qed.

Lemma appendUniqueImages_spec target imgs :
  (exists added, appendUniqueImages target imgs = target ++ added)
  /\ (NoDup target -> NoDup (appendUniqueImages target imgs))
  /\ forall src, src ∈ appendUniqueImages target imgs
                 <-> src ∈ target \/ (src ∈ imgs /\ src <> []).
Proof.
  unfold appendUniqueImages. revert target.
  induction imgs as [|img imgs IH]; intros target; simpl.
  - split; [exists []; by rewrite app_nil_r|]. split; [done|].
    intros src. rewrite elem_of_nil. tauto.
  - destruct (jsstring_eqb img []) eqn:Ee; simpl.
    { apply jsstring_eqb_true in Ee. subst img.
      destruct (IH target) as (Ha & Hb & Hc). split; [done|]. split; [done|].
      intros src. rewrite Hc, elem_of_cons. intuition congruence. }
    apply jsstring_eqb_false in Ee.
    destruct (existsb (jsstring_eqb img) target) eqn:Ex; simpl.
    { apply existsb_jsstring_eqb in Ex.
      destruct (IH target) as (Ha & Hb & Hc). split; [done|]. split; [done|].
      intros src. rewrite Hc, elem_of_cons. intuition (subst; auto). }
    assert (img ∉ target) as Hnot.
    { intros H. apply existsb_jsstring_eqb in H. congruence. }
    destruct (IH (target ++ [img])) as ([added Ha] & Hb & Hc). split; [|split].
    + exists (img :: added). rewrite Ha, <- app_assoc. done.
    + intros Hd. apply Hb. apply NoDup_app. split; [done|].
      split; [|apply NoDup_singleton].
      intros x Hx Hx'. apply list_elem_of_singleton in Hx'. by subst.
    + intros src. rewrite Hc, elem_of_app, list_elem_of_singleton, elem_of_cons.
      intuition congruence.
Qed.

Lemma appendUniqueImages_absorbed target imgs :
  (forall src, src ∈ imgs -> src = [] \/ src ∈ target) ->
  appendUniqueImages target imgs = target.
Proof.
  unfold appendUniqueImages. induction imgs as [|img imgs IH]; intros H; simpl; [done|].
  destruct (H img) as [->|Hin]; [left| |].
  - simpl. apply IH. intros src Hsrc. apply H. by right.
  - apply existsb_jsstring_eqb in Hin. rewrite Hin, andb_false_r.
    apply IH. intros src Hsrc. apply H. by right.
Qed.

(** X2: [appendUniqueImages] keeps the target as a prefix, keeps it free of
    repetition, adds exactly the non-empty references of the second list,
    and appending the same list once more changes nothing. *)
Theorem appendUniqueImages_adds_new_references (target imgs : list jsstring) :
  (exists added, appendUniqueImages target imgs = target ++ added)
  /\ (NoDup target -> NoDup (appendUniqueImages target imgs))
  /\ (forall src, src ∈ appendUniqueImages target imgs
                  <-> src ∈ target \/ (src ∈ imgs /\ src <> []))
  /\ appendUniqueImages (appendUniqueImages target imgs) imgs
     = appendUniqueImages target imgs.
Proof.
  destruct (appendUniqueImages_spec target imgs) as (Ha & Hb & Hc).
  split; [exact Ha|]. split; [exact Hb|]. split; [exact Hc|].
  apply appendUniqueImages_absorbed. intros src Hsrc.
  destruct (decide (src = [])) as [->|Hne]; [by left|].
  right. apply Hc. by right.
Qed.

Lemma images_ok_append (P : jsstring -> Prop) target imgs :
  images_ok P target -> Forall P imgs -> images_ok P (appendUniqueImages target imgs).
Proof.
  intros [Hd Hf] Hi. destruct (appendUniqueImages_spec target imgs) as (_ & Hb & Hc).
  split; [auto|]. rewrite Forall_forall in *. intros src Hsrc.
  apply Hc in Hsrc as [Hsrc|[Hsrc Hne]]; auto.
Qed.

Lemma images_ok_nil (P : jsstring -> Prop) : images_ok P [].
Proof. split; [apply NoDup_nil_2|constructor]. Qed.

(** The invariant of the scan for the image lists. *)
Lemma scan_images_ok (P : jsstring -> Prop) blocks p :
  Forall (fun b => Forall P (blk_images b)) blocks ->
  images_ok P (Parser.currentImages p) ->
  Forall (fun q => images_ok P (images q)) (Parser.questions p) ->
  images_ok P (Parser.currentImages (fold_left Parser.parse_block blocks p))
  /\ Forall (fun q => images_ok P (images q))
       (Parser.questions (fold_left Parser.parse_block blocks p)).
Proof.
  assert (forall p, images_ok P (Parser.currentImages p) ->
            Forall (fun q => images_ok P (images q)) (Parser.questions p) ->
            Forall (fun q => images_ok P (images q))
              (Parser.questions (Parser.flushCurrentQuestion p))) as Hflush.
  { intros p0 Hc Hq. unfold Parser.flushCurrentQuestion.
    destruct (Parser.currentNumber p0); [|done].
    destruct (Parser.currentAnswer p0) as [[|a a']|]; try done.
    destruct (negb _); [|done]. cbn [Parser.questions].
    apply Forall_app. split; [done|]. constructor; [exact Hc|constructor]. }
  intros Hb. revert p. induction Hb as [|b blocks Hb _ IH]; intros p Hc Hq; simpl; [done|].
  apply IH; unfold Parser.parse_block.
  - destruct (QUESTION_RE _) as [[digits rest]|]; cbn [Parser.currentImages].
    { by apply images_ok_append; [apply images_ok_nil|]. }
    destruct (OPTION_RE _) as [[letter rest]|]; cbn [Parser.currentImages].
    { by apply images_ok_append. }
    destruct (ANSWER_RE _); [done|].
    destruct (Parser.currentNumber p); [|done]. cbn [Parser.currentImages].
    by apply images_ok_append.
  - destruct (QUESTION_RE _) as [[digits rest]|]; cbn [Parser.questions].
    { by apply Hflush. }
    destruct (OPTION_RE _) as [[letter rest]|]; [done|].
    destruct (ANSWER_RE _); [done|].
    by destruct (Parser.currentNumber p).
Qed.

(** X3: the image list of every emitted question has no repetition and no
    empty reference, and each of its references is an image of one of the
    blocks. *)
Theorem parsed_question_images (blocks : list block) (q : question) :
  q ∈ parseQuestionsFromHtml blocks ->
  NoDup (images q)
  /\ Forall (fun src => src <> [] /\ exists b, b ∈ blocks /\ src ∈ blk_images b) (images q).
Proof.
  intros Hq. unfold parseQuestionsFromHtml in Hq.
  set (P := fun src : jsstring => exists b, b ∈ blocks /\ src ∈ blk_images b).
  destruct (scan_images_ok P blocks Parser.init) as [Hc Hqs].
  - apply Forall_forall. intros b Hb. apply Forall_forall. intros src Hsrc. by exists b.
  - apply images_ok_nil.
  - constructor.
  - set (p := fold_left Parser.parse_block blocks Parser.init) in *.
    assert (Forall (fun q => images_ok P (images q))
              (Parser.questions (Parser.flushCurrentQuestion p))) as Hall.
    { unfold Parser.flushCurrentQuestion.
      destruct (Parser.currentNumber p); [|done].
      destruct (Parser.currentAnswer p) as [[|a a']|]; try done.
      destruct (negb _); [|done]. cbn [Parser.questions].
      apply Forall_app. split; [done|]. constructor; [exact Hc|constructor]. }
    rewrite Forall_forall in Hall. exact (Hall q Hq).
Qed.

Lemma parsed_question_images_witness :
  let q := {| number := 3; text := js "Pick two" ++ 10 :: js "of these";
              options := [(js "A", js "first"); (js "B", js "second"); (js "C", js "third")];
              answer := js "AC"; images := [js "i1"; js "i2"] |} in
  q ∈ parseQuestionsFromHtml mixed_blocks
  /\ NoDup (images q)
  /\ Forall (fun src => src <> [] /\ exists b, b ∈ mixed_blocks /\ src ∈ blk_images b)
       (images q).
Proof.
  intros q.
  assert (q ∈ parseQuestionsFromHtml mixed_blocks) as H
    by (vm_compute; apply list_elem_of_here).
  split; [exact H|]. exact (parsed_question_images mixed_blocks q H).
Defined.

(** ** Questions and question lines *)

Lemma flush_length p :
  (length (Parser.questions (Parser.flushCurrentQuestion p))
   <= length (Parser.questions p) + in_progress p)%nat.
Proof.
  unfold Parser.flushCurrentQuestion, in_progress.
  destruct (Parser.currentNumber p); [|lia].
  destruct (Parser.currentAnswer p) as [[|a a']|]; try lia.
  destruct (negb _); [|lia]. cbn [Parser.questions]. rewrite length_app. simpl. lia.
Qed.

Lemma parse_block_length p b :
  (length (Parser.questions (Parser.parse_block p b)) + in_progress (Parser.parse_block p b)
   <= length (Parser.questions p) + in_progress p
      + (if is_question_line b then 1 else 0))%nat.
Proof.
  unfold Parser.parse_block, is_question_line.
  destruct (QUESTION_RE _) as [[digits rest]|].
  { pose proof (flush_length p). unfold in_progress at 1. simpl. lia. }
  destruct (OPTION_RE _) as [[letter rest]|]; [unfold in_progress; simpl; lia|].
  destruct (ANSWER_RE _); [unfold in_progress; simpl; lia|].
  unfold in_progress. destruct (Parser.currentNumber p) eqn:E; simpl; rewrite ?E; lia.
Qed.

Lemma scan_length blocks p :
  (length (Parser.questions (fold_left Parser.parse_block blocks p))
   + in_progress (fold_left Parser.parse_block blocks p)
   <= length (Parser.questions p) + in_progress p
      + length (filter (fun b => is_question_line b = true) blocks))%nat.
Proof.
  revert p. induction blocks as [|b blocks IH]; intros p; simpl; [lia|].
  specialize (IH (Parser.parse_block p b)). pose proof (parse_block_length p b).
  rewrite filter_cons. destruct (is_question_line b); simpl; lia.
Qed.

(** The numbers of the scan all satisfy a property of the numbers written on
    the question lines. *)
Lemma scan_numbers (P : N -> Prop) blocks p :
  Forall (fun b => forall digits rest,
            QUESTION_RE (normalizeText (blk_text b)) = Some (digits, rest) ->
            P (Number_of_digits digits)) blocks ->
  Forall (fun q => P (number q)) (Parser.questions p) ->
  (forall n, Parser.currentNumber p = Some n -> P n) ->
  Forall (fun q => P (number q))
    (Parser.questions (Parser.flushCurrentQuestion (fold_left Parser.parse_block blocks p))).
Proof.
  assert (forall p, Forall (fun q => P (number q)) (Parser.questions p) ->
            (forall n, Parser.currentNumber p = Some n -> P n) ->
            Forall (fun q => P (number q))
              (Parser.questions (Parser.flushCurrentQuestion p))) as Hflush.
  { intros p0 Hq Hn. unfold Parser.flushCurrentQuestion.
    destruct (Parser.currentNumber p0) as [n|]; [|done].
    destruct (Parser.currentAnswer p0) as [[|a a']|]; try done.
    destruct (negb _); [|done]. cbn [Parser.questions].
    apply Forall_app. split; [done|]. constructor; [by apply Hn|constructor]. }
  intros Hb. revert p. induction Hb as [|b blocks Hb _ IH]; intros p Hq Hn; simpl; [auto|].
  apply IH; unfold Parser.parse_block.
  - destruct (QUESTION_RE _) as [[digits rest]|]; [by apply Hflush|].
    destruct (OPTION_RE _) as [[letter rest]|]; [done|].
    destruct (ANSWER_RE _); [done|]. by destruct (Parser.currentNumber p).
  - destruct (QUESTION_RE _) as [[digits rest]|] eqn:E.
    { intros n [= <-]. by eapply Hb. }
    destruct (OPTION_RE _) as [[letter rest]|]; [exact Hn|].
    destruct (ANSWER_RE _); [exact Hn|].
    destruct (Parser.currentNumber p) eqn:En; [exact Hn|]. intros n. by rewrite En.
Qed.

(** X4: the parser emits at most one question per question line, so a
    document without a question line gives no question at all; and when the
    numbers written on the question lines are below 2^53, where [Number] is
    exact, the number of every emitted question is the number written on a
    question line. *)
Theorem parsed_questions_come_from_question_lines (blocks : list block) :
  (length (parseQuestionsFromHtml blocks)
   <= length (filter (fun b => is_question_line b = true) blocks))%nat
  /\ (Forall (fun b => is_question_line b = false) blocks ->
      parseQuestionsFromHtml blocks = [])
  /\ (Forall (fun b => exact_question_number b = true) blocks ->
      Forall (fun q => exists b digits rest,
                b ∈ blocks
                /\ QUESTION_RE (normalizeText (blk_text b)) = Some (digits, rest)
                /\ number q = Number_of_digits digits
                /\ number q < 2 ^ 53)
        (parseQuestionsFromHtml blocks)).
Proof.
  assert (length (parseQuestionsFromHtml blocks)
          <= length (filter (fun b => is_question_line b = true) blocks))%nat as Hlen.
  { unfold parseQuestionsFromHtml.
    pose proof (scan_length blocks Parser.init) as H.
    pose proof (flush_length (fold_left Parser.parse_block blocks Parser.init)) as H'.
    unfold in_progress at 2 in H. simpl in H. lia. }
  split; [exact Hlen|]. split.
  - intros Hnone.
    assert (filter (fun b => is_question_line b = true) blocks = []) as E.
    { clear Hlen. induction Hnone as [|b bs Hb _ IH]; [done|].
      rewrite filter_cons, decide_False by congruence. exact IH. }
    rewrite E in Hlen. destruct (parseQuestionsFromHtml blocks); [done|simpl in Hlen; lia].
  - intros Hexact. unfold parseQuestionsFromHtml.
    apply (scan_numbers
             (fun n => exists b digits rest,
                b ∈ blocks
                /\ QUESTION_RE (normalizeText (blk_text b)) = Some (digits, rest)
                /\ n = Number_of_digits digits
                /\ n < 2 ^ 53)); [|constructor|done].
    apply Forall_forall. intros b Hb digits rest E. exists b, digits, rest.
    split; [exact Hb|]. split; [exact E|]. split; [reflexivity|].
    rewrite Forall_forall in Hexact. specialize (Hexact b Hb).
    unfold exact_question_number in Hexact. rewrite E in Hexact.
    by apply N.ltb_lt.
Qed.

Lemma parsed_questions_come_from_question_lines_witness :
  Forall (fun b => exact_question_number b = true) mixed_blocks
  /\ Forall (fun q => exists b digits rest,
               b ∈ mixed_blocks
               /\ QUESTION_RE (normalizeText (blk_text b)) = Some (digits, rest)
               /\ number q = Number_of_digits digits
               /\ number q < 2 ^ 53)
       (parseQuestionsFromHtml mixed_blocks).
Proof.
  assert (Forall (fun b => exact_question_number b = true) mixed_blocks) as H.
  { unfold mixed_blocks.
    repeat (apply Forall_cons_2; [vm_compute; reflexivity|]). apply Forall_nil_2. }
  split; [exact H|].
  exact (proj2 (proj2 (parsed_questions_come_from_question_lines mixed_blocks)) H).
Defined.

(** ** Concatenation of banks *)

Lemma flush_emitted_before qs p :
  Parser.flushCurrentQuestion (emitted_before qs p)
  = emitted_before qs (Parser.flushCurrentQuestion p).
Proof.
  destruct p as [qs0 txt opts imgs [n|] [[|a a']|]];
    unfold Parser.flushCurrentQuestion, emitted_before; cbn; try done.
  destruct (negb _); cbn; [|done]. by rewrite app_assoc.
Qed.

Lemma parse_block_emitted_before qs p b :
  Parser.parse_block (emitted_before qs p) b
  = emitted_before qs (Parser.parse_block p b).
Proof.
  unfold Parser.parse_block.
  destruct (QUESTION_RE _) as [[digits rest]|].
  { rewrite flush_emitted_before. done. }
  destruct (OPTION_RE _) as [[letter rest]|]; [done|].
  destruct (ANSWER_RE _); [done|].
  by destruct p as [qs0 txt opts imgs [n|] ans].
Qed.

Lemma scan_emitted_before qs blocks p :
  fold_left Parser.parse_block blocks (emitted_before qs p)
  = emitted_before qs (fold_left Parser.parse_block blocks p).
Proof.
  revert p. induction blocks as [|b blocks IH]; intros p; simpl; [done|].
  by rewrite parse_block_emitted_before, IH.
Qed.

(** X5: a bank may be cut before any question line: the questions of the
    whole are the questions of the part before the line followed by the
    questions of the part from the line on. *)
Theorem parse_splits_at_question_line (before after : list block) (line : block) :
  is_question_line line = true ->
  parseQuestionsFromHtml (before ++ line :: after)
  = parseQuestionsFromHtml before ++ parseQuestionsFromHtml (line :: after).
Proof.
  intros Hline. unfold parseQuestionsFromHtml. rewrite fold_left_app. simpl.
  set (p := fold_left Parser.parse_block before Parser.init).
  assert (Parser.parse_block p line
          = emitted_before (Parser.questions (Parser.flushCurrentQuestion p))
              (Parser.parse_block Parser.init line)) as ->.
  { unfold Parser.parse_block, is_question_line in *.
    destruct (QUESTION_RE _) as [[digits rest]|]; [|done].
    unfold emitted_before. cbn. by rewrite app_nil_r. }
  rewrite scan_emitted_before, flush_emitted_before. done.
Qed.

Lemma parse_splits_at_question_line_witness :
  let line := textBlock "2. R" in
  is_question_line line = true
  /\ parseQuestionsFromHtml (scenario_blocks ++ line :: [textBlock "A. y"; textBlock "Answer: A"])
     = parseQuestionsFromHtml scenario_blocks
       ++ parseQuestionsFromHtml (line :: [textBlock "A. y"; textBlock "Answer: A"]).
Proof.
  intros line.
  assert (is_question_line line = true) as H by (vm_compute; reflexivity).
  split; [exact H|]. exact (parse_splits_at_question_line scenario_blocks _ line H).
Defined.

(** ** The shape of an emitted question *)




(** ** Extraction of the blocks *)

Lemma node_ind_nested (P : node -> Prop) :
  (forall data, P (TextNode data)) ->
  (forall tag src childNodes, Forall P childNodes -> P (Element tag src childNodes)) ->
  P OtherNode ->
  forall n, P n.
Proof.
  intros Ht He Ho. fix IH 1. intros [data|tag src childNodes|]; [apply Ht| |apply Ho].
  apply He. induction childNodes as [|c cs IHcs]; constructor; [apply IH|apply IHcs].
Qed.

Lemma normalizeText_again t : normalizeText (normalizeText t) = normalizeText t.
Proof.
  unfold normalizeText at 1.
  rewrite replaceNbsp_id by apply trim_Forall, replaceNbsp_free.
  apply trim_idempotent.
Qed.

Lemma truthy_src_nonempty src : Forall (fun s => s <> []) (truthy_src src).
Proof. destruct src as [[|c s]|]; simpl; repeat constructor. done. Qed.

Lemma img_sources_Element tag src childNodes :
  img_sources (Element tag src childNodes)
  = (if jsstring_eqb tag (js "img") then truthy_src src else [])
    ++ flat_map img_sources childNodes.
Proof. reflexivity. Qed.

Lemma walkElement_Element tag src childNodes :
  walkElement (Element tag src childNodes)
  = if jsstring_eqb tag (js "img") then
      match truthy_src src with
      | s :: _ => [{| blk_text := []; blk_images := [s] |}]
      | [] => []
      end
    else if existsb (jsstring_eqb tag) blockTags then
      let text := normalizeText (concat (map textContent childNodes)) in
      let images := flat_map img_sources childNodes in
      if negb (jsstring_eqb text []) || Nat.ltb 0 (length images)
      then [{| blk_text := text; blk_images := images |}]
      else []
    else if forallb (fun n => negb (is_element n)) childNodes then
      text_block (normalizeText (concat (map textContent childNodes)))
    else flat_map walkElement childNodes.
Proof. reflexivity. Qed.

Lemma img_sources_nonempty n : Forall (fun s => s <> []) (img_sources n).
Proof.
  induction n as [data|tag src childNodes IH|] using node_ind_nested;
    [constructor| |constructor].
  rewrite img_sources_Element. apply Forall_app. split.
  - destruct (jsstring_eqb tag (js "img")); [apply truthy_src_nonempty|constructor].
  - induction IH as [|c cs Hc _ IHcs]; simpl; [constructor|]. by apply Forall_app.
Qed.

Lemma text_block_ok t : Forall block_ok (text_block (normalizeText t)).
Proof.
  unfold text_block. destruct (jsstring_eqb _ []) eqn:E; [constructor|].
  apply jsstring_eqb_false in E. constructor; [|constructor].
  split; [by left|]. split; [apply normalizeText_again|constructor].
Qed.

Lemma walkElement_ok n : Forall block_ok (walkElement n).
Proof.
  induction n as [data|tag src childNodes IH|] using node_ind_nested;
    [constructor| |constructor].
  rewrite walkElement_Element. cbv zeta.
  destruct (jsstring_eqb tag (js "img")).
  { pose proof (truthy_src_nonempty src) as Hs.
    destruct (truthy_src src) as [|s l]; constructor; [|constructor].
    apply Forall_cons in Hs as [Hs _].
    split; [by right|]. split; [done|]. by constructor. }
  destruct (existsb (jsstring_eqb tag) blockTags).
  { destruct (_ || _) eqn:E; constructor; [|constructor].
    assert (Forall (fun s => s <> []) (flat_map img_sources childNodes)) as Himgs.
    { clear. induction childNodes as [|c cs IHcs]; simpl; [constructor|].
      apply Forall_app. split; [apply img_sources_nonempty|exact IHcs]. }
    split; [|split; [apply normalizeText_again|exact Himgs]]. cbn [blk_text blk_images].
    apply orb_true_iff in E as [E|E].
    - left. apply negb_true_iff, jsstring_eqb_false in E. exact E.
    - right. apply Nat.ltb_lt in E. destruct (flat_map img_sources childNodes); [simpl in E; lia|done]. }
  destruct (forallb _ childNodes); [apply text_block_ok|].
  induction IH as [|c cs Hc _ IHcs]; simpl; [constructor|]. by apply Forall_app.
Qed.

(** X7: every block that [extractBlocksFromHtml] yields has a non-empty text
    or at least one image, its text is already normalised (so the parser's
    own normalisation leaves it as it is), and none of its image references
    is empty. *)
Theorem extracted_blocks_are_normalised (body : list node) :
  Forall (fun b => (blk_text b <> [] \/ blk_images b <> [])
                   /\ normalizeText (blk_text b) = blk_text b
                   /\ Forall (fun src => src <> []) (blk_images b))
    (extractBlocksFromHtml body).
Proof.
  unfold extractBlocksFromHtml. induction body as [|n body IH]; simpl; [constructor|].
  apply Forall_app. split; [|exact IH].
  destruct n as [data|tag src childNodes|]; unfold extract_node.
  - apply text_block_ok.
  - apply walkElement_ok.
  - constructor.
Qed.

Example extract_scenario :
  extractBlocksFromHtml
    [TextNode (js " "); paragraph "1. What is 2+2?";
     Element (js "ol") None [Element (js "li") None [TextNode (js "A. 3")]; TextNode [10];
                             Element (js "li") None [TextNode (js "B. 4 ")]];
     OtherNode; Element (js "div") None [TextNode (js "Answer: B")];
     Element (js "p") None []]
  = scenario_blocks.
Proof. vm_compute. reflexivity. Qed.

(** ** The shuffled options of a prepared question *)

Lemma obj_keys_set_new {V} (o : obj V) k v :
  k ∉ obj_keys o -> obj_keys (obj_set o k v) = obj_keys o ++ [k].
Proof.
  unfold obj_keys. induction o as [|[k0 v0] o IH]; simpl; intros Hk; [done|].
  apply not_elem_of_cons in Hk as [Hne Hk].
  destruct (jsstring_eqb k0 k) eqn:E.
  - apply jsstring_eqb_true in E. congruence.
  - simpl. by rewrite IH.
Qed.

Lemma obj_get_elem {V} (o : obj V) k v :
  NoDup (obj_keys o) -> (k, v) ∈ o -> obj_get o k = Some v.
Proof.
  unfold obj_keys. induction o as [|[k0 v0] o IH]; simpl; intros Hd Hin.
  - by apply elem_of_nil in Hin.
  - apply NoDup_cons in Hd as [Hnot Hd].
    apply elem_of_cons in Hin as [[= -> ->]|Hin].
    + by rewrite (proj2 (jsstring_eqb_true k0 k0) eq_refl).
    + destruct (jsstring_eqb k0 k) eqn:E; [|auto].
      apply jsstring_eqb_true in E. subst. exfalso. apply Hnot.
      apply list_elem_of_In, in_map_iff. exists (k, v). split; [done|].
      by apply list_elem_of_In.
Qed.

Lemma assign_shuffled_keys_take newLetters items index m :
  NoDup newLetters ->
  (index + length items <= length newLetters)%nat ->
  obj_keys (m_shuffledOptions m) = take index newLetters ->
  obj_keys (m_shuffledOptions (assign_letters newLetters items index m))
  = take (index + length items) newLetters.
Proof.
  intros Hd. revert index m. induction items as [|[orig txt] items IH];
    intros index m Hlen Hkeys; simpl in *.
  - by rewrite Nat.add_0_r.
  - destruct (lookup_lt_is_Some_2 newLetters index ltac:(lia)) as [L HL].
    replace (index + S (length items))%nat with (S index + length items)%nat by lia.
    apply IH; [lia|]. unfold assign_letter. rewrite HL. simpl.
    rewrite obj_keys_set_new.
    + rewrite Hkeys. symmetry. by apply take_S_r.
    + rewrite Hkeys. intros Hin. apply elem_of_take in Hin as (i & Hi & Hlt).
      pose proof (NoDup_lookup _ _ _ _ Hd Hi HL). lia.
Qed.

Lemma assign_shuffled_text (all : obj jsstring) newLetters items index m :
  NoDup (obj_keys all) ->
  Forall (fun item => item ∈ all) items ->
  (forall l o, obj_get (m_optionMapping m) l = Some o ->
               obj_get (m_shuffledOptions m) l = obj_get all o) ->
  forall l o,
    obj_get (m_optionMapping (assign_letters newLetters items index m)) l = Some o ->
    obj_get (m_shuffledOptions (assign_letters newLetters items index m)) l = obj_get all o.
Proof.
  intros Hd Hitems. revert index m.
  induction Hitems as [|[orig txt] items Hitem _ IH]; intros index m Hm; simpl; [exact Hm|].
  apply IH. unfold assign_letter. simpl. intros l o. rewrite !obj_get_set.
  destruct (jsstring_eqb _ l); [|apply Hm].
  intros [= <-]. symmetry. by apply obj_get_elem.
Qed.

Lemma prepareQuestion_shuffled_keys q rnd n :
  letter_keys (options q) ->
  obj_keys (shuffledOptions (fst (prepareQuestion q rnd n)))
  = take (length (options q)) LETTERS.
Proof.
  intros Hk. unfold prepareQuestion, bind.
  pose proof (shuffleArray_Permutation (options q) rnd n) as HP.
  destruct (shuffleArray (options q) rnd n) as [items n1]. simpl in *.
  pose proof (letter_keys_length _ Hk) as Hlen.
  assert (length items = length (options q)) as Hl by by rewrite HP.
  rewrite assign_shuffled_keys_take with (index := 0%nat); try done.
  - simpl. rewrite take_take. f_equal. lia.
  - eapply sublist_NoDup; [apply LETTERS_NoDup|apply sublist_take].
  - rewrite length_take. unfold LETTERS. simpl. lia.
Qed.

(** X8: the shuffled options of a prepared question (distinct option keys
    among A to F) are labelled with the first letters of A to F in order,
    as many as there are options, and each label shows the text of the
    original option that [optionMapping] names for it. *)
Theorem shuffled_options_relabel_the_options (q : question) (rnd : nat -> draw) (n : nat) :
  letter_keys (options q) ->
  let p := fst (prepareQuestion q rnd n) in
  obj_keys (shuffledOptions p) = take (length (options q)) LETTERS
  /\ forall letter original,
       obj_get (optionMapping p) letter = Some original ->
       obj_get (shuffledOptions p) letter = obj_get (options q) original.
Proof.
  intros Hk p. split; [by apply prepareQuestion_shuffled_keys|].
  unfold p, prepareQuestion, bind.
  pose proof (shuffleArray_Permutation (options q) rnd n) as HP.
  destruct (shuffleArray (options q) rnd n) as [items n1]. simpl in *.
  apply assign_shuffled_text; [apply Hk| |done].
  apply Forall_forall. intros item Hitem. by rewrite <- HP.
Qed.

Lemma shuffled_options_relabel_the_options_witness :
  letter_keys (options scenario_question)
  /\ let p := fst (prepareQuestion scenario_question always_half 0%nat) in
     obj_keys (shuffledOptions p) = take (length (options scenario_question)) LETTERS
     /\ forall letter original,
          obj_get (optionMapping p) letter = Some original ->
          obj_get (shuffledOptions p) letter = obj_get (options scenario_question) original.
Proof.
  assert (letter_keys (options scenario_question)) as H.
  { unfold letter_keys.
    let keys := eval vm_compute in (obj_keys (options scenario_question)) in
    change (obj_keys (options scenario_question)) with keys.
    let letters := eval vm_compute in LETTERS in change LETTERS with letters.
    split.
    - apply NoDup_cons. split; [|apply NoDup_singleton].
      rewrite list_elem_of_singleton. discriminate.
    - intros k. rewrite !elem_of_cons, !elem_of_nil. intuition. }
  split; [exact H|].
  exact (shuffled_options_relabel_the_options scenario_question always_half 0%nat H).
Defined.

(** ** Correctness of a submission *)

Lemma prepareQuestion_shuffledAnswer q rnd n :
  let p := fst (prepareQuestion q rnd n) in
  shuffledAnswer p
  = join (sortLetters
            (filter_Boolean
               (map (lookup_reverse (reverseMapping p)) (split_units (answer q))))).
Proof. unfold prepareQuestion, bind. by destruct (shuffleArray (options q) rnd n). Qed.

Lemma LETTERS_elem_unit k : k ∈ LETTERS -> unit_string k.
Proof. intros H. pose proof LETTERS_unit as HU. rewrite Forall_forall in HU. auto. Qed.

Lemma unit_string_nonempty s : unit_string s -> s <> [].
Proof. unfold unit_string. by destruct s. Qed.

Lemma filter_Boolean_Some l :
  Forall (fun s => s <> []) l -> filter_Boolean (map Some l) = l.
Proof.
  induction 1 as [|s l Hs _ IH]; simpl; [done|]. destruct s; [done|]. by rewrite IH.
Qed.

Lemma sortLetters_unit l : Forall unit_string l -> Forall unit_string (sortLetters l).
Proof. intros H. unfold sortLetters. by rewrite sort_by_Permutation. Qed.

Lemma join_sortLetters_inj l l' :
  Forall unit_string l -> Forall unit_string l' ->
  join (sortLetters l) = join (sortLetters l') -> l ≡ₚ l'.
Proof.
  intros Hl Hl' H. apply join_units_inj in H; try by apply sortLetters_unit.
  unfold sortLetters in H. rewrite <- (sort_by_Permutation jsstring_leb l), H.
  apply sort_by_Permutation.
Qed.

(** The facts about a prepared question that scoring rests on. *)
Lemma prepared_translation q rnd n :
  letter_keys (options q) ->
  answer_within_options q ->
  let p := fst (prepareQuestion q rnd n) in
  (forall l, l ∈ obj_keys (shuffledOptions p) ->
     unit_string l /\ unit_string (toOriginal p l)
     /\ lookup_reverse (reverseMapping p) (toOriginal p l) = Some l)
  /\ exists shuffled,
       Forall unit_string shuffled
       /\ shuffledAnswer p = join (sortLetters shuffled)
       /\ map (lookup_reverse (reverseMapping p)) (split_units (answer q)) = map Some shuffled
       /\ map (toOriginal p) shuffled = split_units (answer q).
Proof.
  intros Hk Hans p.
  destruct (prepareQuestion_mappings_ok q rnd n Hk) as ((Ha & Hb & Hc) & Hdef & Himg).
  fold p in Ha, Hb, Hc, Hdef, Himg. simpl in Ha, Hb, Hc.
  assert (forall l, l ∈ obj_keys (shuffledOptions p) -> unit_string l) as Hunit.
  { intros l Hl. unfold p in Hl. rewrite prepareQuestion_shuffled_keys in Hl by done.
    apply elem_of_take in Hl as (i & Hi & _).
    by eapply LETTERS_elem_unit, list_elem_of_lookup_2. }
  assert (forall l, l ∈ obj_keys (shuffledOptions p) ->
            exists o, obj_get (optionMapping p) l = Some o /\ toOriginal p l = o
                      /\ o ∈ obj_keys (options q)) as Hfwd.
  { intros l Hl. apply Ha in Hl as [o Ho]. exists o. split; [done|].
    pose proof (Himg _ _ Ho) as Hin. split; [|done].
    unfold toOriginal. rewrite Ho.
    pose proof (letter_keys_nonempty _ _ Hk Hin). by destruct o. }
  split.
  { intros l Hl. destruct (Hfwd l Hl) as (o & Ho & -> & Hin).
    split; [by apply Hunit|]. split; [apply LETTERS_elem_unit; by apply Hk|].
    unfold lookup_reverse. by rewrite (Hb _ _ Ho). }
  assert (exists shuffled,
            map (lookup_reverse (reverseMapping p)) (split_units (answer q)) = map Some shuffled
            /\ Forall (fun l => l ∈ obj_keys (shuffledOptions p)) shuffled
            /\ map (toOriginal p) shuffled = split_units (answer q)) as (shuffled & Hmap & Hkeys & Hback).
  { unfold answer_within_options in Hans. unfold split_units.
    induction (answer q) as [|c s IH]; [by exists []|].
    destruct IH as (sh & IH1 & IH2 & IH3); [intros c' Hc'; apply Hans; by right|].
    destruct (Hdef [c]) as [v Hv]; [apply Hans; left|].
    destruct (Hc _ _ Hv) as (l & -> & Hl).
    assert (l ∈ obj_keys (shuffledOptions p)) as Hlin by (apply Ha; eauto).
    exists (l :: sh). simpl. split; [|split].
    - unfold lookup_reverse at 1. by rewrite Hv, IH1.
    - by constructor.
    - rewrite IH3. f_equal. destruct (Hfwd l Hlin) as (o & Ho & -> & _). congruence. }
  exists shuffled.
  assert (Forall unit_string shuffled) as Hsu.
  { eapply Forall_impl; [exact Hkeys|]. exact Hunit. }
  split; [exact Hsu|]. split; [|done].
  pose proof (prepareQuestion_shuffledAnswer q rnd n) as Hsa. fold p in Hsa. simpl in Hsa.
  rewrite Hsa, Hmap, filter_Boolean_Some; [done|].
  eapply Forall_impl; [exact Hsu|]. apply unit_string_nonempty.
Qed.

(** X9: for a question with distinct option keys among A to F whose answer
    letters are option keys in ascending order, an accepted submission of
    displayed letters is marked correct exactly when its translation to the
    original letters is the answer of the question. *)
Theorem submission_correct_iff_original_answer
    (q : question) (rnd : nat -> draw) (n : nat) (now : jsstring) (st : app)
    (sel : list jsstring) (r : answerRecord) :
  letter_keys (options q) ->
  answer_within_options q ->
  StronglySorted N.le (answer q) ->
  let p := fst (prepareQuestion q rnd n) in
  quizQuestions st !! currentIndex st = Some p ->
  answersState st !! currentIndex st = None ->
  draftSelections st !! currentIndex st = Some sel ->
  Forall (fun letter => letter ∈ obj_keys (shuffledOptions p)) sel ->
  answersState (submitAnswer now st) !! currentIndex st = Some r ->
  isCorrect r = true <-> userAnswerOriginal r = answer q.
Proof.
  intros Hk Hans Hsorted p Hq Hnone Hdraft Hsel.
  destruct (prepared_translation q rnd n Hk Hans) as (Htr & shuffled & Hsu & Hsa & Hmap & Hback).
  fold p in Htr, Hsa, Hmap, Hback.
  unfold submitAnswer. rewrite Hq, Hnone, Hdraft. simpl default.
  set (selected := sortLetters sel).
  assert (selected ≡ₚ sel) as Hperm by apply sort_by_Permutation.
  assert (Forall (fun letter => letter ∈ obj_keys (shuffledOptions p)) selected) as Hsel'
    by by rewrite Hperm.
  assert (Forall unit_string selected) as Hu.
  { eapply Forall_impl; [exact Hsel'|]. intros l Hl. by apply Htr. }
  assert (Forall unit_string (map (toOriginal p) selected)) as Huo.
  { clear -Hsel' Htr. induction Hsel' as [|l ls Hl _ IH]; simpl; constructor; [|done].
    by apply Htr. }
  assert (map (lookup_reverse (reverseMapping p)) (map (toOriginal p) selected)
          = map Some selected) as Hround.
  { clear -Hsel' Htr. induction Hsel' as [|l ls Hl _ IH]; simpl; [done|].
    rewrite IH. f_equal. by apply Htr. }
  assert (sortLetters selected = selected) as Hid.
  { apply sortLetters_ordered_id, sortLetters_ordered. }
  destruct (Nat.eqb (length selected) 0); [simpl; by rewrite Hnone|].
  destruct (_ && _); [simpl; by rewrite Hnone|].
  simpl. rewrite lookup_insert_eq. intros [= <-]. simpl.
  rewrite jsstring_eqb_true, Hsa, <- (sorted_units_id (answer q) Hsorted).
  split.
  - intros H. rewrite <- Hid in H. apply join_sortLetters_inj in H; [|done..].
    f_equal. apply sortLetters_Permutation_eq. rewrite <- Hback.
    by apply Permutation_map.
  - intros H. apply join_sortLetters_inj in H; [|done|apply split_units_unit].
    apply (Permutation_map (lookup_reverse (reverseMapping p))) in H.
    rewrite Hround, Hmap in H.
    apply Permutation_map_inv in H as (l3 & Heq & HP3).
    assert (selected = l3) as <-.
    { clear -Heq. revert l3 Heq. induction selected as [|x xs IH]; intros [|y ys] Heq;
        simpl in *; try done. injection Heq as -> Heq. f_equal. by apply IH. }
    rewrite <- Hid at 1. f_equal. apply sortLetters_Permutation_eq. by symmetry.
Qed.

Lemma submission_correct_iff_original_answer_witness :
  let p := fst (prepareQuestion scenario_question always_half 0%nat) in
  let r := {| selected := [js "B"]; isCorrect := true;
              userAnswerShuffled := js "B"; userAnswerOriginal := js "B" |} in
  letter_keys (options scenario_question)
  /\ answer_within_options scenario_question
  /\ StronglySorted N.le (answer scenario_question)
  /\ quizQuestions right_draft_run !! currentIndex right_draft_run = Some p
  /\ answersState right_draft_run !! currentIndex right_draft_run = None
  /\ draftSelections right_draft_run !! currentIndex right_draft_run = Some [js "B"]
  /\ Forall (fun letter => letter ∈ obj_keys (shuffledOptions p)) [js "B"]
  /\ answersState (submitAnswer (js "t0") right_draft_run) !! currentIndex right_draft_run
     = Some r
  /\ (isCorrect r = true <-> userAnswerOriginal r = answer scenario_question).
Proof.
  intros p r.
  assert (letter_keys (options scenario_question)) as H1.
  { unfold letter_keys.
    let keys := eval vm_compute in (obj_keys (options scenario_question)) in
    change (obj_keys (options scenario_question)) with keys.
    let letters := eval vm_compute in LETTERS in change LETTERS with letters.
    split.
    - apply NoDup_cons. split; [|apply NoDup_singleton].
      rewrite list_elem_of_singleton. discriminate.
    - intros k. rewrite !elem_of_cons, !elem_of_nil. intuition. }
  assert (answer_within_options scenario_question) as H2.
  { unfold answer_within_options.
    let keys := eval vm_compute in (obj_keys (options scenario_question)) in
    change (obj_keys (options scenario_question)) with keys.
    let a := eval vm_compute in (answer scenario_question) in
    change (answer scenario_question) with a.
    intros c Hc. apply list_elem_of_singleton in Hc. subst.
    apply list_elem_of_further, list_elem_of_here. }
  assert (StronglySorted N.le (answer scenario_question)) as H3
    by (repeat constructor).
  assert (quizQuestions right_draft_run !! currentIndex right_draft_run = Some p) as H4
    by (vm_compute; reflexivity).
  assert (answersState right_draft_run !! currentIndex right_draft_run = None) as H5
    by (vm_compute; reflexivity).
  assert (draftSelections right_draft_run !! currentIndex right_draft_run = Some [js "B"])
    as H6 by (vm_compute; reflexivity).
  assert (Forall (fun letter => letter ∈ obj_keys (shuffledOptions p)) [js "B"]) as H7.
  { let keys := eval vm_compute in (obj_keys (shuffledOptions p)) in
    change (obj_keys (shuffledOptions p)) with keys.
    constructor; [|constructor]. apply list_elem_of_further, list_elem_of_here. }
  assert (answersState (submitAnswer (js "t0") right_draft_run)
            !! currentIndex right_draft_run = Some r) as H8
    by (vm_compute; reflexivity).
  repeat (split; [assumption|]).
  exact (submission_correct_iff_original_answer scenario_question always_half 0%nat
           (js "t0") right_draft_run [js "B"] r H1 H2 H3 H4 H5 H6 H7 H8).
Defined.

(** ** The settings dialog *)

Lemma sortedQuestions_length qs : length (sortedQuestions qs) = length qs.
Proof. apply sort_by_length. Qed.

Lemma sortedQuestions_nonempty qs : qs <> [] -> sortedQuestions qs <> [].
Proof.
  intros Hne E. apply (f_equal length) in E. rewrite sortedQuestions_length in E.
  by destruct qs.
Qed.

Lemma computeSequentialMaxCount_range sorted start :
  (1 <= computeSequentialMaxCount sorted start <= Z.max 1 (Z.of_nat (length sorted)))%Z.
Proof.
  unfold computeSequentialMaxCount. destruct sorted as [|q l]; [simpl; lia|]. lia.
Qed.

Lemma dialog_maxCount_range st m start :
  (1 <= dialog_maxCount st m start <= safeTotal st)%Z.
Proof.
  unfold dialog_maxCount, safeTotal. destruct m; [lia|].
  pose proof (computeSequentialMaxCount_range (sortedQuestions (questions st)) start).
  rewrite sortedQuestions_length in *. lia.
Qed.

Lemma dialog_maxCount_setSettings s st m start :
  dialog_maxCount (setSettings s st) m start = dialog_maxCount st m start.
Proof. reflexivity. Qed.

Lemma settings_valid_setSettings s st :
  settings_valid (setSettings s st)
  <-> (1 <= numQuestions s <= dialog_maxCount st (s_mode s) (startQuestion s))%Z
      /\ (1 <= startQuestion s <= Z.max 1 (Z.of_N (maxQuestionNumber (questions st))))%Z.
Proof. reflexivity. Qed.

Lemma dialog_step_valid st e : settings_valid st -> settings_valid (dialog_step st e).
Proof.
  intros [Hn Hs].
  destruct e as [m|value|value]; unfold dialog_step, updateMode, updateNumQuestions,
    updateStartQuestion; cbv zeta; rewrite settings_valid_setSettings;
    cbn [s_mode numQuestions startQuestion].
  - split; [|exact Hs].
    pose proof (dialog_maxCount_range st m (startQuestion (appSettings st))).
    apply clamp_range. lia.
  - split; [|exact Hs].
    pose proof (dialog_maxCount_range st (s_mode (appSettings st))
                  (startQuestion (appSettings st))).
    apply clamp_range. lia.
  - set (hi := Z.max 1 (Z.of_N (maxQuestionNumber (questions st)))).
    set (nextStart := clamp (or_one value) 1 hi).
    pose proof (computeSequentialMaxCount_range (sortedQuestions (questions st)) nextStart) as Hc.
    rewrite sortedQuestions_length in Hc.
    split; [|apply clamp_range; lia].
    pose proof (clamp_range (numQuestions (appSettings st)) _ (proj1 Hc)) as Hcl.
    unfold dialog_maxCount, safeTotal. destruct (s_mode (appSettings st)); lia.
Qed.

Lemma dialog_step_questions st e : questions (dialog_step st e) = questions st.
Proof. by destruct e. Qed.

(** X10: after a non-empty bank is loaded, and after any sequence of
    changes made in the settings dialog, the settings are within bounds:
    [numQuestions] lies between 1 and the limit of the chosen mode for the
    chosen start number, and [startQuestion] between 1 and
    max(1, maxQuestionNumber). *)
Theorem dialog_keeps_settings_valid
    (bank : list question) (st : app) (events : list dialog_event) :
  bank <> [] ->
  settings_valid (fold_left dialog_step events (loadBank bank st)).
Proof.
  intros Hne.
  assert (settings_valid (loadBank bank st)) as H0.
  { unfold loadBank. destruct bank as [|q0 qs]; [done|].
    unfold settings_valid, dialog_maxCount, safeTotal. simpl. lia. }
  revert H0. generalize (loadBank bank st). clear.
  induction events as [|e es IH]; intros st H; simpl; [done|].
  by apply IH, dialog_step_valid.
Qed.

Lemma dialog_keeps_settings_valid_witness :
  let bank := [stray_question; scenario_question] in
  let events := [UpdateNumQuestions 50; UpdateMode ModeSequential;
                 UpdateStartQuestion 9; UpdateNumQuestions 0] in
  bank <> []
  /\ settings_valid (fold_left dialog_step events (loadBank bank (initial []))).
Proof.
  intros bank events. assert (bank <> []) as H by discriminate.
  split; [exact H|]. exact (dialog_keeps_settings_valid bank (initial []) events H).
Defined.

Lemma valid_effective_startQuestion st :
  settings_valid st ->
  effective_startQuestion (questions st) (appSettings st) = startQuestion (appSettings st).
Proof.
  intros [_ Hs]. unfold effective_startQuestion, clamp, or_one.
  destruct (Z.eqb_spec (startQuestion (appSettings st)) 0); lia.
Qed.

(** X11: with settings within the bounds of the dialog, [startQuiz] on a
    non-empty bank makes a run of exactly [numQuestions] questions, in either
    mode, and the start number it searches for is the [startQuestion] of the
    settings. *)
Theorem valid_settings_give_requested_run (rnd : nat -> draw) (st : app) :
  questions st <> [] ->
  settings_valid st ->
  Z.of_nat (length (quizQuestions (startQuiz rnd st))) = numQuestions (appSettings st)
  /\ effective_startQuestion (questions st) (appSettings st)
     = startQuestion (appSettings st).
Proof.
  intros Hne Hvalid. split; [|by apply valid_effective_startQuestion].
  rewrite <- (length_map source), startQuiz_sources by done.
  pose proof (valid_effective_startQuestion st Hvalid) as Heff.
  destruct Hvalid as [Hn Hs]. unfold selectQuestions, dialog_maxCount in *.
  destruct (s_mode (appSettings st)).
  - unfold select_random, sampleQuestions, bind, safeTotal in *.
    pose proof (shuffleArray_Permutation (questions st) rnd (randomCalls st)) as HP.
    destruct (shuffleArray (questions st) rnd (randomCalls st)) as [shuffled n1].
    simpl in *. apply Permutation_length in HP.
    assert (1 <= Z.of_nat (length (questions st)))%Z as Hlen
      by (destruct (questions st); [done|simpl; lia]).
    rewrite clamp_or_one by done. rewrite length_take. unfold clamp. lia.
  - unfold ret. cbn [fst]. unfold select_sequential. rewrite Heff.
    set (sorted := sortedQuestions (questions st)) in *.
    pose proof (sortedQuestions_nonempty _ Hne) as Hsne. fold sorted in Hsne.
    rewrite (computeSequentialMaxCount_remaining sorted _ Hsne) in Hn.
    pose proof (is_startIdx_lt _ _ _ Hsne
                  (find_startIdx_is_startIdx sorted (startQuestion (appSettings st)))) as Hlt.
    rewrite length_take, length_drop. unfold clamp, or_one.
    destruct (Z.eqb_spec (numQuestions (appSettings st)) 0); lia.
Qed.

Lemma valid_settings_give_requested_run_witness :
  let st := fold_left dialog_step [UpdateMode ModeSequential; UpdateStartQuestion 2]
              (loadBank [stray_question; scenario_question] (initial [])) in
  questions st <> []
  /\ settings_valid st
  /\ Z.of_nat (length (quizQuestions (startQuiz always_half st)))
     = numQuestions (appSettings st)
  /\ effective_startQuestion (questions st) (appSettings st)
     = startQuestion (appSettings st).
Proof.
  intros st. assert (questions st <> []) as H1 by discriminate.
  assert (settings_valid st) as H2 by (vm_compute; repeat split; discriminate).
  split; [exact H1|]. split; [exact H2|].
  exact (valid_settings_give_requested_run always_half st H1 H2).
Defined.

(** ** The current index *)

Lemma step_quizQuestions rnd st e :
  within_run e = true -> quizQuestions (step rnd st e) = quizQuestions st.
Proof.
  intros He. destruct e; try done; simpl.
  - unfold changeOption. destruct (quizQuestions st !! currentIndex st); [|done].
    by destruct (answersState st !! currentIndex st).
  - unfold submitAnswer. destruct (quizQuestions st !! currentIndex st); [|done].
    destruct (answersState st !! currentIndex st); [done|].
    destruct (Nat.eqb _ 0); [done|]. by destruct (_ && _).
  - unfold previousQuestion. by destruct (_ && _).
  - unfold nextQuestion. by destruct (_ && _).
  - unfold autoNext. by destruct (autoNextTimer st).
Qed.

Lemma step_in_bounds rnd st e :
  within_run e = true ->
  (currentIndex st < length (quizQuestions st))%nat -> timer_fits st ->
  (currentIndex (step rnd st e) < length (quizQuestions (step rnd st e)))%nat
  /\ timer_fits (step rnd st e).
Proof.
  intros He Hidx Htimer. destruct e; try done; simpl.
  - unfold changeOption. destruct (quizQuestions st !! currentIndex st); [|done].
    by destruct (answersState st !! currentIndex st).
  - unfold submitAnswer. destruct (quizQuestions st !! currentIndex st); [|done].
    destruct (answersState st !! currentIndex st); [done|].
    destruct (Nat.eqb _ 0); [done|]. destruct (_ && _); [done|].
    split; [done|]. unfold timer_fits. simpl. intros len.
    destruct (_ && _); [intros [= <-]; lia|apply Htimer].
  - unfold previousQuestion. destruct (_ && _); [|done]. split; [simpl; lia|done].
  - unfold nextQuestion. destruct (_ && _); [|done]. split; [simpl; lia|done].
  - unfold autoNext. destruct (autoNextTimer st) as [len|] eqn:E; [|done].
    split; [simpl; specialize (Htimer len E); lia|]. unfold timer_fits. by simpl.
Qed.

Lemma selectQuestions_nonempty qs s rnd n :
  qs <> [] -> fst (selectQuestions qs s rnd n) <> [].
Proof.
  intros Hne E. apply (f_equal length) in E. revert E.
  unfold selectQuestions. destruct (s_mode s).
  - unfold select_random, sampleQuestions, bind.
    pose proof (shuffleArray_Permutation qs rnd n) as HP.
    destruct (shuffleArray qs rnd n) as [shuffled n1]. simpl in *.
    apply Permutation_length in HP. rewrite length_take. unfold clamp.
    destruct qs; [done|]. simpl in *. lia.
  - unfold ret. cbn [fst]. unfold select_sequential.
    pose proof (sortedQuestions_nonempty _ Hne) as Hsne.
    pose proof (is_startIdx_lt _ _ _ Hsne
                  (find_startIdx_is_startIdx (sortedQuestions qs)
                     (effective_startQuestion qs s))) as Hlt.
    rewrite length_take, length_drop. unfold clamp. simpl. lia.
Qed.

Lemma startQuiz_fields rnd st :
  questions st <> [] ->
  currentIndex (startQuiz rnd st) = 0%nat
  /\ quizQuestions (startQuiz rnd st) <> []
  /\ autoNextTimer (startQuiz rnd st) = autoNextTimer st
  /\ answersState (startQuiz rnd st) = ∅
  /\ draftSelections (startQuiz rnd st) = ∅
  /\ wrongAnswers (startQuiz rnd st) = wrongAnswers st.
Proof.
  intros Hne.
  pose proof (startQuiz_sources rnd st Hne) as Hsrc.
  pose proof (selectQuestions_nonempty _ (appSettings st) rnd (randomCalls st) Hne) as Hsel.
  rewrite <- Hsrc in Hsel. revert Hsel. unfold startQuiz.
  destruct (questions st); [done|]. destruct (bind _ _ _ _) as [ps n1]. simpl.
  intros Hsel. repeat split; try done. intros ->. done.
Qed.

(** X12: in a run started on a non-empty bank while no auto-advance timer is
    pending, the current index denotes a question of the run after any
    sequence of selections, submissions, moves and timer callbacks. *)
Theorem current_question_exists (rnd : nat -> draw) (st : app) (events : list event) :
  questions st <> [] ->
  autoNextTimer st = None ->
  Forall (fun e => within_run e = true) events ->
  let st' := run rnd (startQuiz rnd st) events in
  quizQuestions st' = quizQuestions (startQuiz rnd st)
  /\ is_Some (quizQuestions st' !! currentIndex st').
Proof.
  intros Hne Htimer Hev st'.
  destruct (startQuiz_fields rnd st Hne) as (Hidx & Hq & Ht & _).
  assert ((currentIndex (startQuiz rnd st) < length (quizQuestions (startQuiz rnd st)))%nat
          /\ timer_fits (startQuiz rnd st)) as H0.
  { split; [rewrite Hidx; destruct (quizQuestions (startQuiz rnd st)); [done|simpl; lia]|].
    unfold timer_fits. by rewrite Ht, Htimer. }
  subst st'. unfold run. revert H0. generalize (startQuiz rnd st). clear -Hev.
  induction Hev as [|e es He _ IH]; intros st [Hidx Ht]; simpl.
  - split; [done|]. by apply lookup_lt_is_Some_2.
  - destruct (step_in_bounds rnd st e He Hidx Ht) as [Hidx' Ht'].
    destruct (IH _ (conj Hidx' Ht')) as [Hq Hs]. split; [|done].
    rewrite Hq. by apply step_quizQuestions.
Qed.

Lemma current_question_exists_witness :
  let st := loaded [scenario_question; stray_question] ModeSequential in
  let events := [ChangeOption (js "B") true; SubmitAnswer (js "t0"); AutoNextFires;
                 NextQuestion; PreviousQuestion] in
  questions st <> []
  /\ autoNextTimer st = None
  /\ Forall (fun e => within_run e = true) events
  /\ let st' := run always_half (startQuiz always_half st) events in
     quizQuestions st' = quizQuestions (startQuiz always_half st)
     /\ is_Some (quizQuestions st' !! currentIndex st').
Proof.
  intros st events.
  assert (questions st <> []) as H1 by discriminate.
  assert (autoNextTimer st = None) as H2 by reflexivity.
  assert (Forall (fun e => within_run e = true) events) as H3 by (repeat constructor).
  split; [exact H1|]. split; [exact H2|]. split; [exact H3|].
  exact (current_question_exists always_half st events H1 H2 H3).
Defined.

(** The timer of an earlier run is not cancelled by [startQuiz]: when it
    fires in a shorter run it moves the index past the last question. *)
Example stale_timer_moves_past_the_end :
  length (quizQuestions stale_timer_run) = 1%nat
  /\ currentIndex stale_timer_run = 1%nat
  /\ quizQuestions stale_timer_run !! currentIndex stale_timer_run = None.
Proof. vm_compute. done. Qed.

(** ** Progress and score *)

Lemma step_answers_in_run rnd st e : answers_in_run st -> answers_in_run (step rnd st e).
Proof.
  intros H. destruct e; simpl.
  - unfold changeOption. destruct (quizQuestions st !! currentIndex st); [|done].
    by destruct (answersState st !! currentIndex st).
  - unfold submitAnswer. destruct (quizQuestions st !! currentIndex st) as [q|] eqn:Eq; [|done].
    destruct (answersState st !! currentIndex st); [done|].
    destruct (Nat.eqb _ 0); [done|]. destruct (_ && _); [done|].
    unfold answers_in_run. simpl. intros i r. rewrite lookup_insert.
    case_decide; [intros _; subst; by eapply lookup_lt_Some|apply H].
  - unfold previousQuestion. by destruct (_ && _).
  - unfold nextQuestion. by destruct (_ && _).
  - unfold autoNext. by destruct (autoNextTimer st).
  - unfold startQuiz. destruct (questions st); [done|].
    destruct (bind _ _ _ _). unfold answers_in_run. simpl. intros i r.
    by rewrite lookup_empty.
  - unfold loadBank. destruct parsedQuestions; [done|].
    unfold answers_in_run. simpl. intros i r. by rewrite lookup_empty.
  - done.
  - done.
Qed.

Lemma answers_in_run_size st :
  answers_in_run st -> (size (answersState st) <= length (quizQuestions st))%nat.
Proof.
  intros H. rewrite <- (size_dom (D := gset nat)).
  rewrite <- (size_set_seq (C := gset nat) 0 (length (quizQuestions st))).
  apply subseteq_size. intros i Hi. apply elem_of_dom in Hi as [r Hr].
  apply elem_of_set_seq. split; [lia|]. simpl. by eapply H.
Qed.

(** X13: in every state the application reaches, every answer record belongs
    to a question of the run, and so
    score <= number of answered questions <= number of questions of the run. *)
Theorem score_answered_total (rnd : nat -> draw) (stored : list wrongAnswer)
    (events : list event) :
  let st := run rnd (initial stored) events in
  (forall i, is_Some (answersState st !! i) -> is_Some (quizQuestions st !! i))
  /\ (score st <= size (answersState st))%nat
  /\ (size (answersState st) <= length (quizQuestions st))%nat.
Proof.
  intros st.
  assert (answers_in_run st /\ score st = correctCount (answersState st)) as [Hin Hscore].
  { subst st. unfold run.
    assert (answers_in_run (initial stored)
            /\ score (initial stored) = correctCount (answersState (initial stored))) as H0.
    { split; [intros i r; simpl; by rewrite lookup_empty|].
      simpl. by rewrite correctCount_empty. }
    revert H0. generalize (initial stored).
    induction events as [|e es IH]; intros st [H1 H2]; simpl; [done|].
    apply IH. split; [by apply step_answers_in_run|by apply step_score]. }
  split; [|split].
  - intros i [r Hr]. apply lookup_lt_is_Some_2. by eapply Hin.
  - rewrite Hscore. unfold correctCount. apply map_subseteq_size, map_filter_subseteq.
  - by apply answers_in_run_size.
Qed.

(** ** The wrong-answer log across the application *)


Lemma step_wrongAnswers_NoDup rnd st e :
  NoDup (map original_number (wrongAnswers st)) ->
  NoDup (map original_number (wrongAnswers (step rnd st e))).
Proof.
  intros H. destruct e; simpl.
  - unfold changeOption. destruct (quizQuestions st !! currentIndex st); [|done].
    by destruct (answersState st !! currentIndex st).
  - unfold submitAnswer. destruct (quizQuestions st !! currentIndex st) as [q|]; [|done].
    destruct (answersState st !! currentIndex st); [done|].
    destruct (Nat.eqb _ 0); [done|]. destruct (_ && _); [done|]. simpl.
    destruct (jsstring_eqb _ _); [done|]. by apply upsert_NoDup.
  - unfold previousQuestion. by destruct (_ && _).
  - unfold nextQuestion. by destruct (_ && _).
  - unfold autoNext. by destruct (autoNextTimer st).
  - unfold startQuiz. destruct (questions st); [done|]. by destruct (bind _ _ _ _).
  - unfold loadBank. by destruct parsedQuestions.
  - done.
  - simpl. apply NoDup_nil_2.
Qed.

(** X14: when the stored log has pairwise distinct question numbers, so has
    the log of every state the application reaches, whatever the events:
    runs, banks and settings may change, the log keeps one entry per
    number. *)
Theorem wrong_log_stays_distinct (rnd : nat -> draw) (stored : list wrongAnswer)
    (events : list event) :
  NoDup (map original_number stored) ->
  NoDup (map original_number (wrongAnswers (run rnd (initial stored) events))).
Proof.
  intros H. unfold run.
  assert (NoDup (map original_number (wrongAnswers (initial stored)))) as H0 by exact H.
  revert H0. generalize (initial stored). clear.
  induction events as [|e es IH]; intros st H; simpl; [done|].
  by apply IH, step_wrongAnswers_NoDup.
Qed.

Lemma wrong_log_stays_distinct_witness :
  let stored := [miss 7 "B"; miss 1 "A"] in
  let events := [LoadBank [scenario_question]; StartQuiz; ChangeOption (js "A") true;
                 SubmitAnswer (js "t0"); ClearWrongAnswers; StartQuiz] in
  NoDup (map original_number stored)
  /\ NoDup (map original_number (wrongAnswers (run always_half (initial stored) events))).
Proof.
  intros stored events.
  assert (NoDup (map original_number stored)) as H.
  { apply NoDup_cons. split; [|apply NoDup_singleton].
    simpl. rewrite list_elem_of_singleton. discriminate. }
  split; [exact H|]. exact (wrong_log_stays_distinct always_half stored events H).
Defined.



(** ** Draft selections *)

Lemma dedupe_spec seen l :
  NoDup (dedupe seen l)
  /\ forall x, x ∈ dedupe seen l <-> x ∈ l /\ x ∉ seen.
Proof.
  revert seen. induction l as [|y l IH]; intros seen; simpl.
  - split; [apply NoDup_nil_2|]. intros x. rewrite elem_of_nil. tauto.
  - destruct (existsb (jsstring_eqb y) seen) eqn:E.
    + apply existsb_jsstring_eqb in E. destruct (IH seen) as [Hd Hx].
      split; [done|]. intros x. rewrite Hx, elem_of_cons. split; [tauto|].
      intros [[->|H] Hn]; [done|by split].
    + assert (y ∉ seen) as Hy.
      { intros H. apply existsb_jsstring_eqb in H. congruence. }
      destruct (IH (y :: seen)) as [Hd Hx]. split.
      * apply NoDup_cons. split; [|done]. rewrite Hx. intros [_ H]. apply H. left.
      * intros x. rewrite !elem_of_cons, Hx, not_elem_of_cons.
        destruct (decide (x = y)) as [->|Hne]; [tauto|]. tauto.
Qed.

Lemma StronglySorted_filter_letter (l : list jsstring) letter :
  StronglySorted (fun a b => jsstring_leb a b = true) l ->
  StronglySorted (fun a b => jsstring_leb a b = true) (filter (fun item => item <> letter) l).
Proof.
  induction 1 as [|x l Hs IH Hx]; [constructor|].
  rewrite filter_cons. destruct (decide (x <> letter)); [|done].
  constructor; [done|]. rewrite Forall_forall in *. intros y Hy.
  apply list_elem_of_filter in Hy as [_ Hy]. auto.
Qed.

Lemma changeOption_drafts_ok letter checked st :
  drafts_ok st -> drafts_ok (changeOption letter checked st).
Proof.
  intros H. unfold changeOption.
  destruct (quizQuestions st !! currentIndex st) as [q|] eqn:Eq; [|done].
  destruct (answersState st !! currentIndex st); [done|].
  unfold drafts_ok. simpl. intros i sel. rewrite lookup_insert.
  case_decide as Hi; [|apply H]. subst i. intros [= <-].
  set (existing := default [] (draftSelections st !! currentIndex st)).
  assert (NoDup existing /\ StronglySorted (fun a b => jsstring_leb a b = true) existing)
    as [Hd Hs].
  { unfold existing. destruct (draftSelections st !! currentIndex st) as [sel|] eqn:E; simpl.
    - destruct (H _ _ E) as (H1 & H2 & _). done.
    - split; [apply NoDup_nil_2|constructor]. }
  destruct (isMultipleChoice q) eqn:Emc.
  - split; [|split; [|intros q' Hq'; rewrite Eq in Hq'; injection Hq' as <-; congruence]].
    + destruct checked; [|by apply NoDup_filter].
      unfold sortLetters. rewrite sort_by_Permutation. apply dedupe_spec.
    + destruct checked; [apply sortLetters_ordered|by apply StronglySorted_filter_letter].
  - destruct checked; (split; [|split; [|intros; simpl; lia]]);
      try apply NoDup_singleton; try apply NoDup_nil_2; repeat constructor.
Qed.

Lemma step_drafts_ok rnd st e : drafts_ok st -> drafts_ok (step rnd st e).
Proof.
  intros H. destruct e; simpl.
  - by apply changeOption_drafts_ok.
  - unfold submitAnswer. destruct (quizQuestions st !! currentIndex st); [|done].
    destruct (answersState st !! currentIndex st); [done|].
    destruct (Nat.eqb _ 0); [done|]. by destruct (_ && _).
  - unfold previousQuestion. by destruct (_ && _).
  - unfold nextQuestion. by destruct (_ && _).
  - unfold autoNext. by destruct (autoNextTimer st).
  - unfold startQuiz. destruct (questions st); [done|].
    destruct (bind _ _ _ _). unfold drafts_ok. simpl. intros i sel.
    by rewrite lookup_empty.
  - unfold loadBank. destruct parsedQuestions; [done|].
    unfold drafts_ok. simpl. intros i sel. by rewrite lookup_empty.
  - done.
  - done.
Qed.

(** X16: in every state the application reaches, each draft selection lists
    its letters in ascending order without repetition, so that [submitAnswer]
    submits the draft as it is and its length counts distinct letters; and
    the draft of a single-choice question has at most one letter. *)
Theorem drafts_are_sorted_sets (rnd : nat -> draw) (stored : list wrongAnswer)
    (events : list event) (i : nat) (sel : list jsstring) :
  draftSelections (run rnd (initial stored) events) !! i = Some sel ->
  NoDup sel
  /\ sortLetters sel = sel
  /\ forall q, quizQuestions (run rnd (initial stored) events) !! i = Some q ->
               isMultipleChoice q = false -> (length sel <= 1)%nat.
Proof.
  assert (drafts_ok (run rnd (initial stored) events)) as H.
  { unfold run.
    assert (drafts_ok (initial stored)) as H0
      by (intros j s; simpl; by rewrite lookup_empty).
    revert H0. generalize (initial stored).
    induction events as [|e es IH]; intros st H; simpl; [done|].
    by apply IH, step_drafts_ok. }
  intros Hsel. destruct (H i sel Hsel) as (H1 & H2 & H3).
  split; [done|]. split; [by apply sortLetters_ordered_id|done].
Qed.

Lemma drafts_are_sorted_sets_witness :
  let events := [LoadBank [stray_question]; StartQuiz; ChangeOption (js "B") true;
                 ChangeOption (js "A") true; ChangeOption (js "B") true] in
  let st := run always_half (initial []) events in
  draftSelections st !! 0%nat = Some [js "A"; js "B"]
  /\ NoDup [js "A"; js "B"]
  /\ sortLetters [js "A"; js "B"] = [js "A"; js "B"]
  /\ forall q, quizQuestions st !! 0%nat = Some q ->
               isMultipleChoice q = false -> (length [js "A"; js "B"] <= 1)%nat.
Proof.
  intros events st.
  assert (draftSelections st !! 0%nat = Some [js "A"; js "B"]) as H
    by (vm_compute; reflexivity).
  split; [exact H|].
  exact (drafts_are_sorted_sets always_half [] events 0 [js "A"; js "B"] H).
Defined.

(** ** The shuffle and its draws *)

Lemma shuffle_from_calls {A} i (copy : list A) rnd n :
  snd (shuffle_from i copy rnd n) = (n + i)%nat.
Proof.
  revert copy n. induction i as [|i IH]; intros copy n; simpl; [lia|].
  unfold bind, Math_random. rewrite IH. lia.
Qed.

(** X17: for an array of any element type, every stream of draws and every
    position in it, [shuffleArray] returns a permutation of the array of the
    same length and makes one call of [Math.random] per element but one
    (none for the empty array). *)
Theorem shuffleArray_permutes {A : Type} (array : list A) (rnd : nat -> draw) (n : nat) :
  fst (shuffleArray array rnd n) ≡ₚ array
  /\ length (fst (shuffleArray array rnd n)) = length array
  /\ snd (shuffleArray array rnd n) = (n + (length array - 1))%nat.
Proof.
  pose proof (shuffleArray_Permutation array rnd n) as HP.
  split; [exact HP|]. split; [by rewrite HP|].
  unfold shuffleArray. apply shuffle_from_calls.
Qed.

(** ** What the three patterns accept *)

Lemma span_spec p s a b :
  span p s = (a, b)
  <-> s = a ++ b /\ Forall (fun c => p c = true) a
      /\ match b with c :: _ => p c = false | [] => True end.
Proof.
  split.
  - intros E. pose proof (span_app p s) as H1. pose proof (span_fst_Forall p s) as H2.
    rewrite E in H1, H2. simpl in *. split; [done|]. split; [done|].
    clear H1 H2. revert a b E. induction s as [|c r IH]; intros a b E; simpl in E.
    + by injection E as <- <-.
    + destruct (p c) eqn:Ec; [|by injection E as <- <-; rewrite Ec].
      destruct (span p r) as [a' b'] eqn:E'. injection E as <- <-. by eapply IH.
  - intros (-> & Ha & Hb). induction Ha as [|c a Hc _ IH]; simpl.
    + destruct b as [|c b]; [done|]. simpl. by rewrite Hb.
    + by rewrite Hc, IH.
Qed.

Lemma forallb_Forall_true (p : code_unit -> bool) l :
  forallb p l = true <-> Forall (fun c => p c = true) l.
Proof.
  induction l as [|c l IH]; simpl; [split; [constructor|done]|].
  rewrite andb_true_iff, IH. split; [intros []; by constructor|].
  intros H. by apply Forall_cons in H.
Qed.

Lemma match_rest_spec r rest :
  match_rest r = Some rest
  <-> exists ws, r = ws ++ rest /\ Forall (fun c => isWhiteSpace c = true) ws
                 /\ starts_clean rest /\ Forall (fun c => dot c = true) rest.
Proof.
  unfold match_rest, trimStart. split.
  - destruct (span isWhiteSpace r) as [ws rest'] eqn:E. simpl.
    destruct (forallb dot rest') eqn:Ed; [|done]. intros [= <-].
    apply span_spec in E as (-> & Hws & Hhead). exists ws.
    split; [done|]. split; [done|]. split; [by destruct rest'|].
    by apply forallb_Forall_true in Ed.
  - intros (ws & -> & Hws & Hclean & Hdot).
    assert (span isWhiteSpace (ws ++ rest) = (ws, rest)) as ->.
    { apply span_spec. split; [done|]. split; [done|]. by destruct rest. }
    simpl. apply forallb_Forall_true in Hdot. by rewrite Hdot.
Qed.

(** X18: [QUESTION_RE] matches a string exactly when it consists of one or
    more digits, one of the three separators, white space, and a rest that
    does not start with white space and holds no line terminator; the groups
    are the digits and the rest. *)
Theorem QUESTION_RE_accepts (s digits rest : jsstring) :
  QUESTION_RE s = Some (digits, rest)
  <-> exists c ws,
        s = digits ++ c :: ws ++ rest
        /\ digits <> []
        /\ Forall (fun d => isDigit d = true) digits
        /\ isSeparator c = true
        /\ Forall (fun w => isWhiteSpace w = true) ws
        /\ starts_clean rest
        /\ Forall (fun x => dot x = true) rest.
Proof.
  rewrite QUESTION_RE_greedy. unfold match_QUESTION_RE. split.
  - destruct (span isDigit s) as [[|d ds] [|c r]] eqn:E; try done.
    destruct (isSeparator c) eqn:Ec; [|done].
    destruct (match_rest r) as [rest'|] eqn:Er; [|done]. intros [= <- <-].
    apply span_spec in E as (-> & Hd & _).
    apply match_rest_spec in Er as (ws & -> & Hws & Hclean & Hdot).
    exists c, ws. done.
  - intros (c & ws & -> & Hne & Hd & Hc & Hws & Hclean & Hdot).
    assert (span isDigit (digits ++ c :: ws ++ rest) = (digits, c :: ws ++ rest)) as ->.
    { apply span_spec. split; [done|]. split; [done|].
      unfold isDigit, isSeparator in *. unbool. lia. }
    destruct digits as [|d ds]; [done|]. rewrite Hc.
    assert (match_rest (ws ++ rest) = Some rest) as ->; [|done].
    apply match_rest_spec. by exists ws.
Qed.

(** X19: [OPTION_RE] matches a string exactly when it consists of a letter
    of A to F in either case, one of the three separators, white space, and
    a rest that does not start with white space and holds no line
    terminator; the groups are the letter and the rest. *)
Theorem OPTION_RE_accepts (s letter rest : jsstring) :
  OPTION_RE s = Some (letter, rest)
  <-> exists l c ws,
        letter = [l]
        /\ s = l :: c :: ws ++ rest
        /\ isLetterAF l = true
        /\ isSeparator c = true
        /\ Forall (fun w => isWhiteSpace w = true) ws
        /\ starts_clean rest
        /\ Forall (fun x => dot x = true) rest.
Proof.
  rewrite OPTION_RE_greedy. unfold match_OPTION_RE. split.
  - destruct s as [|l [|c r]]; try done.
    destruct (isLetterAF l) eqn:El; [|done]. destruct (isSeparator c) eqn:Ec; [|done].
    simpl. destruct (match_rest r) as [rest'|] eqn:Er; [|done]. intros [= <- <-].
    apply match_rest_spec in Er as (ws & -> & Hws & Hclean & Hdot).
    exists l, c, ws. done.
  - intros (l & c & ws & -> & -> & Hl & Hc & Hws & Hclean & Hdot).
    rewrite Hl, Hc. simpl.
    assert (match_rest (ws ++ rest) = Some rest) as ->; [|done].
    apply match_rest_spec. by exists ws.
Qed.

Lemma match_literal_ci_spec lit s r :
  match_literal_ci lit s = Some r
  <-> exists w, s = w ++ r /\ map upperUnit w = map upperUnit lit.
Proof.
  revert s. induction lit as [|l lit IH]; intros s; simpl.
  - split; [intros [= ->]; by exists []|].
    intros (w & -> & Hw). by destruct w.
  - destruct s as [|c s].
    + split; [done|]. intros (w & Hs & Hw). by destruct w.
    + destruct (N.eqb_spec (upperUnit c) (upperUnit l)) as [E|E].
      * rewrite IH. split.
        -- intros (w & -> & Hw). exists (c :: w). simpl. by rewrite E, Hw.
        -- intros (w & Hs & Hw). destruct w as [|c' w]; [done|].
           simpl in *. injection Hs as <- ->. injection Hw as _ Hw. by exists w.
      * split; [done|]. intros (w & Hs & Hw). destruct w as [|c' w]; [done|].
        simpl in *. injection Hs as <- ->. by injection Hw as Hc _.
Qed.

(** X20: [ANSWER_RE] matches a string exactly when it consists of the word
    Answer in any mixture of cases, one or more colons or white space
    characters, and one or more letters of A to F in either case up to the
    end; the group is those letters. *)
Theorem ANSWER_RE_accepts (s letters : jsstring) :
  ANSWER_RE s = Some letters
  <-> exists word gap,
        s = word ++ gap ++ letters
        /\ map upperUnit word = js "ANSWER"
        /\ gap <> []
        /\ Forall (fun g => colonOrSpace g = true) gap
        /\ letters <> []
        /\ Forall (fun l => isLetterAF l = true) letters.
Proof.
  rewrite ANSWER_RE_greedy. unfold match_ANSWER_RE.
  assert (map upperUnit (js "Answer") = js "ANSWER") as Hword by (vm_compute; reflexivity).
  split.
  - destruct (match_literal_ci (js "Answer") s) as [r|] eqn:El; [|done].
    apply match_literal_ci_spec in El as (word & -> & Hw). rewrite Hword in Hw.
    destruct (span colonOrSpace r) as [[|g gap] r'] eqn:Eg; [done|].
    apply span_spec in Eg as (-> & Hgap & _).
    destruct (span isLetterAF r') as [[|l ls] [|x xs]] eqn:Ea; try done.
    intros [= <-]. apply span_spec in Ea as (-> & Hls & _).
    exists word, (g :: gap). rewrite app_nil_r. done.
  - intros (word & gap & -> & Hw & Hgne & Hgap & Hlne & Hls).
    assert (match_literal_ci (js "Answer") (word ++ gap ++ letters) = Some (gap ++ letters))
      as ->.
    { apply match_literal_ci_spec. exists word. by rewrite Hword. }
    assert (span colonOrSpace (gap ++ letters) = (gap, letters)) as ->.
    { apply span_spec. split; [done|]. split; [done|].
      destruct letters as [|l ls]; [done|]. apply Forall_cons in Hls as [Hl _].
      unfold colonOrSpace, isLetterAF, isUpperAF, isWhiteSpace, isLineTerminator in *.
      unbool. lia. }
    destruct gap as [|g gap]; [done|].
    rewrite (span_all isLetterAF letters) by by apply forallb_Forall_true.
    by destruct letters.
Qed.

(** ** Questions from a start number on *)

Lemma filter_all {A} (P : A -> Prop) `{forall x, Decision (P x)} (l : list A) :
  Forall P l -> filter P l = l.
Proof.
  induction 1 as [|x l Hx _ IH]; [done|]. by rewrite filter_cons, decide_True, IH.
Qed.

Lemma filter_none {A} (P : A -> Prop) `{forall x, Decision (P x)} (l : list A) :
  Forall (fun x => ~ P x) l -> filter P l = [].
Proof.
  induction 1 as [|x l Hx _ IH]; [done|]. by rewrite filter_cons, decide_False, IH.
Qed.

(** In a list in ascending order the questions that reach a start number are
    those from the first one that does. *)
Lemma ascending_filter_drop sorted start k q :
  StronglySorted ascending sorted ->
  sorted !! k = Some q -> reaches start q ->
  (forall j q', (j < k)%nat -> sorted !! j = Some q' -> ~ reaches start q') ->
  filter (fun x => reaches start x) sorted = drop k sorted.
Proof.
  intros Hs. revert k. induction Hs as [|x l Hs IH Hx]; intros k Hk Hq Hbefore; [done|].
  destruct k as [|k]; simpl in *.
  - injection Hk as ->. apply filter_all. constructor; [done|].
    eapply Forall_impl; [exact Hx|]. unfold ascending, reaches in *. intros y Hy. lia.
  - rewrite filter_cons, decide_False by (apply (Hbefore 0%nat); [lia|done]).
    apply IH; [done..|]. intros j q' Hj Hq'. apply (Hbefore (S j)); [lia|done].
Qed.

Lemma is_startIdx_filter sorted start idx :
  StronglySorted ascending sorted -> is_startIdx sorted start idx ->
  (filter (fun x => reaches start x) sorted <> []
   /\ filter (fun x => reaches start x) sorted = drop idx sorted)
  \/ (filter (fun x => reaches start x) sorted = [] /\ idx = 0%nat).
Proof.
  intros Hs [(q & Hq & Hr & Hbefore)|[-> Hnone]].
  - left. rewrite (ascending_filter_drop sorted start idx q) by done. split; [|done].
    intros E. apply (f_equal length) in E. rewrite length_drop in E.
    apply lookup_lt_Some in Hq. simpl in E. lia.
  - right. split; [|done]. apply filter_none. by apply Forall_forall.
Qed.

(** X21: the limit that the settings dialog computes for a sequential run of
    a non-empty bank is the number of questions whose number is at least the
    start number, or the size of the whole bank when no number is. *)
Theorem sequential_limit_counts_questions_from_start (bank : list question) (start : Z) :
  bank <> [] ->
  let reaching := filter (fun q => reaches start q) bank in
  computeSequentialMaxCount (sortedQuestions bank) start
  = Z.of_nat (if Nat.eqb (length reaching) 0 then length bank else length reaching).
Proof.
  intros Hne reaching.
  pose proof (sortedQuestions_nonempty _ Hne) as Hsne.
  rewrite (computeSequentialMaxCount_remaining _ _ Hsne).
  assert (length reaching
          = length (filter (fun q => reaches start q) (sortedQuestions bank))) as Hlen.
  { unfold reaching, sortedQuestions. by rewrite sort_by_Permutation. }
  destruct (is_startIdx_filter _ start _ (sortedQuestions_ascending bank)
              (find_startIdx_is_startIdx (sortedQuestions bank) start))
    as [[Hsome Heq]|[Hnone Hidx]].
  - rewrite Hlen, Heq, length_drop. rewrite Heq in Hsome.
    destruct (Nat.eqb_spec (length (sortedQuestions bank) - find_startIdx (sortedQuestions bank) start 0) 0)
      as [E|E]; [|done].
    destruct (drop _ _) eqn:Ed; [done|].
    apply (f_equal length) in Ed. rewrite length_drop in Ed. simpl in Ed. lia.
  - rewrite Hlen, Hnone, Hidx. simpl. by rewrite sortedQuestions_length, Nat.sub_0_r.
Qed.

Lemma sequential_limit_counts_questions_from_start_witness :
  let bank := [stray_question; scenario_question] in
  bank <> []
  /\ let reaching := filter (fun q => reaches 2 q) bank in
     computeSequentialMaxCount (sortedQuestions bank) 2
     = Z.of_nat (if Nat.eqb (length reaching) 0 then length bank else length reaching).
Proof.
  intros bank. assert (bank <> []) as H by discriminate.
  split; [exact H|]. exact (sequential_limit_counts_questions_from_start bank 2 H).
Defined.

(** X22: in sequential mode on a non-empty bank in which some number reaches
    the start number, the run consists of the first questions, in ascending
    order of number, among those whose number reaches the start number: no
    question below the start number is selected. *)
Theorem sequential_run_reaches_start (rnd : nat -> draw) (st : app) :
  questions st <> [] ->
  s_mode (appSettings st) = ModeSequential ->
  let start := effective_startQuestion (questions st) (appSettings st) in
  (exists q, q ∈ questions st /\ reaches start q) ->
  let run := map source (quizQuestions (startQuiz rnd st)) in
  run = take (length run)
          (filter (fun q => reaches start q) (sortedQuestions (questions st)))
  /\ Forall (fun q => reaches start q) run
  /\ StronglySorted ascending run.
Proof.
  intros Hne Hmode start (q0 & Hq0 & Hr0) run.
  set (sorted := sortedQuestions (questions st)).
  assert (run = take (length run) (filter (fun q => reaches start q) sorted)) as Hrun.
  { subst run. rewrite startQuiz_sources by done.
    unfold selectQuestions. rewrite Hmode. unfold ret. cbn [fst].
    unfold select_sequential. fold sorted. fold start.
    destruct (is_startIdx_filter sorted start _ (sortedQuestions_ascending _)
                (find_startIdx_is_startIdx sorted start)) as [[_ Heq]|[Hnone _]].
    - rewrite Heq, length_take.
      set (count := Z.to_nat _). set (rest := drop _ sorted).
      destruct (Nat.le_gt_cases count (length rest)) as [Hle|Hgt].
      + by rewrite Nat.min_l.
      + rewrite Nat.min_r by lia. by rewrite !take_ge by lia.
    - exfalso. assert (q0 ∈ filter (fun q => reaches start q) sorted) as Hin.
      { apply list_elem_of_filter. split; [done|].
        unfold sorted, sortedQuestions. by rewrite sort_by_Permutation. }
      rewrite Hnone in Hin. by apply elem_of_nil in Hin. }
  split; [exact Hrun|]. rewrite Hrun. split.
  - apply Forall_take. apply Forall_forall. intros q Hq.
    by apply list_elem_of_filter in Hq as [Hq _].
  - assert (forall l : list question, StronglySorted ascending l ->
              forall k, StronglySorted ascending (take k l)) as Htake.
    { induction 1 as [|x l Hs IH Hx]; intros [|k]; simpl; try constructor; [apply IH|].
      by apply Forall_take. }
    apply Htake.
    assert (forall l : list question, StronglySorted ascending l ->
              StronglySorted ascending (filter (fun q => reaches start q) l)) as Hfilter.
    { induction 1 as [|x l Hs IH Hx]; [constructor|].
      rewrite filter_cons. destruct (decide (reaches start x)); [|done].
      constructor; [done|]. rewrite Forall_forall in *. intros y Hy.
      apply list_elem_of_filter in Hy as [_ Hy]. auto. }
    apply Hfilter, sortedQuestions_ascending.
Qed.

Lemma sequential_run_reaches_start_witness :
  let st := setSettings {| s_mode := ModeSequential; numQuestions := 5; startQuestion := 2 |}
              (loadBank [stray_question; scenario_question] (initial [])) in
  questions st <> []
  /\ s_mode (appSettings st) = ModeSequential
  /\ let start := effective_startQuestion (questions st) (appSettings st) in
     (exists q, q ∈ questions st /\ reaches start q)
     /\ let run := map source (quizQuestions (startQuiz always_half st)) in
        run = take (length run)
                (filter (fun q => reaches start q) (sortedQuestions (questions st)))
        /\ Forall (fun q => reaches start q) run
        /\ StronglySorted ascending run.
Proof.
  intros st. assert (questions st <> []) as H1 by discriminate.
  assert (s_mode (appSettings st) = ModeSequential) as H2 by reflexivity.
  assert (exists q, q ∈ questions st
                    /\ reaches (effective_startQuestion (questions st) (appSettings st)) q)
    as H3.
  { exists stray_question. split; [apply list_elem_of_here|]. vm_compute. discriminate. }
  split; [exact H1|]. split; [exact H2|]. split; [exact H3|].
  exact (sequential_run_reaches_start always_half st H1 H2 H3).
Defined.

(** ** The auto-advance *)

(** X23: after an accepted submission the index is unchanged; when the
    record is correct and the question is not the last of the run, a timer
    is pending whose callback moves to the next question; when the record is
    incorrect no timer is scheduled by the submission. *)
Theorem correct_answer_schedules_the_next_question
    (now : jsstring) (st : app) (q : prepared) (r : answerRecord) :
  quizQuestions st !! currentIndex st = Some q ->
  answersState st !! currentIndex st = None ->
  answersState (submitAnswer now st) !! currentIndex st = Some r ->
  let st' := submitAnswer now st in
  currentIndex st' = currentIndex st
  /\ (isCorrect r = true ->
      (currentIndex st < length (quizQuestions st) - 1)%nat ->
      autoNextTimer st' = Some (length (quizQuestions st))
      /\ currentIndex (autoNext st') = (currentIndex st + 1)%nat
      /\ autoNextTimer (autoNext st') = None)
  /\ (isCorrect r = true ->
      currentIndex st = (length (quizQuestions st) - 1)%nat ->
      autoNextTimer st' = autoNextTimer st)
  /\ (isCorrect r = false -> autoNextTimer st' = autoNextTimer st).
Proof.
  intros Hq Hnone. unfold submitAnswer. rewrite Hq, Hnone.
  destruct (Nat.eqb _ 0); [simpl; by rewrite Hnone|].
  destruct (_ && _); [simpl; by rewrite Hnone|].
  simpl. rewrite lookup_insert_eq. intros [= <-]. simpl.
  split; [done|]. split; [|split].
  - intros -> Hlt. apply Nat.ltb_lt in Hlt as Hb. rewrite Hb. simpl.
    split; [done|]. unfold autoNext. simpl. split; [lia|done].
  - intros -> Hlast. simpl.
    assert ((currentIndex st <? length (quizQuestions st) - 1)%nat = false) as ->; [|done].
    apply Nat.ltb_ge. lia.
  - by intros ->.
Qed.

Lemma correct_answer_schedules_the_next_question_witness :
  let st := run always_half (loaded [scenario_question; stray_question] ModeSequential)
              [StartQuiz; ChangeOption (js "B") true] in
  let q := fst (prepareQuestion scenario_question always_half 0%nat) in
  let r := {| selected := [js "B"]; isCorrect := true;
              userAnswerShuffled := js "B"; userAnswerOriginal := js "B" |} in
  quizQuestions st !! currentIndex st = Some q
  /\ answersState st !! currentIndex st = None
  /\ answersState (submitAnswer (js "t0") st) !! currentIndex st = Some r
  /\ let st' := submitAnswer (js "t0") st in
     currentIndex st' = currentIndex st
     /\ (isCorrect r = true ->
         (currentIndex st < length (quizQuestions st) - 1)%nat ->
         autoNextTimer st' = Some (length (quizQuestions st))
         /\ currentIndex (autoNext st') = (currentIndex st + 1)%nat
         /\ autoNextTimer (autoNext st') = None)
     /\ (isCorrect r = true ->
         currentIndex st = (length (quizQuestions st) - 1)%nat ->
         autoNextTimer st' = autoNextTimer st)
     /\ (isCorrect r = false -> autoNextTimer st' = autoNextTimer st).
Proof.
  intros st q r.
  assert (quizQuestions st !! currentIndex st = Some q) as H1 by (vm_compute; reflexivity).
  assert (answersState st !! currentIndex st = None) as H2 by (vm_compute; reflexivity).
  assert (answersState (submitAnswer (js "t0") st) !! currentIndex st = Some r) as H3
    by (vm_compute; reflexivity).
  split; [exact H1|]. split; [exact H2|]. split; [exact H3|].
  exact (correct_answer_schedules_the_next_question (js "t0") st q r H1 H2 H3).
Defined.
